(** * RSS Guard: feed-tree model and message-list model

    A shallow embedding of [core/feedsmodel.cpp] and [core/messagesmodel.cpp].

    Item nodes live in a heap keyed by address, so that the pointer
    manipulations of the C++ code (child lists, parent back-references,
    in-place updates of feeds) are modelled with their aliasing.  A call
    returns an [Outcome]: a value, or one of the ways in which the C++ call
    does not return one.  What the two files do not contain (the persistent
    store behind the items, the database driver, the service hooks and
    queries of the message model) enters as a type class of collaborators.

    The definitions come first: the feed tree (nodes, scheduling, child
    lists, structural mutations, loading, merging, bulk updates), then the
    message list model, each followed by the predicates in which the
    statements are phrased and by sample data.  The theorems follow in the
    same order. *)

From Stdlib Require Import ZArith Lia.
From stdpp Require Import gmap list strings fin_maps pretty.

Local Open Scope Z_scope.

Set Warnings "-register-all".

(** ** Item nodes *)

(** [RootItem::Kind], with the spelling of the source. *)
Inductive Kind := Root | Bin | Cattegory | Feeed.

#[global] Instance Kind_eq_dec : EqDecision Kind.
Proof. solve_decision. Defined.

(** [StandardFeed::AutoUpdateType]. *)
Inductive AutoUpdateType := DontAutoUpdate | DefaultAutoUpdate | SpecificAutoUpdate.

#[global] Instance AutoUpdateType_eq_dec : EqDecision AutoUpdateType.
Proof. solve_decision. Defined.

(** Addresses of item nodes ([RootItem*]). *)
Abbreviation addr := positive (only parsing).

(** One node of the tree.  The class hierarchy RootItem / StandardCategory /
    StandardFeed / RecycleBin is flattened: the three auto-update fields are
    those of [Feed] and are only read on nodes of kind [Feeed]. *)
Record RootItem := mkItem {
  kind : Kind;
  id : Z;
  title : string;
  childItems : list addr;
  parent : option addr;
  autoUpdateType : AutoUpdateType;
  autoUpdateInitialInterval : Z;
  autoUpdateRemainingInterval : Z
}.

Abbreviation Heap := (gmap positive RootItem) (only parsing).

Definition setChildItems (l : list addr) (it : RootItem) : RootItem :=
  mkItem (kind it) (id it) (title it) l (parent it)
         (autoUpdateType it) (autoUpdateInitialInterval it) (autoUpdateRemainingInterval it).

Definition setParent (p : option addr) (it : RootItem) : RootItem :=
  mkItem (kind it) (id it) (title it) (childItems it) p
         (autoUpdateType it) (autoUpdateInitialInterval it) (autoUpdateRemainingInterval it).

Definition setAutoUpdateRemainingInterval (r : Z) (it : RootItem) : RootItem :=
  mkItem (kind it) (id it) (title it) (childItems it) (parent it)
         (autoUpdateType it) (autoUpdateInitialInterval it) r.

(** Two's-complement wrap-around of a C++ [int]. *)
Definition wrap32 (z : Z) : Z := (z + 2 ^ 31) mod 2 ^ 32 - 2 ^ 31.

(** [--remaining_interval] on an [int]. *)
Definition dec32 (z : Z) : Z := wrap32 (z - 1).

(** Modelled from the spec: RootItem::getRecursiveChildren (class RootItem is
    not among the sources): the flattened descendant list in pre-order.  The
    fuel bounds the depth of the walk; [getRecursiveChildren] takes the number
    of nodes of the heap, which no path of a tree exceeds. *)
Fixpoint descendants (fuel : nat) (h : Heap) (a : addr) : list addr :=
  match fuel with
  | O => []
  | S n =>
      match h !! a with
      | None => []
      | Some it => flat_map (fun c => c :: descendants n h c) (childItems it)
      end
  end.

Definition getRecursiveChildren (h : Heap) (a : addr) : list addr :=
  descendants (size h) h a.

Definition isFeed (h : Heap) (a : addr) : bool :=
  match h !! a with
  | Some it => bool_decide (kind it = Feeed)
  | None => false
  end.

(** [FeedsModel::feedsForItem]. *)
Definition feedsForItem (h : Heap) (root : addr) : list addr :=
  filter (fun child => isFeed h child = true) (getRecursiveChildren h root).

(** ** Scheduled auto-update *)

(** Body of the [foreach] of [FeedsModel::feedsForScheduledUpdate]: the state
    is the heap (feeds are updated in place) and [feeds_for_update].  The
    last case is the [default] of the [switch].  The pointers iterated over
    come from [allFeeds] and designate live feeds; a pointer to no node
    leaves the state as it is. *)
Definition scheduleStep (auto_update_now : bool) (st : Heap * list addr) (feed : addr)
  : Heap * list addr :=
  let '(h, feeds_for_update) := st in
  match h !! feed with
  | None => st
  | Some f =>
      match autoUpdateType f with
      | DontAutoUpdate => st
      | DefaultAutoUpdate =>
          if auto_update_now then (h, feeds_for_update ++ [feed]) else st
      | SpecificAutoUpdate =>
          let remaining_interval := dec32 (autoUpdateRemainingInterval f) in
          if remaining_interval <=? 0
          then (<[feed := setAutoUpdateRemainingInterval (autoUpdateInitialInterval f) f]> h,
                feeds_for_update ++ [feed])
          else (<[feed := setAutoUpdateRemainingInterval remaining_interval f]> h,
                feeds_for_update)
      end
  end.

Definition scheduleLoop (auto_update_now : bool) (feeds : list addr) (h : Heap)
  : Heap * list addr :=
  foldl (scheduleStep auto_update_now) (h, []) feeds.

(** Whether one pass includes the feed, read off its state before the pass. *)
Definition dueNow (auto_update_now : bool) (h : Heap) (feed : addr) : bool :=
  match h !! feed with
  | None => false
  | Some f =>
      match autoUpdateType f with
      | DontAutoUpdate => false
      | DefaultAutoUpdate => auto_update_now
      | SpecificAutoUpdate => dec32 (autoUpdateRemainingInterval f) <=? 0
      end
  end.

(** The state of a feed after one pass. *)
Definition afterPass (f : RootItem) : RootItem :=
  match autoUpdateType f with
  | SpecificAutoUpdate =>
      let r := dec32 (autoUpdateRemainingInterval f) in
      if r <=? 0 then setAutoUpdateRemainingInterval (autoUpdateInitialInterval f) f
      else setAutoUpdateRemainingInterval r f
  | _ => f
  end.

(** ** Outcomes of a call

    A call returns, or stops the process ([qFatal]), or dereferences a pointer
    that designates no live node (undefined behaviour in C++), or is still
    running when the fuel given to one of its loops is used up. *)
Inductive Outcome (A : Type) : Type :=
  | Returns (a : A)
  | Fatal
  | Undefined
  | Timeout.
Arguments Returns {A} a.
Arguments Fatal {A}.
Arguments Undefined {A}.
Arguments Timeout {A}.

#[global] Instance Outcome_ret : MRet Outcome := fun A a => Returns a.
#[global] Instance Outcome_bind : MBind Outcome := fun A B f x =>
  match x with
  | Returns a => f a
  | Fatal => Fatal
  | Undefined => Undefined
  | Timeout => Timeout
  end.

(** [*p] for an item pointer. *)
Definition deref (h : Heap) (a : addr) : Outcome RootItem :=
  match h !! a with
  | Some it => Returns it
  | None => Undefined
  end.

#[global] Instance Outcome_fmap : FMap Outcome := fun A B f x =>
  match x with
  | Returns a => Returns (f a)
  | Fatal => Fatal
  | Undefined => Undefined
  | Timeout => Timeout
  end.

(** A loop whose body may fail to return. *)
Fixpoint foldOutcome {A B} (f : A -> B -> Outcome A) (a : A) (l : list B) : Outcome A :=
  match l with
  | [] => mret a
  | x :: r => a' ← f a x; foldOutcome f a' r
  end.

(** The value returned, or [d] when the call did not return. *)
Definition returned {A} (d : A) (o : Outcome A) : A :=
  match o with
  | Returns a => a
  | _ => d
  end.

(** ** Child lists

    Modelled from the spec: RootItem::appendChild, RootItem::removeChild,
    RootItem::clearChildren, RootItem::child and the destructor of RootItem
    (class RootItem is not among the sources).  appendChild adds to the end of
    the child sequence and sets the back-reference; removeChild removes by
    identity and neither frees nor persists; destroying a node destroys its
    subtree. *)
Definition appendChild (p c : addr) (h : Heap) : Outcome Heap :=
  pi ← deref h p;
  let h1 := <[p := setChildItems (childItems pi ++ [c]) pi]> h in
  ci ← deref h1 c;
  mret (<[c := setParent (Some p) ci]> h1).

(** [QList::removeOne]. *)
Fixpoint removeOne (c : addr) (l : list addr) : list addr :=
  match l with
  | [] => []
  | x :: r => if decide (x = c) then r else x :: removeOne c r
  end.

Definition removeChild (p c : addr) (h : Heap) : Outcome Heap :=
  pi ← deref h p;
  mret (<[p := setChildItems (removeOne c (childItems pi)) pi]> h).

Definition clearChildren (p : addr) (h : Heap) : Outcome Heap :=
  pi ← deref h p;
  mret (<[p := setChildItems [] pi]> h).

(** [delete item]: the children are destroyed first, then the node. *)
Fixpoint destroy (fuel : nat) (a : addr) (h : Heap) : Heap :=
  match fuel with
  | O => h
  | S n =>
      match h !! a with
      | None => h
      | Some it => delete a (foldr (destroy n) h (childItems it))
      end
  end.

Definition deleteItem (a : addr) (h : Heap) : Heap := destroy (size h) a h.

(** [qDeleteAll]. *)
Definition qDeleteAll (l : list addr) (h : Heap) : Heap :=
  foldl (fun h a => deleteItem a h) h l.

(** [RootItem::child(kind, title)]: the first child of that kind and title. *)
Definition isChild (h : Heap) (k : Kind) (t : string) (c : addr) : bool :=
  match h !! c with
  | Some ci => bool_decide (kind ci = k) && bool_decide (title ci = t)
  | None => false
  end.

Definition child (h : Heap) (p : RootItem) (k : Kind) (t : string) : option addr :=
  head (filter (fun c => isChild h k t c = true) (childItems p)).

(** [new T(...)]: the node is placed at an address not in use. *)
Definition alloc (it : RootItem) (h : Heap) : addr * Heap :=
  let a := fresh (dom h) in (a, <[a := it]> h).

(** ** The persistent store

    StandardCategory::addItself, StandardFeed::addItself and
    RootItem::removeItself are not among the sources: the store is a
    collaborator.  Each call reads the item (and, for an addition, its parent)
    and answers with success or failure and the store it leaves behind. *)
Class Persistence := {
  Store : Type;
  addItself : Store -> Heap -> addr -> addr -> bool * Store;
  removeItself : Store -> Heap -> addr -> bool * Store
}.

(** What the attached views are told, in order. *)
Inductive Signal :=
  | BeginRemoveRows (parent_item : addr) (first last : Z)
  | EndRemoveRows
  | BeginInsertRows (parent_item : addr) (first last : Z)
  | EndInsertRows.

(** [FeedsModel]: the memory of item nodes, the two distinguished nodes, the
    store and the signals emitted so far, each with the memory as the
    receiving view finds it. *)
Record FeedsModel `{Persistence} := mkFeedsModel {
  items : Heap;
  m_rootItem : addr;
  m_recycleBin : addr;
  store : Store;
  signals : list (Signal * Heap)
}.

Section FeedsModelOperations.
Context `{Persistence}.

Definition setItems (h : Heap) (m : FeedsModel) : FeedsModel :=
  mkFeedsModel _ h (m_rootItem m) (m_recycleBin m) (store m) (signals m).

Definition setStore (s : Store) (m : FeedsModel) : FeedsModel :=
  mkFeedsModel _ (items m) (m_rootItem m) (m_recycleBin m) s (signals m).

(** A signal reaches the views while the memory is [items m]. *)
Definition emit (s : Signal) (m : FeedsModel) : FeedsModel :=
  mkFeedsModel _ (items m) (m_rootItem m) (m_recycleBin m) (store m)
               (signals m ++ [(s, items m)]).

(** [QModelIndex] of the feeds model: invalid, or a row with the node it
    points to (indexes of foreign models are left out). *)
Inductive QModelIndex := InvalidIndex | ItemIndex (row : Z) (internalPointer : addr).

(** [FeedsModel::itemForIndex]. *)
Definition itemForIndex (m : FeedsModel) (index : QModelIndex) : addr :=
  match index with
  | ItemIndex _ p => p
  | InvalidIndex => m_rootItem m
  end.

(** [QModelIndex] with its column, as the model creates it through
    [createIndex]; [QModelIndex] above keeps of it the row and the item. *)
Inductive ModelIndex := InvalidModelIndex | createIndex (row column : Z) (internalPointer : addr).

Definition forgetColumn (index : ModelIndex) : QModelIndex :=
  match index with
  | InvalidModelIndex => InvalidIndex
  | createIndex row _ p => ItemIndex row p
  end.

(** [QModelIndex::column]: -1 for the invalid index. *)
Definition column (index : ModelIndex) : Z :=
  match index with
  | InvalidModelIndex => -1
  | createIndex _ column _ => column
  end.

(** The number of columns of the feed list.  [FEEDS_VIEW_COLUMN_COUNT] is of
    definitions.h, which is not among the sources; the constructor of
    FeedsModel sets the tool tips of two columns, the titles and the counts,
    which headerData and reloadChangedLayout address as
    [FDS_MODEL_TITLE_INDEX] and [FDS_MODEL_COUNTS_INDEX]. *)
Definition FEEDS_VIEW_COLUMN_COUNT : Z := 2.

(** [FeedsModel::columnCount]. *)
Definition feedsColumnCount (parent_index : ModelIndex) : Z := FEEDS_VIEW_COLUMN_COUNT.

(** [FeedsModel::rowCount]. *)
Definition feedsRowCount (m : FeedsModel) (parent_index : ModelIndex) : Outcome Z :=
  if 0 <? column parent_index then mret 0
  else
    it ← deref (items m) (itemForIndex m (forgetColumn parent_index));
    mret (Z.of_nat (length (childItems it))).

(** [QAbstractItemModel::hasIndex], which asks the model for its row and
    column counts. *)
Definition hasIndex (m : FeedsModel) (row column : Z) (parent_index : ModelIndex)
  : Outcome bool :=
  if (row <? 0) || (column <? 0) then mret false
  else
    rows ← feedsRowCount m parent_index;
    mret ((row <? rows) && (column <? feedsColumnCount parent_index)).

(** [FeedsModel::index].  [RootItem::child(row)] is the child at that
    position, and no child when there is none (class RootItem is not among
    the sources); the row is within the child list whenever hasIndex holds. *)
Definition feedsIndex (m : FeedsModel) (row column : Z) (parent_index : ModelIndex)
  : Outcome ModelIndex :=
  hasIndex m row column parent_index ≫= fun has : bool =>
  if negb has then mret InvalidModelIndex
  else
    parent_item ← deref (items m) (itemForIndex m (forgetColumn parent_index));
    match childItems parent_item !! Z.to_nat row with
    | Some child_item => mret (createIndex row column child_item)
    | None => mret InvalidModelIndex
    end.

(** [QList::indexOf]. *)
Fixpoint indexOf (c : addr) (l : list addr) : Z :=
  match l with
  | [] => -1
  | x :: r => if decide (x = c) then 0
              else let i := indexOf c r in if i <? 0 then -1 else i + 1
  end.

(** Modelled from the spec: RootItem::row (class RootItem is not among the
    sources), the index of the node among the children of its parent; a node
    without parent is at row 0. *)
Definition row (h : Heap) (item : RootItem) (a : addr) : Outcome Z :=
  match parent item with
  | None => mret 0
  | Some p => pi ← deref h p; mret (indexOf a (childItems pi))
  end.

(** [FeedsModel::parent], which looks at the item of the index only. *)
Definition parentIndex (m : FeedsModel) (child_index : QModelIndex) : Outcome ModelIndex :=
  match child_index with
  | InvalidIndex => mret InvalidModelIndex
  | ItemIndex _ _ =>
      child_item ← deref (items m) (itemForIndex m child_index);
      match parent child_item with
      | None => Undefined
      | Some parent_item =>
          if decide (parent_item = m_rootItem m) then mret InvalidModelIndex
          else
            pi ← deref (items m) parent_item;
            r ← row (items m) pi parent_item;
            mret (createIndex r 0 parent_item)
      end
  end.

(** The first loop of [FeedsModel::indexForItem]: the items from [item] up to
    the first of kind Root are pushed on the stack [chain], whose top is the
    head of the list. *)
Fixpoint chainToRoot (fuel : nat) (h : Heap) (item : addr) (chain : list addr)
  : Outcome (list addr) :=
  match fuel with
  | O => Timeout
  | S n =>
      it ← deref h item;
      if decide (kind it = Root) then mret chain
      else
        match parent it with
        | None => Undefined
        | Some p => chainToRoot n h p (item :: chain)
        end
  end.

(** Body of its second loop, for the item popped from the stack. *)
Definition descend (m : FeedsModel) (target_index : ModelIndex) (parent_item : addr)
  : Outcome ModelIndex :=
  it ← deref (items m) parent_item;
  match parent it with
  | None => Undefined
  | Some p =>
      pi ← deref (items m) p;
      feedsIndex m (indexOf parent_item (childItems pi)) 0 target_index
  end.

(** [FeedsModel::indexForItem] with bounded loops; [None] is the null
    pointer.  The fuel bounds the walk up to the root and the depth of the
    calls of the function by itself. *)
Fixpoint indexForItemWithin (fuel : nat) (m : FeedsModel) (item : option addr)
  : Outcome ModelIndex :=
  match fuel with
  | O => Timeout
  | S n =>
      match item with
      | None => mret InvalidModelIndex
      | Some item =>
          it ← deref (items m) item;
          if decide (kind it = Root) then mret InvalidModelIndex
          else
            chain ← chainToRoot n (items m) item [];
            target_index ← indexForItemWithin n m (Some (m_rootItem m));
            foldOutcome (descend m) target_index chain
      end
  end.

(** [FeedsModel::indexForItem].  A walk up to the root that ends passes no
    item twice, so that it takes at most as many steps as the memory holds
    items, and one more to find out that a pointer leads nowhere. *)
Definition indexForItem (m : FeedsModel) (item : option addr) : Outcome ModelIndex :=
  indexForItemWithin (2 + size (items m)) m item.

(** [FeedsModel::removeItem].  The views are told the item for which the
    parent index stands. *)
Definition removeItem (index : QModelIndex) (m : FeedsModel) : Outcome (bool * FeedsModel) :=
  match index with
  | ItemIndex row _ =>
      parent_index ← parentIndex m index;
      let deleting_item := itemForIndex m index in
      it ← deref (items m) deleting_item;
      let parent_item := parent it in
      let '(removed, st) := removeItself (store m) (items m) deleting_item in
      let m := setStore st m in
      if removed then
        match parent_item with
        | None => Undefined
        | Some parent_item =>
            let m := emit (BeginRemoveRows (itemForIndex m (forgetColumn parent_index))
                                           row row) m in
            h ← removeChild parent_item deleting_item (items m);
            let m := emit EndRemoveRows (setItems h m) in
            mret (true, setItems (deleteItem deleting_item (items m)) m)
        end
      else mret (false, m)
  | InvalidIndex => mret (false, m)
  end.

(** [FeedsModel::addCategory]. *)
Definition addCategory (category parent_item : addr) (m : FeedsModel)
  : Outcome (bool * FeedsModel) :=
  parent_index ← indexForItem m (Some parent_item);
  pi ← deref (items m) parent_item;
  let '(result, st) := addItself (store m) (items m) category parent_item in
  let m := setStore st m in
  if result then
    let count := Z.of_nat (length (childItems pi)) in
    let m := emit (BeginInsertRows (itemForIndex m (forgetColumn parent_index))
                                   count count) m in
    h ← appendChild parent_item category (items m);
    let m := emit EndInsertRows (setItems h m) in
    mret (true, m)
  else mret (false, setItems (deleteItem category (items m)) m).

(** [FeedsModel::addFeed]. *)
Definition addFeed (feed parent_item : addr) (m : FeedsModel)
  : Outcome (bool * FeedsModel) :=
  parent_index ← indexForItem m (Some parent_item);
  pi ← deref (items m) parent_item;
  let '(result, st) := addItself (store m) (items m) feed parent_item in
  let m := setStore st m in
  if result then
    let count := Z.of_nat (length (childItems pi)) in
    let m := emit (BeginInsertRows (itemForIndex m (forgetColumn parent_index))
                                   count count) m in
    h ← appendChild parent_item feed (items m);
    let m := emit EndInsertRows (setItems h m) in
    mret (true, m)
  else mret (false, setItems (deleteItem feed (items m)) m).

(** [FeedsModel::reassignNodeToNewParent]. *)
Definition reassignNodeToNewParent (original_node new_parent : addr) (m : FeedsModel)
  : Outcome FeedsModel :=
  n ← deref (items m) original_node;
  let original_parent := parent n in
  if decide (original_parent = Some new_parent) then mret m
  else
    match original_parent with
    | None => Undefined
    | Some original_parent =>
        opi ← deref (items m) original_parent;
        npi ← deref (items m) new_parent;
        let original_index_of_feed := indexOf original_node (childItems opi) in
        let new_index_of_feed := Z.of_nat (length (childItems npi)) in
        original_parent_index ← indexForItem m (Some original_parent);
        let m := emit (BeginRemoveRows
                         (itemForIndex m (forgetColumn original_parent_index))
                         original_index_of_feed original_index_of_feed) m in
        h ← removeChild original_parent original_node (items m);
        let m := emit EndRemoveRows (setItems h m) in
        new_parent_index ← indexForItem m (Some new_parent);
        let m := emit (BeginInsertRows
                         (itemForIndex m (forgetColumn new_parent_index))
                         new_index_of_feed new_index_of_feed) m in
        h ← appendChild new_parent original_node (items m);
        mret (emit EndInsertRows (setItems h m))
    end.

(** [FeedsModel::allFeeds]. *)
Definition allFeeds (m : FeedsModel) : list addr := feedsForItem (items m) (m_rootItem m).

(** [FeedsModel::feedsForScheduledUpdate]: the list returned and the model
    with its feeds updated. *)
Definition feedsForScheduledUpdate (auto_update_now : bool) (m : FeedsModel)
  : list addr * FeedsModel :=
  let '(h, feeds_for_update) := scheduleLoop auto_update_now (allFeeds m) (items m) in
  (feeds_for_update, setItems h m).

End FeedsModelOperations.

(** ** Loading the tree from the database *)

(** Modelled from the spec: the sentinel id of "no parent category"
    (definitions.h is not among the sources); the root item carries it. *)
Definition NO_PARENT_CATEGORY : Z := -1.

(** A row of table Categories: the columns the model reads. *)
Record CategoryRow := mkCategoryRow {
  cat_parent_id : Z;
  cat_id : Z;
  cat_title : string
}.

(** [StandardFeed::Type], the four formats recognised by the loader. *)
Inductive StandardFeedType := Atom10 | Rdf | Rss0X | Rss2X.

(** A row of table Feeds.  [feed_type] is [None] for a discriminant that is
    none of the four formats. *)
Record FeedRow := mkFeedRow {
  feed_category : Z;
  feed_type : option StandardFeedType;
  feed_id : Z;
  feed_title : string;
  feed_update_type : AutoUpdateType;
  feed_update_interval : Z
}.

(** The answers of the two SELECT queries; [None] when the query fails. *)
Record Database := mkDatabase {
  query_categories : option (list CategoryRow);
  query_feeds : option (list FeedRow)
}.

(** [new StandardCategory(record)] and [new StandardFeed(record)]: a node
    without parent and children. *)
Definition StandardCategory (row : CategoryRow) : RootItem :=
  mkItem Cattegory (cat_id row) (cat_title row) [] None DontAutoUpdate 0 0.

Definition StandardFeed (row : FeedRow) : RootItem :=
  mkItem Feeed (feed_id row) (feed_title row) [] None
         (feed_update_type row) (feed_update_interval row) (feed_update_interval row).

(** The [while (query.next())] loops: one node per row, paired with the id of
    its parent. *)
Definition loadCategoryRow (st : list (Z * addr) * Heap) (row : CategoryRow)
  : list (Z * addr) * Heap :=
  let '(categories, h) := st in
  let '(a, h) := alloc (StandardCategory row) h in
  (categories ++ [(cat_parent_id row, a)], h).

Definition loadFeedRow (st : list (Z * addr) * Heap) (row : FeedRow)
  : list (Z * addr) * Heap :=
  let '(feeds, h) := st in
  match feed_type row with
  | Some _ =>
      let '(a, h) := alloc (StandardFeed row) h in
      (feeds ++ [(feed_category row, a)], h)
  | None => st
  end.

(** One run of the [for] loop of [FeedsModel::assembleCategories]: every
    category whose parent id is among the assignments is attached, recorded as
    a possible parent and removed from the list; the others are kept. *)
Fixpoint assemblePass (categories : list (Z * addr)) (assignments : gmap Z positive) (h : Heap)
  : Outcome (list (Z * addr) * gmap Z positive * Heap) :=
  match categories with
  | [] => mret ([], assignments, h)
  | c :: rest =>
      match assignments !! c.1 with
      | Some p =>
          h1 ← appendChild p c.2 h;
          ci ← deref h1 c.2;
          assemblePass rest (<[id ci := c.2]> assignments) h1
      | None =>
          '(kept, assignments', h') ← assemblePass rest assignments h;
          mret (c :: kept, assignments', h')
      end
  end.

(** The [while (!categories.isEmpty())] loop around it. *)
Fixpoint assembleLoop (fuel : nat) (categories : list (Z * addr))
    (assignments : gmap Z positive) (h : Heap) : Outcome Heap :=
  match categories with
  | [] => mret h
  | _ :: _ =>
      match fuel with
      | O => Timeout
      | S n =>
          '(kept, assignments', h') ← assemblePass categories assignments h;
          assembleLoop n kept assignments' h'
      end
  end.

(** [FeedsModel::assembleCategories]. *)
Definition assembleCategories (fuel : nat) (root : addr) (categories : list (Z * addr))
    (h : Heap) : Outcome Heap :=
  assembleLoop fuel categories {[NO_PARENT_CATEGORY := root]} h.

(** The work-list loop of [FeedsModel::categoriesForItem]. *)
Fixpoint categoriesLoop (fuel : nat) (parents : list addr) (categories : gmap Z positive)
    (h : Heap) : Outcome (gmap Z positive) :=
  match parents with
  | [] => mret categories
  | item :: rest =>
      match fuel with
      | O => Timeout
      | S n =>
          it ← deref h item;
          if decide (kind it = Cattegory) then
            let categories :=
              match categories !! id it with
              | Some _ => categories
              | None => <[id it := item]> categories
              end in
            categoriesLoop n (rest ++ childItems it) categories h
          else categoriesLoop n rest categories h
      end
  end.

(** [FeedsModel::categoriesForItem]. *)
Definition categoriesForItem (fuel : nat) (h : Heap) (root : addr)
  : Outcome (gmap Z positive) :=
  r ← deref h root;
  categoriesLoop fuel (childItems r) ∅ h.

(** Body of the [foreach] of [FeedsModel::assembleFeeds]; a feed whose category
    is unknown is loose and skipped. *)
Definition assembleFeed (root : addr) (categories : gmap Z positive) (h : Heap)
    (feed : Z * addr) : Outcome Heap :=
  if decide (feed.1 = NO_PARENT_CATEGORY) then appendChild root feed.2 h
  else
    match categories !! feed.1 with
    | Some c => appendChild c feed.2 h
    | None => mret h
    end.

(** [FeedsModel::assembleFeeds]. *)
Definition assembleFeeds (fuel : nat) (root : addr) (feeds : list (Z * addr)) (h : Heap)
  : Outcome Heap :=
  categories ← categoriesForItem fuel h root;
  foldOutcome (assembleFeed root categories) h feeds.

Definition queryOrFatal {A} (q : option A) : Outcome A :=
  match q with
  | Some rows => mret rows
  | None => Fatal
  end.

Section Loading.
Context `{Persistence}.

(** [FeedsModel::loadFromDatabase]. *)
Definition loadFromDatabase (fuel : nat) (db : Database) (m : FeedsModel)
  : Outcome FeedsModel :=
  r ← deref (items m) (m_rootItem m);
  let h := qDeleteAll (childItems r) (items m) in
  h ← clearChildren (m_rootItem m) h;
  category_rows ← queryOrFatal (query_categories db);
  let '(categories, h) := foldl loadCategoryRow ([], h) category_rows in
  feed_rows ← queryOrFatal (query_feeds db);
  let '(feeds, h) := foldl loadFeedRow ([], h) feed_rows in
  h ← assembleCategories fuel (m_rootItem m) categories h;
  h ← assembleFeeds fuel (m_rootItem m) feeds h;
  h ← appendChild (m_rootItem m) (m_recycleBin m) h;
  mret (setItems h m).

(** The constructor of [FeedsModel]: a recycle bin, a root item, and the tree
    loaded from the database. *)
Definition newFeedsModel (fuel : nat) (db : Database) (st : Store) : Outcome FeedsModel :=
  let '(bin, h) := alloc (mkItem Bin 0 "Recycle bin" [] None DontAutoUpdate 0 0) ∅ in
  let '(root, h) :=
    alloc (mkItem Root NO_PARENT_CATEGORY "Root" [] None DontAutoUpdate 0 0) h in
  loadFromDatabase fuel db (mkFeedsModel _ h root bin st []).

End Loading.

(** ** A store with scripted answers

    A store that answers each persistence request with the next verdict of a
    given list, and with failure once the list is used up.  It stands for the
    database in the examples. *)
Definition scriptedAnswer (st : list bool) : bool * list bool :=
  match st with
  | b :: r => (b, r)
  | [] => (false, [])
  end.

Definition scriptedStore : Persistence :=
  {| Store := list bool;
     addItself := fun st _ _ _ => scriptedAnswer st;
     removeItself := fun st _ _ => scriptedAnswer st |}.

Definition rootNode (children : list addr) : RootItem :=
  mkItem Root (-1) "Root" children None DontAutoUpdate 0 0.

Definition binNode (p : option addr) : RootItem :=
  mkItem Bin 0 "Recycle bin" [] p DontAutoUpdate 0 0.

Definition categoryNode (i : Z) (t : string) (children : list addr) (p : option addr)
  : RootItem :=
  mkItem Cattegory i t children p DontAutoUpdate 0 0.

Definition feedNode (i : Z) (t : string) (p : option addr) (mode : AutoUpdateType)
    (initial remaining : Z) : RootItem :=
  mkItem Feeed i t [] p mode initial remaining.

(** Root -> [Tech -> [Blog (every 3 ticks)], News (global interval),
    Quiet (never), RecycleBin]. *)
Definition sampleItems : Heap :=
  <[1%positive := rootNode [3; 5; 6; 2]%positive]>
  (<[2%positive := binNode (Some 1%positive)]>
  (<[3%positive := categoryNode 10 "Tech" [4%positive] (Some 1%positive)]>
  (<[4%positive := feedNode 20 "Blog" (Some 3%positive) SpecificAutoUpdate 3 3]>
  (<[5%positive := feedNode 21 "News" (Some 1%positive) DefaultAutoUpdate 0 0]>
  (<[6%positive := feedNode 22 "Quiet" (Some 1%positive) DontAutoUpdate 0 0]> ∅))))).

Definition sampleModel (answers : list bool) : @FeedsModel scriptedStore :=
  @mkFeedsModel scriptedStore sampleItems 1%positive 2%positive answers [].


(** ** Predicates used in the statements and proofs *)

(** Two nodes that differ at most in their links. *)
Definition sameNode (x y : RootItem) : Prop :=
  kind x = kind y /\ id x = id y /\ title x = title y
  /\ autoUpdateType x = autoUpdateType y
  /\ autoUpdateInitialInterval x = autoUpdateInitialInterval y
  /\ autoUpdateRemainingInterval x = autoUpdateRemainingInterval y.

(** Two heaps with the same live nodes, up to links. *)
Definition sameNodes (h h' : Heap) : Prop :=
  forall a, option_Forall2 sameNode (h !! a) (h' !! a).

(** The loop state of assembleCategories while the parent id [target] is the
    id of no category of the list: the live nodes are those of [h0], [target]
    is not a key of the assignments, and the assignments point to live nodes. *)
Definition passInv (h0 : Heap) (target : Z) (assignments : gmap Z positive) (h : Heap)
  : Prop :=
  sameNodes h0 h
  /\ assignments !! target = None
  /\ (forall k p, assignments !! k = Some p -> is_Some (h0 !! p)).

(** [path] leads from the root down to [item]: the root is of kind Root, and
    every item of the path is live, is not of kind Root, points back to the
    item before it (the first one to the root) and is among the children of
    that item. *)
Inductive Linked (h : Heap) (root : addr) : list addr -> addr -> Prop :=
  | linked_root r :
      h !! root = Some r -> kind r = Root -> Linked h root [] root
  | linked_child path p pi a it :
      Linked h root path p -> h !! p = Some pi -> h !! a = Some it ->
      kind it <> Root -> parent it = Some p -> a ∈ childItems pi ->
      Linked h root (path ++ [a]) a.

Section MutationOutcomes.
Context `{Persistence}.


(** What a call of addCategory or addFeed that returned [b] has done.  [b] is
    the verdict of the store.  On true the node is the last child of the
    parent and points back to it, nothing else moved, and the two signals were
    sent with the memory as before and as after, the first for the item that
    the index computed for the parent stands for.  On false the candidate was
    destroyed, every node outside the candidate is as before and no signal was
    sent. *)
Definition InsertOutcome (node parent_item : addr) (m : FeedsModel) (b : bool)
    (m' : FeedsModel) : Prop :=
  b = (addItself (store m) (items m) node parent_item).1
  /\ (b = true ->
      exists pi ci pi' ci' parent_index,
        indexForItem m (Some parent_item) = Returns parent_index
        /\ items m !! parent_item = Some pi /\ items m !! node = Some ci
        /\ items m' !! parent_item = Some pi'
        /\ childItems pi' = childItems pi ++ [node]
        /\ last (childItems pi') = Some node
        /\ items m' !! node = Some ci' /\ parent ci' = Some parent_item
        /\ (forall a, a <> parent_item -> a <> node -> items m' !! a = items m !! a)
        /\ signals m'
           = signals m ++ [(BeginInsertRows (itemForIndex m (forgetColumn parent_index))
                                            (Z.of_nat (length (childItems pi)))
                                            (Z.of_nat (length (childItems pi))), items m);
                           (EndInsertRows, items m')])
  /\ (b = false ->
      items m' = deleteItem node (items m)
      /\ items m' !! node = None
      /\ (forall a, a <> node -> a ∉ getRecursiveChildren (items m) node ->
                    items m' !! a = items m !! a)
      /\ signals m' = signals m).

End MutationOutcomes.

(** ** Sequences of structural mutations *)

(** One call of the mutating interface.  An addition is the call site
    [addCategory(new StandardCategory(...), parent)]: the node is created,
    then handed over. *)
Inductive Mutation :=
  | AddCategory (row : CategoryRow) (parent_item : addr)
  | AddFeed (row : FeedRow) (parent_item : addr)
  | RemoveItem (index : QModelIndex)
  | Reassign (original_node new_parent : addr).

Section Mutations.
Context `{Persistence}.

Definition mutate (op : Mutation) (m : FeedsModel) : Outcome (bool * FeedsModel) :=
  match op with
  | AddCategory row parent_item =>
      let '(category, h) := alloc (StandardCategory row) (items m) in
      addCategory category parent_item (setItems h m)
  | AddFeed row parent_item =>
      let '(feed, h) := alloc (StandardFeed row) (items m) in
      addFeed feed parent_item (setItems h m)
  | RemoveItem index => removeItem index m
  | Reassign original_node new_parent =>
      m' ← reassignNodeToNewParent original_node new_parent m;
      mret (true, m')
  end.

(** The mutations are run in order for as long as each reports success. *)
Fixpoint mutateAll (ops : list Mutation) (m : FeedsModel) : Outcome (bool * FeedsModel) :=
  match ops with
  | [] => mret (true, m)
  | op :: rest =>
      mutate op m ≫= fun r : bool * FeedsModel =>
        if r.1 then mutateAll rest r.2 else mret (false, r.2)
  end.

(** The recycle bin is the last child of the root. *)
Definition recycleBinIsLast (m : FeedsModel) : Prop :=
  exists r, items m !! m_rootItem m = Some r
            /\ last (childItems r) = Some (m_recycleBin m).

(** A mutation that places nothing directly under the root and neither
    removes nor moves the recycle bin. *)
Definition keepsClear (root bin : addr) (op : Mutation) : Prop :=
  match op with
  | AddCategory _ parent_item | AddFeed _ parent_item => parent_item <> root
  | RemoveItem index => forall row, index <> ItemIndex row bin
  | Reassign original_node new_parent => new_parent <> root /\ original_node <> bin
  end.

End Mutations.

(** The root is live, has no parent and is the child of no node. *)
Definition rootClean (root : addr) (h : Heap) : Prop :=
  (exists r, h !! root = Some r /\ parent r = None)
  /\ (forall a it, h !! a = Some it -> root ∉ childItems it).

(** The node at [a] once [c] has been appended to [p]. *)
Definition appended (p c a : addr) (it : RootItem) : RootItem :=
  let it := if decide (a = p) then setChildItems (childItems it ++ [c]) it else it in
  if decide (a = c) then setParent (Some p) it else it.

(** The node at [a] once [c] has been removed from the children of [p]. *)
Definition removed (p c a : addr) (it : RootItem) : RootItem :=
  if decide (a = p) then setChildItems (removeOne c (childItems it)) it else it.

(** The invariant behind the place of the recycle bin. *)
Definition binInv (root bin : addr) (h : Heap) : Prop :=
  rootClean root h /\ root <> bin
  /\ exists r, h !! root = Some r /\ last (childItems r) = Some bin.

(** Sample databases: no rows at all; one category "Tech" with one feed
    "Blog"; one category whose parent id 7 is the id of no category. *)
Definition emptyDb : Database := mkDatabase (Some []) (Some []).

Definition techDb : Database :=
  mkDatabase (Some [mkCategoryRow NO_PARENT_CATEGORY 10 "Tech"])
             (Some [mkFeedRow 10 (Some Rss2X) 20 "Blog" SpecificAutoUpdate 3]).

Definition orphanDb : Database :=
  mkDatabase (Some [mkCategoryRow 7 10 "Tech"]) (Some []).

(** ** Merging an imported tree *)

(** An item of the tree held by a FeedsImportExportModel.  The tree is the
    result of parsing a file and is only read by the merge: it is a value,
    with the check mark of each item ([isItemChecked]) stored at the item. *)
Inductive SourceItem :=
  SourceNode (source_kind : Kind) (source_id : Z) (source_title : string)
             (source_update : AutoUpdateType) (source_interval : Z)
             (isItemChecked : bool) (source_children : list SourceItem).

Definition source_kind (s : SourceItem) : Kind :=
  let 'SourceNode k _ _ _ _ _ _ := s in k.
Definition source_title (s : SourceItem) : string :=
  let 'SourceNode _ _ t _ _ _ _ := s in t.
Definition isItemChecked (s : SourceItem) : bool :=
  let 'SourceNode _ _ _ _ _ c _ := s in c.
Definition source_children (s : SourceItem) : list SourceItem :=
  let 'SourceNode _ _ _ _ _ _ l := s in l.

(** The copy constructors [new StandardCategory(source)], followed by
    [clearChildren()], and [new StandardFeed(source)] (a feed has no
    children): the payload of the source item in a node of its own. *)
Definition cloneOf (s : SourceItem) : RootItem :=
  let 'SourceNode k i t u n _ _ := s in mkItem k i t [] None u n n.

(** [FeedsImportExportModel]: its root item, null before a file is parsed. *)
Record FeedsImportExportModel := mkImportModel {
  rootItem : option SourceItem
}.

Definition invalidTreeMessage : string := "Invalid tree data.".
Definition partialFailureMessage : string :=
  "Import successfull, but some feeds/categories were not imported due to error.".
Definition completeSuccessMessage : string := "Import was completely successfull.".

Fixpoint sourceSize (s : SourceItem) : nat :=
  let 'SourceNode _ _ _ _ _ _ l := s in
  S ((fix sizes (l : list SourceItem) : nat :=
        match l with
        | [] => O
        | x :: r => sourceSize x + sizes r
        end) l)%nat.

Definition sourcesSize (l : list SourceItem) : nat :=
  foldr (fun s n => (sourceSize s + n)%nat) O l.

Section Merge.
Context `{Persistence}.

(** The variables of [FeedsModel::mergeModel] while it runs. *)
Record MergeState := mkMergeState {
  original_parents : list addr;
  new_parents : list SourceItem;
  some_feed_category_error : bool;
  merged : FeedsModel
}.

Definition pushParents (target : addr) (source : SourceItem) (s : MergeState) : MergeState :=
  mkMergeState (target :: original_parents s) (source :: new_parents s)
               (some_feed_category_error s) (merged s).

Definition raiseError (s : MergeState) : MergeState :=
  mkMergeState (original_parents s) (new_parents s) true (merged s).

Definition setMerged (m : FeedsModel) (s : MergeState) : MergeState :=
  mkMergeState (original_parents s) (new_parents s) (some_feed_category_error s) m.

(** Body of the [foreach] over the children of the source parent.  When
    addCategory returns false it has deleted [new_category]; the title that
    the search among the children of the target parent is given is then read
    through [new_category], as the source does. *)
Definition mergeChild (target_parent : addr) (s : MergeState) (source_item : SourceItem)
  : Outcome MergeState :=
  if negb (isItemChecked source_item) then mret s
  else
    match source_kind source_item with
    | Cattegory =>
        let '(new_category, h) := alloc (cloneOf source_item) (items (merged s)) in
        addCategory new_category target_parent (setItems h (merged s))
          ≫= fun r : bool * FeedsModel =>
        let s := setMerged r.2 s in
        if r.1 then mret (pushParents new_category source_item s)
        else
          nc ← deref (items r.2) new_category;
          tp ← deref (items r.2) target_parent;
          match child (items r.2) tp Cattegory (title nc) with
          | Some existing_category => mret (pushParents existing_category source_item s)
          | None => mret (raiseError s)
          end
    | Feeed =>
        let '(new_feed, h) := alloc (cloneOf source_item) (items (merged s)) in
        addFeed new_feed target_parent (setItems h (merged s))
          ≫= fun r : bool * FeedsModel =>
        let s := setMerged r.2 s in
        if r.1 then mret s else mret (raiseError s)
    | _ => mret s
    end.

(** The [while (!new_parents.isEmpty())] loop; the top of a stack is the head
    of the list. *)
Fixpoint mergeLoop (fuel : nat) (s : MergeState) : Outcome MergeState :=
  match new_parents s with
  | [] => mret s
  | source_parent :: new_rest =>
      match fuel with
      | O => Timeout
      | S n =>
          match original_parents s with
          | [] => Undefined
          | target_parent :: original_rest =>
              let s := mkMergeState original_rest new_rest (some_feed_category_error s)
                                    (merged s) in
              s ← foldOutcome (mergeChild target_parent) s (source_children source_parent);
              mergeLoop n s
          end
      end
  end.

(** What mergeModel hands back: its result, [output_message] and the model. *)
Record MergeResult := mkMergeResult {
  merge_result : bool;
  output_message : string;
  merge_model : FeedsModel
}.

(** [FeedsModel::mergeModel].  The loop is granted as many rounds as the
    source tree has items; it pops one of them in each round and pushes each
    at most once. *)
Definition mergeModel (model : option FeedsImportExportModel) (m : FeedsModel)
  : Outcome MergeResult :=
  match model ≫= rootItem with
  | None => mret (mkMergeResult false invalidTreeMessage m)
  | Some root =>
      s ← mergeLoop (sourceSize root) (mkMergeState [m_rootItem m] [root] false m);
      mret (mkMergeResult (negb (some_feed_category_error s))
                          (if some_feed_category_error s
                           then partialFailureMessage else completeSuccessMessage)
                          (merged s))
  end.

End Merge.

(** A source tree for the examples: a checked category "Tech" holding a
    checked feed "Planet", and an unchecked feed "Skipped". *)
Definition sampleSource : SourceItem :=
  SourceNode Root (-1) "Root" DontAutoUpdate 0 true
    [SourceNode Cattegory 1 "Tech" DontAutoUpdate 0 true
       [SourceNode Feeed 2 "Planet" DefaultAutoUpdate 0 true []];
     SourceNode Feeed 3 "Skipped" DefaultAutoUpdate 0 false []].

(** ** Bulk updates of the message table *)

(** The database connection as [FeedsModel::markFeedsRead] and
    [FeedsModel::markFeedsDeleted] use it ([QSqlDatabase] and [QSqlQuery] are
    Qt's): each call answers with success or failure and leaves the
    connection in a new state. *)
Class SqlDriver := {
  Connection : Type;
  transaction : Connection -> bool * Connection;
  prepare : Connection -> string -> bool * Connection;
  exec : Connection -> list (string * Z) -> bool * Connection;
  commit : Connection -> bool * Connection;
  rollback : Connection -> bool * Connection
}.

(** A call made on the connection, with its answer. *)
Inductive DbCall :=
  | CallTransaction (ok : bool)
  | CallPrepare (sql : string) (ok : bool)
  | CallExec (bound : list (string * Z)) (ok : bool)
  | CallCommit (ok : bool)
  | CallRollback (ok : bool).

(** [QStringList::join]. *)
Fixpoint join (sep : string) (l : list string) : string :=
  match l with
  | [] => ""
  | [x] => x
  | x :: r => x +:+ sep +:+ join sep r
  end.

(** [FeedsModel::textualFeedIds]. *)
Definition textualFeedIds (feeds : list RootItem) : list string :=
  map (fun feed => pretty (id feed)) feeds.

Section BulkUpdates.
Context `{SqlDriver}.

(** The connection and the calls made on it so far. *)
Record Session := mkSession {
  connection : Connection;
  calls : list DbCall
}.

Definition logged (c : bool -> DbCall) (r : bool * Connection) (s : Session)
  : bool * Session :=
  (r.1, mkSession r.2 (calls s ++ [c r.1])).

Definition db_transaction (s : Session) : bool * Session :=
  logged CallTransaction (transaction (connection s)) s.
Definition db_prepare (sql : string) (s : Session) : bool * Session :=
  logged (CallPrepare sql) (prepare (connection s) sql) s.
Definition db_exec (bound : list (string * Z)) (s : Session) : bool * Session :=
  logged (CallExec bound) (exec (connection s) bound) s.
Definition db_commit (s : Session) : bool * Session :=
  logged CallCommit (commit (connection s)) s.
Definition db_rollback (s : Session) : bool * Session :=
  logged CallRollback (rollback (connection s)) s.

(** [FeedsModel::markFeedsRead]. *)
Definition markFeedsRead (feeds : list RootItem) (read : Z) (s : Session) : bool * Session :=
  let '(started, s) := db_transaction s in
  if negb started then (false, s)
  else
    let '(prepared, s) :=
      db_prepare ("UPDATE Messages SET is_read = :read WHERE feed IN ("
                  +:+ join ", " (textualFeedIds feeds) +:+ ") AND is_deleted = 0;") s in
    if negb prepared then
      let '(_, s) := db_rollback s in (false, s)
    else
      let '(executed, s) := db_exec [(":read", read)] s in
      let s := if negb executed then (db_rollback s).2 else s in
      let '(committed, s) := db_commit s in
      if committed then (true, s) else db_rollback s.

(** [FeedsModel::markFeedsDeleted]. *)
Definition markFeedsDeleted (feeds : list RootItem) (deleted : Z) (read_only : bool)
    (s : Session) : bool * Session :=
  let '(started, s) := db_transaction s in
  if negb started then (false, s)
  else
    let sql :=
      if read_only
      then "UPDATE Messages SET is_deleted = :deleted WHERE feed IN ("
           +:+ join ", " (textualFeedIds feeds)
           +:+ ") AND is_deleted = 0 AND is_read = 1;"
      else "UPDATE Messages SET is_deleted = :deleted WHERE feed IN ("
           +:+ join ", " (textualFeedIds feeds) +:+ ") AND is_deleted = 0;" in
    let '(prepared, s) := db_prepare sql s in
    if negb prepared then
      let '(_, s) := db_rollback s in (false, s)
    else
      let '(executed, s) := db_exec [(":deleted", deleted)] s in
      let s := if negb executed then (db_rollback s).2 else s in
      let '(committed, s) := db_commit s in
      if committed then (true, s) else db_rollback s.

End BulkUpdates.

(** A connection whose answers are fixed in advance, one field per kind of
    call. *)
Record Answers := mkAnswers {
  transaction_ok : bool;
  prepare_ok : bool;
  exec_ok : bool;
  commit_ok : bool;
  rollback_ok : bool
}.

Definition scriptedDriver : SqlDriver :=
  {| Connection := Answers;
     transaction := fun c => (transaction_ok c, c);
     prepare := fun c _ => (prepare_ok c, c);
     exec := fun c _ => (exec_ok c, c);
     commit := fun c => (commit_ok c, c);
     rollback := fun c => (rollback_ok c, c) |}.

Definition scriptedSession (a : Answers) : @Session scriptedDriver :=
  @mkSession scriptedDriver a [].

(** The feed "Blog" of the examples. *)
Definition blogFeed : RootItem := feedNode 20 "Blog" (Some 3%positive) SpecificAutoUpdate 3 3.

(** * The message list model ([core/messagesmodel.cpp]) *)

(** ** Cells and records *)

(** [QVariant], as far as the message table needs it: no value, a number, a
    text. *)
Inductive QVariant := Invalid | IntValue (z : Z) | TextValue (s : string).

#[global] Instance QVariant_eq_dec : EqDecision QVariant.
Proof. solve_decision. Defined.

(** [QSqlRecord]: the values of one row, by column. *)
Abbreviation QSqlRecord := (list QVariant) (only parsing).

(** The columns of the message query, in the order in which
    [MessagesModel::setupHeaderData] names them (definitions.h is not among
    the sources). *)
Definition MSG_DB_ID_INDEX : Z := 0.
Definition MSG_DB_READ_INDEX : Z := 1.
Definition MSG_DB_DELETED_INDEX : Z := 2.
Definition MSG_DB_IMPORTANT_INDEX : Z := 3.
Definition MSG_DB_AUTHOR_INDEX : Z := 7.
Definition MSG_DB_DCREATED_INDEX : Z := 8.
Definition MSG_DB_PDELETED_INDEX : Z := 10.
Definition MSG_DB_CUSTOM_HASH_INDEX : Z := 14.
Definition MSG_DB_FEED_CUSTOM_ID_INDEX : Z := 15.

(** The number of columns of the query. *)
Definition columnCount : Z := 16.

(** [RootItem::Importance] and [RootItem::ReadStatus], as stored. *)
Definition NotImportant : Z := 0.
Definition Important : Z := 1.
Definition Unread : Z := 0.
Definition Read : Z := 1.

(** [QSqlRecord::value(i)] and [QSqlRecord::setValue(i, v)]: a column out of
    range has no value and cannot be set. *)
Definition value (rec : QSqlRecord) (i : Z) : QVariant :=
  if i <? 0 then Invalid else default Invalid (rec !! Z.to_nat i).

Definition setValue (i : Z) (v : QVariant) (rec : QSqlRecord) : QSqlRecord :=
  if i <? 0 then rec else <[Z.to_nat i := v]> rec.

(** The record of the query without values. *)
Definition blankRecord : QSqlRecord := replicate (Z.to_nat columnCount) Invalid.

(** [QModelIndex] of the message model: invalid (row and column -1), or a
    cell. *)
Inductive MessageIndex := NoIndex | Cell (row column : Z).

Definition index_row (idx : MessageIndex) : Z :=
  match idx with NoIndex => -1 | Cell r _ => r end.
Definition index_column (idx : MessageIndex) : Z :=
  match idx with NoIndex => -1 | Cell _ c => c end.

(** The roles under which [MessagesModel::data] is asked. *)
Inductive Role := DisplayRole | EditRole | FontRole | ForegroundRole | DecorationRole
                | OtherRole.

Inductive Icon := FavoriteIcon | ReadIcon | UnreadIcon.

(** What [MessagesModel::data] answers: a value, one of the four fonts, the
    colour blue, an icon. *)
Inductive Answer :=
  | Plain (v : QVariant)
  | Font (bold striked : bool)
  | Blue
  | Pixmap (i : Icon).

Inductive MessageHighlighter := NoHighlighting | HighlightUnread | HighlightImportant.

(** ** The owning service and the database *)

(** A call of a hook of the service root, with its arguments but the item. *)
Inductive HookCall :=
  | SetMessagesRead (messages : list QSqlRecord) (read : Z)
  | SwitchMessageImportance (changes : list (QSqlRecord * Z))
  | MessagesDelete (messages : list QSqlRecord)
  | MessagesRestoredFromBin (messages : list QSqlRecord).

(** A call of [DatabaseQueries] made by the model. *)
Inductive DbQuery :=
  | MarkMessagesReadUnread (ids : list string) (read : Z)
  | MarkMessageImportant (message_id : Z) (importance : Z)
  | SwitchMessagesImportance (ids : list string)
  | DeleteOrRestoreMessagesToFromBin (ids : list string) (deleted : bool)
  | PermanentlyDeleteMessages (ids : list string).

(** The collaborators of the message model, none of which is among the
    sources: the service root of the selected item with its before and after
    hooks, [DatabaseQueries], the query of [MessagesModelSqlLayer], and Qt's
    conversions of texts and dates.  [World] is the state they share: the
    database and the services. *)
Class MessageServices := {
  World : Type;
  onBefore : World -> RootItem -> HookCall -> bool * World;
  onAfter : World -> RootItem -> HookCall -> bool * World;
  runQuery : World -> DbQuery -> bool * World;
  loadMessagesForItem : World -> RootItem -> option string;
  selectMessages : World -> string -> list QSqlRecord;
  DEFAULT_SQL_MESSAGES_FILTER : string;
  textToInt : string -> Z;
  textToBool : string -> bool;
  formatDateTime : string -> QVariant -> string
}.

(** What the model does that its surroundings can see, in order.
    [DataChanged] carries the rows of the two indexes that the signal
    dataChanged is given, -1 for the invalid index. *)
Inductive MessageEvent :=
  | CacheWrite (idx : MessageIndex) (v : QVariant)
  | Before (call : HookCall) (verdict : bool)
  | Query (q : DbQuery) (ok : bool)
  | After (call : HookCall) (verdict : bool)
  | LayoutChanged
  | DataChanged (first_row last_row : Z)
  | GuiMessage.

Section MessagesModelDefinitions.
Context `{MessageServices}.

(** [QVariant::toInt], [toBool] and [toString]. *)
Definition toInt (v : QVariant) : Z :=
  match v with
  | Invalid => 0
  | IntValue z => z
  | TextValue s => textToInt s
  end.

Definition toBool (v : QVariant) : bool :=
  match v with
  | Invalid => false
  | IntValue z => negb (z =? 0)
  | TextValue s => textToBool s
  end.

Definition toString (v : QVariant) : string :=
  match v with
  | Invalid => ""
  | IntValue z => pretty z
  | TextValue s => s
  end.

(** [MessagesModel]: the cache of pending edits ([MessagesModelCache], a hash
    from row to record), the rows fetched by the current query, the filter,
    the selected item, the state of the collaborators, and the events so
    far. *)
Record MessagesModel := mkMessagesModel {
  m_cache : gmap Z (list QVariant);
  m_rows : list (list QVariant);
  m_filter : string;
  m_selectedItem : option RootItem;
  m_messageHighlighter : MessageHighlighter;
  m_customDateFormat : string;
  m_db : World;
  events : list MessageEvent
}.

Definition setCache (c : gmap Z (list QVariant)) (m : MessagesModel) : MessagesModel :=
  mkMessagesModel c (m_rows m) (m_filter m) (m_selectedItem m) (m_messageHighlighter m)
                  (m_customDateFormat m) (m_db m) (events m).

Definition setWorld (w : World) (m : MessagesModel) : MessagesModel :=
  mkMessagesModel (m_cache m) (m_rows m) (m_filter m) (m_selectedItem m)
                  (m_messageHighlighter m) (m_customDateFormat m) w (events m).

Definition logEvent (e : MessageEvent) (m : MessagesModel) : MessagesModel :=
  mkMessagesModel (m_cache m) (m_rows m) (m_filter m) (m_selectedItem m)
                  (m_messageHighlighter m) (m_customDateFormat m) (m_db m) (events m ++ [e]).

Definition rowCount (m : MessagesModel) : Z := Z.of_nat (length (m_rows m)).

(** [QAbstractTableModel::index]: a cell of the table, or the invalid index. *)
Definition index (m : MessagesModel) (row column : Z) : MessageIndex :=
  if (0 <=? row) && (row <? rowCount m) && (0 <=? column) && (column <? columnCount)
  then Cell row column else NoIndex.

(** [QSqlQueryModel::data]: the value of the live query. *)
Definition liveData (m : MessagesModel) (idx : MessageIndex) : QVariant :=
  match idx with
  | NoIndex => Invalid
  | Cell row column =>
      if (row <? 0) || (column <? 0) || (columnCount <=? column) then Invalid
      else
        match m_rows m !! Z.to_nat row with
        | Some rec => value rec column
        | None => Invalid
        end
  end.

(** Modelled from the spec: MessagesModelCache (core/messagesmodelcache.h is
    not among the sources), the overlay of pending edits keyed by row.  An
    edit of a row that has no entry yet first copies the record of the row. *)
Definition containsData (m : MessagesModel) (row : Z) : bool :=
  bool_decide (is_Some (m_cache m !! row)).

Definition cacheRecord (m : MessagesModel) (row : Z) : QSqlRecord :=
  default [] (m_cache m !! row).

Definition cacheData (m : MessagesModel) (idx : MessageIndex) : QVariant :=
  value (cacheRecord m (index_row idx)) (index_column idx).

Definition cacheSetData (idx : MessageIndex) (v : QVariant) (rec : QSqlRecord)
    (c : gmap Z (list QVariant)) : gmap Z (list QVariant) :=
  let c := match c !! index_row idx with
           | Some _ => c
           | None => <[index_row idx := rec]> c
           end in
  <[index_row idx := setValue (index_column idx) v (default [] (c !! index_row idx))]> c.

(** [MessagesModel::data] under [Qt::EditRole]. *)
Definition editData (m : MessagesModel) (idx : MessageIndex) : QVariant :=
  if containsData m (index_row idx) then cacheData m idx else liveData m idx.

(** [QSqlQueryModel::record(row)]: the blank record for a negative row, else
    the values of the row as [data] gives them under the edit role. *)
Definition record (m : MessagesModel) (row : Z) : QSqlRecord :=
  if row <? 0 then blankRecord
  else map (fun i => editData m (Cell row (Z.of_nat i))) (seq 0 (Z.to_nat columnCount)).

(** [MessagesModel::setData]; it always returns true. *)
Definition setData (idx : MessageIndex) (v : QVariant) (m : MessagesModel) : MessagesModel :=
  logEvent (CacheWrite idx v)
           (setCache (cacheSetData idx v (record m (index_row idx)) (m_cache m)) m).

(** [MessagesModel::messageAt]; a message is identified with the record it
    is built from. *)
Definition messageAt (m : MessagesModel) (row_index : Z) : QSqlRecord :=
  if containsData m row_index then cacheRecord m row_index else record m row_index.

(** [Message::m_id]. *)
Definition m_id (message : QSqlRecord) : Z := toInt (value message MSG_DB_ID_INDEX).

(** [qobject_cast<RecycleBin*>(item) != nullptr]: the recycle bin is the item
    of kind [Bin]. *)
Definition isRecycleBin (item : option RootItem) : bool :=
  match item with
  | Some it => bool_decide (kind it = Bin)
  | None => false
  end.

(** [MessagesModel::data]. *)
Definition data (m : MessagesModel) (idx : MessageIndex) (role : Role) : Answer :=
  match role with
  | DisplayRole =>
      let index_column := index_column idx in
      if index_column =? MSG_DB_DCREATED_INDEX then
        Plain (TextValue (formatDateTime (m_customDateFormat m) (liveData m idx)))
      else if index_column =? MSG_DB_AUTHOR_INDEX then
        let author_name := toString (liveData m idx) in
        Plain (TextValue (if decide (author_name = "") then "-" else author_name))
      else if negb (index_column =? MSG_DB_IMPORTANT_INDEX)
              && negb (index_column =? MSG_DB_READ_INDEX) then
        Plain (liveData m idx)
      else Plain Invalid
  | EditRole => Plain (editData m idx)
  | FontRole =>
      let data_read := editData m (index m (index_row idx) MSG_DB_READ_INDEX) in
      let is_deleted :=
        if isRecycleBin (m_selectedItem m)
        then toBool (editData m (index m (index_row idx) MSG_DB_PDELETED_INDEX))
        else toBool (editData m (index m (index_row idx) MSG_DB_DELETED_INDEX)) in
      Font (negb (toBool data_read)) is_deleted
  | ForegroundRole =>
      match m_messageHighlighter m with
      | HighlightImportant =>
          let dta := editData m (index m (index_row idx) MSG_DB_IMPORTANT_INDEX) in
          if toInt dta =? 1 then Blue else Plain Invalid
      | HighlightUnread =>
          let dta := editData m (index m (index_row idx) MSG_DB_READ_INDEX) in
          if toInt dta =? 0 then Blue else Plain Invalid
      | NoHighlighting => Plain Invalid
      end
  | DecorationRole =>
      let index_column := index_column idx in
      if index_column =? MSG_DB_READ_INDEX then
        let dta := editData m (index m (index_row idx) MSG_DB_READ_INDEX) in
        Pixmap (if toInt dta =? 1 then ReadIcon else UnreadIcon)
      else if index_column =? MSG_DB_IMPORTANT_INDEX then
        let dta := editData m (index m (index_row idx) MSG_DB_IMPORTANT_INDEX) in
        if toInt dta =? 1 then Pixmap FavoriteIcon else Plain Invalid
      else Plain Invalid
  | OtherRole => Plain Invalid
  end.

(** [MessagesModel::repopulate]: the cache is cleared and the query run
    again, all its rows fetched. *)
Definition repopulate (m : MessagesModel) : MessagesModel :=
  mkMessagesModel ∅ (selectMessages (m_db m) (m_filter m)) (m_filter m) (m_selectedItem m)
                  (m_messageHighlighter m) (m_customDateFormat m) (m_db m) (events m).

End MessagesModelDefinitions.

Section MessagesModelOperations.
Context `{MessageServices}.

(** [m_selectedItem->...]: undefined when no item is selected. *)
Definition selectedItem (m : MessagesModel) : Outcome RootItem :=
  match m_selectedItem m with
  | Some item => Returns item
  | None => Undefined
  end.

(** [m_selectedItem->getParentServiceRoot()->onBefore...(m_selectedItem, ...)]
    and its counterpart after the change. *)
Definition callBefore (call : HookCall) (m : MessagesModel) : Outcome (bool * MessagesModel) :=
  item ← selectedItem m;
  let '(verdict, w) := onBefore (m_db m) item call in
  mret (verdict, logEvent (Before call verdict) (setWorld w m)).

Definition callAfter (call : HookCall) (m : MessagesModel) : Outcome (bool * MessagesModel) :=
  item ← selectedItem m;
  let '(verdict, w) := onAfter (m_db m) item call in
  mret (verdict, logEvent (After call verdict) (setWorld w m)).

(** A call of [DatabaseQueries] on [m_db]. *)
Definition query (q : DbQuery) (m : MessagesModel) : bool * MessagesModel :=
  let '(ok, w) := runQuery (m_db m) q in
  (ok, logEvent (Query q ok) (setWorld w m)).

(** [MessagesModel::reloadWholeLayout]. *)
Definition reloadWholeLayout (m : MessagesModel) : MessagesModel := logEvent LayoutChanged m.

(** [MessagesModel::loadMessages]. *)
Definition loadMessages (item : option RootItem) (m : MessagesModel) : MessagesModel :=
  let m := mkMessagesModel (m_cache m) (m_rows m) (m_filter m) item (m_messageHighlighter m)
                           (m_customDateFormat m) (m_db m) (events m) in
  let setFilter f m :=
    mkMessagesModel (m_cache m) (m_rows m) f (m_selectedItem m) (m_messageHighlighter m)
                    (m_customDateFormat m) (m_db m) (events m) in
  let m :=
    match item with
    | None => setFilter DEFAULT_SQL_MESSAGES_FILTER m
    | Some it =>
        match loadMessagesForItem (m_db m) it with
        | Some f => setFilter f m
        | None => logEvent GuiMessage (setFilter "true != true" m)
        end
    end in
  repopulate m.

(** [MessagesModel::messageId] and [MessagesModel::messageImportance]. *)
Definition messageId (m : MessagesModel) (row_index : Z) : Z :=
  toInt (editData m (index m row_index MSG_DB_ID_INDEX)).

Definition messageImportance (m : MessagesModel) (row_index : Z) : Z :=
  toInt (editData m (index m row_index MSG_DB_IMPORTANT_INDEX)).

(** The first of the [n] rows from [i] on whose id is [id]: the [for] loop of
    the two lookups by id. *)
Fixpoint findRowById (m : MessagesModel) (id : Z) (i : Z) (n : nat) : option Z :=
  match n with
  | O => None
  | S n' =>
      let found_id := messageId m i in
      if found_id =? id then Some i else findRowById m id (i + 1) n'
  end.

(** [MessagesModel::setMessageReadById]. *)
Definition setMessageReadById (id : Z) (read : Z) (m : MessagesModel) : bool * MessagesModel :=
  match findRowById m id 0 (length (m_rows m)) with
  | Some i =>
      let m := setData (index m i MSG_DB_READ_INDEX) (IntValue read) m in
      (true, logEvent (DataChanged i i) m)
  | None => (false, m)
  end.

(** [MessagesModel::setMessageImportantById]. *)
Definition setMessageImportantById (id : Z) (important : Z) (m : MessagesModel)
  : bool * MessagesModel :=
  match findRowById m id 0 (length (m_rows m)) with
  | Some i =>
      let m := setData (index m i MSG_DB_IMPORTANT_INDEX) (IntValue important) m in
      (true, logEvent (DataChanged i i) m)
  | None => (false, m)
  end.

(** [MessagesModel::setMessageRead]. *)
Definition setMessageRead (row_index : Z) (read : Z) (m : MessagesModel)
  : Outcome (bool * MessagesModel) :=
  if toInt (editData m (index m row_index MSG_DB_READ_INDEX)) =? read then mret (true, m)
  else
    let message := messageAt m row_index in
    callBefore (SetMessagesRead [message] read) m ≫= fun r : bool * MessagesModel =>
    let '(accepted, m) := r in
    if negb accepted then mret (false, m)
    else
      let m := setData (index m row_index MSG_DB_READ_INDEX) (IntValue read) m in
      let '(ok, m) := query (MarkMessagesReadUnread [pretty (m_id message)] read) m in
      if ok then callAfter (SetMessagesRead [message] read) m
      else mret (false, m).

(** [MessagesModel::switchMessageImportance]. *)
Definition switchMessageImportance (row_index : Z) (m : MessagesModel)
  : Outcome (bool * MessagesModel) :=
  let target_index := index m row_index MSG_DB_IMPORTANT_INDEX in
  let current_importance := toInt (editData m target_index) in
  let next_importance :=
    if current_importance =? Important then NotImportant else Important in
  let message := messageAt m row_index in
  let pair := (message, next_importance) in
  callBefore (SwitchMessageImportance [pair]) m ≫= fun r : bool * MessagesModel =>
  let '(accepted, m) := r in
  if negb accepted then mret (false, m)
  else
    let m := setData target_index (IntValue next_importance) m in
    let '(ok, m) := query (MarkMessageImportant (m_id message) next_importance) m in
    if ok then
      callAfter (SwitchMessageImportance [pair])
                (logEvent (DataChanged
                             (index_row (index m row_index 0))
                             (index_row (index m row_index MSG_DB_FEED_CUSTOM_ID_INDEX))) m)
    else mret (false, m).

(** The variables of the [foreach] loops of the batch operations. *)
Record Batch := mkBatch {
  message_ids : list string;
  msgs : list QSqlRecord;
  message_states : list (QSqlRecord * Z);
  batch_model : MessagesModel
}.

Definition startBatch (m : MessagesModel) : Batch := mkBatch [] [] [] m.

(** Body of the [foreach] of [switchBatchMessageImportance]. *)
Definition switchImportanceStep (b : Batch) (message : MessageIndex) : Batch :=
  let m := batch_model b in
  let msg := messageAt m (index_row message) in
  let message_importance := messageImportance m (index_row message) in
  let next := if message_importance =? Important then NotImportant else Important in
  mkBatch (message_ids b ++ [pretty (m_id msg)]) (msgs b ++ [msg])
          (message_states b ++ [(msg, next)])
          (setData (index m (index_row message) MSG_DB_IMPORTANT_INDEX) (IntValue next) m).

(** Body of the [foreach] of [setBatchMessagesDeleted]. *)
Definition deleteStep (b : Batch) (message : MessageIndex) : Batch :=
  let m := batch_model b in
  let msg := messageAt m (index_row message) in
  mkBatch (message_ids b ++ [pretty (m_id msg)]) (msgs b ++ [msg]) (message_states b)
          (if isRecycleBin (m_selectedItem m)
           then setData (index m (index_row message) MSG_DB_PDELETED_INDEX) (IntValue 1) m
           else setData (index m (index_row message) MSG_DB_DELETED_INDEX) (IntValue 1) m).

(** Body of the [foreach] of [setBatchMessagesRead]. *)
Definition readStep (read : Z) (b : Batch) (message : MessageIndex) : Batch :=
  let m := batch_model b in
  let msg := messageAt m (index_row message) in
  mkBatch (message_ids b ++ [pretty (m_id msg)]) (msgs b ++ [msg]) (message_states b)
          (setData (index m (index_row message) MSG_DB_READ_INDEX) (IntValue read) m).

(** Body of the [foreach] of [setBatchMessagesRestored]. *)
Definition restoreStep (b : Batch) (message : MessageIndex) : Batch :=
  let m := batch_model b in
  let msg := messageAt m (index_row message) in
  let m := setData (index m (index_row message) MSG_DB_PDELETED_INDEX) (IntValue 0) m in
  let m := setData (index m (index_row message) MSG_DB_DELETED_INDEX) (IntValue 0) m in
  mkBatch (message_ids b ++ [pretty (m_id msg)]) (msgs b ++ [msg]) (message_states b) m.

(** What the four batch operations share after their loop: the layout is
    reloaded, the before hook is asked, the database is updated, the after
    hook is called. *)
Definition finishBatch (call : HookCall) (q : RootItem -> DbQuery) (m : MessagesModel)
  : Outcome (bool * MessagesModel) :=
  let m := reloadWholeLayout m in
  callBefore call m ≫= fun r : bool * MessagesModel =>
  let '(accepted, m) := r in
  if negb accepted then mret (false, m)
  else
    item ← selectedItem m;
    let '(ok, m) := query (q item) m in
    if ok then callAfter call m else mret (false, m).

(** [MessagesModel::switchBatchMessageImportance]. *)
Definition switchBatchMessageImportance (messages : list MessageIndex) (m : MessagesModel)
  : Outcome (bool * MessagesModel) :=
  let b := foldl switchImportanceStep (startBatch m) messages in
  finishBatch (SwitchMessageImportance (message_states b))
              (fun _ => SwitchMessagesImportance (message_ids b)) (batch_model b).

(** [MessagesModel::setBatchMessagesDeleted]. *)
Definition setBatchMessagesDeleted (messages : list MessageIndex) (m : MessagesModel)
  : Outcome (bool * MessagesModel) :=
  let b := foldl deleteStep (startBatch m) messages in
  finishBatch (MessagesDelete (msgs b))
              (fun item => if decide (kind item <> Bin)
                           then DeleteOrRestoreMessagesToFromBin (message_ids b) true
                           else PermanentlyDeleteMessages (message_ids b))
              (batch_model b).

(** [MessagesModel::setBatchMessagesRead]. *)
Definition setBatchMessagesRead (messages : list MessageIndex) (read : Z) (m : MessagesModel)
  : Outcome (bool * MessagesModel) :=
  let b := foldl (readStep read) (startBatch m) messages in
  finishBatch (SetMessagesRead (msgs b) read)
              (fun _ => MarkMessagesReadUnread (message_ids b) read) (batch_model b).

(** [MessagesModel::setBatchMessagesRestored]. *)
Definition setBatchMessagesRestored (messages : list MessageIndex) (m : MessagesModel)
  : Outcome (bool * MessagesModel) :=
  let b := foldl restoreStep (startBatch m) messages in
  finishBatch (MessagesRestoredFromBin (msgs b))
              (fun _ => DeleteOrRestoreMessagesToFromBin (message_ids b) false)
              (batch_model b).

End MessagesModelOperations.

(** ** Predicates used in the statements about the message model *)

Section MessagesModelPredicates.
Context `{MessageServices}.

(** Every record of the cache has the columns of the query.  This holds
    after [repopulate] and is kept by [setData]. *)
Definition cacheShaped (m : MessagesModel) : Prop :=
  forall row rec, m_cache m !! row = Some rec -> length rec = Z.to_nat columnCount.

(** The rows of the list are rows of the table. *)
Definition validRows (m : MessagesModel) (messages : list MessageIndex) : Prop :=
  forall idx, idx ∈ messages -> 0 <= index_row idx < rowCount m.

(** What [finishBatch], the part that the batch operations share after their
    loop, has done when it returned [b]: the layout was reloaded; the before
    hook was asked; when it rejected, nothing was asked of the database and
    the result is false; when it accepted, the query was run; when the query
    failed the after hook was not called and the result is false; otherwise
    the result is the verdict of the after hook.  The cache and the rows are
    as they were on entry. *)
Definition pipelineOutcome (call : HookCall) (q : RootItem -> DbQuery)
    (m : MessagesModel) (b : bool) (m' : MessagesModel) : Prop :=
  m_cache m' = m_cache m /\ m_rows m' = m_rows m /\ m_selectedItem m' = m_selectedItem m
  /\ exists item,
       m_selectedItem m = Some item
       /\ let before := onBefore (m_db m) item call in
          if before.1 then
            let queried := runQuery before.2 (q item) in
            if queried.1 then
              let after := onAfter queried.2 item call in
              b = after.1 /\ m_db m' = after.2
              /\ events m' = events m ++ [LayoutChanged; Before call true;
                                          Query (q item) true; After call after.1]
            else
              b = false /\ m_db m' = queried.2
              /\ events m' = events m ++ [LayoutChanged; Before call true;
                                          Query (q item) false]
          else
            b = false /\ m_db m' = before.2
            /\ events m' = events m ++ [LayoutChanged; Before call false].

End MessagesModelPredicates.

(** ** Services with scripted verdicts

    The hooks and the queries answer with fixed verdicts and the table of the
    database is fixed: enough to run the model in the examples. *)
Record ScriptedWorld := mkScriptedWorld {
  before_verdict : bool;
  query_verdict : bool;
  after_verdict : bool;
  table : list (list QVariant)
}.

Definition scriptedServices : MessageServices :=
  {| World := ScriptedWorld;
     onBefore := fun w _ _ => (before_verdict w, w);
     onAfter := fun w _ _ => (after_verdict w, w);
     runQuery := fun w _ => (query_verdict w, w);
     loadMessagesForItem := fun _ _ => Some "feed = 20";
     selectMessages := fun w _ => table w;
     DEFAULT_SQL_MESSAGES_FILTER := "is_deleted = 0";
     textToInt := fun _ => 0;
     textToBool := fun _ => true;
     formatDateTime := fun _ _ => "today" |}.

(** A row of the message table: id, read, deleted, important, feed, title,
    url, author, created, contents, pdeleted and five further columns. *)
Definition messageRow (i read deleted important : Z) (t : string) : list QVariant :=
  [IntValue i; IntValue read; IntValue deleted; IntValue important; TextValue "Blog";
   TextValue t; TextValue "http://example.org"; TextValue ""; IntValue 0; TextValue "";
   IntValue 0; TextValue ""; IntValue 1; TextValue ""; TextValue ""; TextValue "20"].

Definition sampleTable : list (list QVariant) :=
  [messageRow 5 0 0 0 "First"; messageRow 6 1 0 1 "Second"].

(** The message model showing the feed "Blog" (or the recycle bin), its query
    just run on [sampleTable]. *)
Definition sampleMessages (item : RootItem) (before query after : bool)
  : @MessagesModel scriptedServices :=
  @mkMessagesModel scriptedServices ∅ sampleTable "feed = 20" (Some item) NoHighlighting ""
                   (mkScriptedWorld before query after sampleTable) [].

Section ByIdOutcome.
Context `{MessageServices}.

(** What a lookup by id that answered [b] has done, [column] being the
    column it writes: the state of the collaborators and the rows are
    untouched and no hook or query event was added; [b] tells whether some
    row carries the id; when one does, the first such row was written in the
    cache and the views were told; when none does, the model is unchanged. *)
Definition byIdOutcome (column : Z) (id v : Z) (m : MessagesModel) (b : bool)
    (m' : MessagesModel) : Prop :=
  m_db m' = m_db m /\ m_rows m' = m_rows m
  /\ (forall e, e ∈ events m' ->
        e ∈ events m \/ (exists idx w, e = CacheWrite idx w) \/ (exists i j, e = DataChanged i j))
  /\ (b = true <-> exists i, 0 <= i < rowCount m /\ messageId m i = id)
  /\ (b = true ->
      exists i, 0 <= i < rowCount m /\ messageId m i = id
                /\ (forall j, 0 <= j < i -> messageId m j <> id)
                /\ m' = logEvent (DataChanged i i) (setData (Cell i column) (IntValue v) m)
                /\ (cacheShaped m -> data m' (index m' i column) EditRole = Plain (IntValue v)))
  /\ (b = false -> m' = m).

End ByIdOutcome.

Section BatchPredicates.
Context `{MessageServices}.

Definition isCacheWrite (e : MessageEvent) : Prop :=
  match e with
  | CacheWrite _ _ => True
  | _ => False
  end.

(** From [m] to [m'] only the cache was written: the rows, the selected item
    and the state of the collaborators are the same, and the events added are
    writes of the cache. *)
Definition onlyCacheWrites (m m' : MessagesModel) : Prop :=
  m_rows m' = m_rows m /\ m_db m' = m_db m /\ m_selectedItem m' = m_selectedItem m
  /\ exists writes, events m' = events m ++ writes /\ Forall isCacheWrite writes.

(** A batch operation with loop body [step], hook call [call] and query [q]:
    its loop only writes the cache, and what follows the loop is the
    pipeline of [pipelineOutcome], run on the model as the loop left it. *)
Definition batchOutcome (step : Batch -> MessageIndex -> Batch) (call : Batch -> HookCall)
    (q : Batch -> RootItem -> DbQuery) (messages : list MessageIndex)
    (m : MessagesModel) (b : bool) (m' : MessagesModel) : Prop :=
  let bt := foldl step (startBatch m) messages in
  onlyCacheWrites m (batch_model bt)
  /\ pipelineOutcome (call bt) (q bt) (batch_model bt) b m'.

(** A single-message operation with hook call [call] that writes [v] at
    [idx]: the before hook is asked first; when it rejects, the result is
    false and the cache, the rows and the database are untouched; when it
    accepts, the write of the cache comes next. *)
Definition singleOutcome (call : HookCall) (idx : MessageIndex) (v : QVariant)
    (m : MessagesModel) (b : bool) (m' : MessagesModel) : Prop :=
  exists item,
    m_selectedItem m = Some item
    /\ let before := onBefore (m_db m) item call in
       if before.1 then
         exists rest,
           events m' = events m ++ [Before call true; CacheWrite idx v] ++ rest
       else
         b = false /\ m_cache m' = m_cache m /\ m_rows m' = m_rows m
         /\ m_db m' = before.2
         /\ events m' = events m ++ [Before call false].

End BatchPredicates.

(** The importance that a switch gives to a message of importance
    [importance]. *)
Definition switched (importance : Z) : Z :=
  if importance =? Important then NotImportant else Important.

(** The cells that a list of events wrote in the cache, in order. *)
Definition cellsWritten (es : list MessageEvent) : list MessageIndex :=
  omap (fun e => match e with CacheWrite idx _ => Some idx | _ => None end) es.

Section BatchIds.
Context `{MessageServices}.

(** What the loops of the batch operations keep of the model [m] they
    started from: the rows, the shape of the cache, the selected item and
    the id of every row. *)
Definition keepsIds (m M : MessagesModel) : Prop :=
  m_rows M = m_rows m /\ cacheShaped M /\ m_selectedItem M = m_selectedItem m
  /\ forall r, editData M (Cell r MSG_DB_ID_INDEX) = editData m (Cell r MSG_DB_ID_INDEX).

(** The ids of the rows of a list of indexes, as texts and as numbers. *)
Definition selectedIds (m : MessagesModel) (messages : list MessageIndex) : list string :=
  map (fun idx => pretty (messageId m (index_row idx))) messages.

(** [message_list] holds, in order, a message for each index of the list,
    with the id of its row. *)
Definition messagesOf (m : MessagesModel) (messages : list MessageIndex)
    (message_list : list QSqlRecord) : Prop :=
  Forall2 (fun idx msg => m_id msg = messageId m (index_row idx)) messages message_list.

End BatchIds.

Section CellWrites.
Context `{MessageServices}.

(** The same value written through setData at each cell of a list. *)
Definition writeCells (v : QVariant) (cells : list (Z * Z)) (m : MessagesModel)
  : MessagesModel :=
  foldl (fun m rc => setData (index m rc.1 rc.2) v m) m cells.

End CellWrites.

(** ** Categories that form a forest *)

(** The parent id [k] resolves: it is the no-parent sentinel, or the id of a
    category of the list whose own parent id resolves. *)
Inductive Resolves (h : Heap) (categories : list (Z * addr)) : Z -> Prop :=
  | resolves_root : Resolves h categories NO_PARENT_CATEGORY
  | resolves_category c it :
      c ∈ categories -> h !! c.2 = Some it -> Resolves h categories c.1 ->
      Resolves h categories (id it).

(** The category [c] is attached in [h']: it is among the children of a node
    whose id is the parent id that [c] declares. *)
Definition attached (h h' : Heap) (c : Z * addr) : Prop :=
  exists p pi0 pi, h !! p = Some pi0 /\ id pi0 = c.1
                   /\ h' !! p = Some pi /\ c.2 ∈ childItems pi.

(** The state of the loop of assembleCategories: the live nodes are those of
    [h], and every assignment leads from an id to a live node of that id; the
    sentinel is assigned. *)
Definition asmBase (h : Heap) (assignments : gmap Z positive) (hk : Heap) : Prop :=
  sameNodes h hk
  /\ (forall k p, assignments !! k = Some p -> exists pi0, h !! p = Some pi0 /\ id pi0 = k)
  /\ is_Some (assignments !! NO_PARENT_CATEGORY).

(** A category is done once it is attached and can serve as a parent. *)
Definition categoryDone (h : Heap) (assignments : gmap Z positive) (hk : Heap)
    (c : Z * addr) : Prop :=
  attached h hk c /\ exists it, h !! c.2 = Some it /\ is_Some (assignments !! id it).

(** Child lists only grow from [hk] to [hk']. *)
Definition childrenGrow (hk hk' : Heap) : Prop :=
  forall a x, hk !! a = Some x ->
    exists x', hk' !! a = Some x' /\ forall y, y ∈ childItems x -> y ∈ childItems x'.

(** * Further parts of the two models *)

(** ** The auto-update timer *)

(** The members of FeedsModel that drive the scheduled updates, kept beside
    the tree: the global interval, counted in ticks of the timer, with its
    countdown; whether the timer runs; and the [feedsUpdateRequested] signals
    emitted so far, each with the feeds it names. *)
Record AutoUpdate `{Persistence} := mkAutoUpdate {
  feedsModel : FeedsModel;
  m_globalAutoUpdateEnabled : bool;
  m_globalAutoUpdateInitialInterval : Z;
  m_globalAutoUpdateRemainingInterval : Z;
  m_autoUpdateTimer : bool;
  feedsUpdateRequested : list (list addr)
}.

Section AutoUpdateTimer.
Context `{Persistence}.

(** [FeedsModel::updateAutoUpdateStatus]; the two settings it reads are its
    arguments.  The timer runs afterwards, whether it did before or not. *)
Definition updateAutoUpdateStatus (interval : Z) (enabled : bool) (s : AutoUpdate)
  : AutoUpdate :=
  mkAutoUpdate _ (feedsModel s) enabled interval interval true (feedsUpdateRequested s).

(** [FeedsModel::quit]. *)
Definition quit (s : AutoUpdate) : AutoUpdate :=
  mkAutoUpdate _ (feedsModel s) (m_globalAutoUpdateEnabled s)
               (m_globalAutoUpdateInitialInterval s) (m_globalAutoUpdateRemainingInterval s)
               false (feedsUpdateRequested s).

(** [FeedsModel::executeNextAutoUpdate], the slot of the timer.  [tryLock] is
    the answer of [qApp->feedUpdateLock()->tryLock()]; the lock is released
    before the signal is emitted.  The countdown is decremented only when the
    global auto-update is enabled ([&&] does not evaluate its right operand
    otherwise). *)
Definition executeNextAutoUpdate (tryLock : bool) (s : AutoUpdate) : AutoUpdate :=
  if negb tryLock then s
  else
    let remaining :=
      if m_globalAutoUpdateEnabled s then
        let decremented := dec32 (m_globalAutoUpdateRemainingInterval s) in
        if decremented <? 0 then m_globalAutoUpdateInitialInterval s else decremented
      else m_globalAutoUpdateRemainingInterval s in
    let '(feeds_for_update, m) :=
      feedsForScheduledUpdate (m_globalAutoUpdateEnabled s && (remaining =? 0))
                              (feedsModel s) in
    mkAutoUpdate _ m (m_globalAutoUpdateEnabled s) (m_globalAutoUpdateInitialInterval s)
                 remaining (m_autoUpdateTimer s)
                 (match feeds_for_update with
                  | [] => feedsUpdateRequested s
                  | _ :: _ => feedsUpdateRequested s ++ [feeds_for_update]
                  end).

(** The timer fires once for each answer of the lock, in order. *)
Definition ticks (locks : list bool) (s : AutoUpdate) : AutoUpdate :=
  foldl (fun s tryLock => executeNextAutoUpdate tryLock s) s locks.

(** The number of ticks on which the lock was obtained. *)
Definition obtained (locks : list bool) : Z :=
  Z.of_nat (length (filter (fun l => l = true) locks)).

End AutoUpdateTimer.

(** Two nodes that differ at most in the remaining interval. *)
Definition sameButRemaining (x y : RootItem) : Prop :=
  kind x = kind y /\ id x = id y /\ title x = title y /\ childItems x = childItems y
  /\ parent x = parent y /\ autoUpdateType x = autoUpdateType y
  /\ autoUpdateInitialInterval x = autoUpdateInitialInterval y.

(** Two heaps with the same tree, up to the remaining intervals. *)
Definition sameTree (h h' : Heap) : Prop :=
  forall a, option_Forall2 sameButRemaining (h !! a) (h' !! a).

(** ** Categories below an item *)

(** The items that the work list of categoriesForItem comes to hold when it
    starts with [top]: the items of [top], and the children of every
    category among them. *)
Inductive Below (h : Heap) (top : list addr) : addr -> Prop :=
  | below_top x : x ∈ top -> Below h top x
  | below_category p pi x :
      Below h top p -> h !! p = Some pi -> kind pi = Cattegory -> x ∈ childItems pi ->
      Below h top x.

(** Every child of a live item is live and of lower rank: the child links
    form no cycle and lead to live items only. *)
Definition ranked (rank : addr -> nat) (h : Heap) : Prop :=
  map_Forall (fun a it =>
    Forall (fun c => is_Some (h !! c) /\ (rank c < rank a)%nat) (childItems it)) h.

(** The number of turns that the loop of categoriesForItem spends on an item
    and on what it puts on the work list because of it; [n] bounds the depth
    to which categories are followed. *)
Fixpoint visits (n : nat) (h : Heap) (a : addr) : nat :=
  match n with
  | O => 1
  | S n' =>
      match h !! a with
      | Some it =>
          if decide (kind it = Cattegory)
          then S (foldr (fun c k => (visits n' h c + k)%nat) O (childItems it))
          else 1
      | None => 1
      end
  end.




(** Ranks for the sample tree: the root above the category above the rest. *)
Definition sampleRank (a : addr) : nat :=
  match a with
  | 1%positive => 2
  | 3%positive => 1
  | _ => 0
  end.

(** ** The conversation of a bulk update with the database *)

(** The calls that a bulk update with statement [sql] and bound values
    [bound] makes on the connection, with the result it returns: the
    transaction, then the preparation, then the execution, then the commit,
    with a rollback after each of the last three that fails; only after a
    failed preparation does the rollback end the conversation. *)
Inductive BulkUpdateRun (sql : string) (bound : list (string * Z))
  : list DbCall -> bool -> Prop :=
  | run_not_started :
      BulkUpdateRun sql bound [CallTransaction false] false
  | run_not_prepared rolled_back :
      BulkUpdateRun sql bound
        [CallTransaction true; CallPrepare sql false; CallRollback rolled_back] false
  | run_committed :
      BulkUpdateRun sql bound
        [CallTransaction true; CallPrepare sql true; CallExec bound true; CallCommit true]
        true
  | run_commit_failed rolled_back :
      BulkUpdateRun sql bound
        [CallTransaction true; CallPrepare sql true; CallExec bound true; CallCommit false;
         CallRollback rolled_back]
        rolled_back
  | run_exec_failed_committed rolled_back :
      BulkUpdateRun sql bound
        [CallTransaction true; CallPrepare sql true; CallExec bound false;
         CallRollback rolled_back; CallCommit true]
        true
  | run_exec_failed_commit_failed rolled_back rolled_back_again :
      BulkUpdateRun sql bound
        [CallTransaction true; CallPrepare sql true; CallExec bound false;
         CallRollback rolled_back; CallCommit false; CallRollback rolled_back_again]
        rolled_back_again.

(** * Theorems *)

(** Closed decidable goals are settled by evaluation. *)
Ltac by_computation := apply (bool_decide_unpack _); vm_compute; exact I.

(** The monad of outcomes is unfolded to its case analysis. *)
Ltac unfold_outcome :=
  unfold mbind, mret, Outcome_bind, Outcome_ret, deref in *.

(** ** Scheduled auto-update *)

Lemma scheduleStep_spec now h out x :
  exists h1,
    scheduleStep now (h, out) x = (h1, out ++ (if dueNow now h x then [x] else []))
    /\ h1 !! x = afterPass <$> (h !! x)
    /\ (forall a, a <> x -> h1 !! a = h !! a).
Proof.
  unfold scheduleStep, dueNow, afterPass.
  destruct (h !! x) as [f|] eqn:Hx.
  - destruct (autoUpdateType f) eqn:Ht; simpl.
    + exists h. rewrite app_nil_r, Hx. simpl. rewrite Ht. auto.
    + exists h. rewrite Hx. simpl. rewrite Ht.
      destruct now; rewrite ?app_nil_r; auto.
    + destruct (dec32 (autoUpdateRemainingInterval f) <=? 0) eqn:Hd.
      * eexists. split; [reflexivity|]. split.
        -- rewrite lookup_insert_eq. simpl. now rewrite Ht.
        -- intros a Ha. now rewrite lookup_insert_ne.
      * eexists. rewrite app_nil_r. split; [reflexivity|]. split.
        -- rewrite lookup_insert_eq. simpl. now rewrite Ht.
        -- intros a Ha. now rewrite lookup_insert_ne.
  - exists h. rewrite app_nil_r, Hx. auto.
Qed.

Lemma filter_agree {A} (P Q : A -> Prop) `{!forall x, Decision (P x)} `{!forall x, Decision (Q x)}
    (l : list A) :
  (forall x, x ∈ l -> (P x <-> Q x)) -> filter P l = filter Q l.
Proof.
  induction l as [|x l IH]; intros Hpq; [reflexivity|].
  rewrite !filter_cons. rewrite IH by (intros y Hy; apply Hpq; now right).
  assert (Hx : P x <-> Q x) by (apply Hpq; now left).
  destruct (decide (P x)) as [Hp|Hp], (decide (Q x)) as [Hq|Hq]; tauto.
Qed.

Lemma scheduleLoop_inv now (l : list addr) :
  forall (h : Heap) out h' out',
    NoDup l ->
    foldl (scheduleStep now) (h, out) l = (h', out') ->
    out' = out ++ filter (fun a => dueNow now h a = true) l
    /\ (forall a, a ∈ l -> h' !! a = afterPass <$> (h !! a))
    /\ (forall a, a ∉ l -> h' !! a = h !! a).
Proof.
  induction l as [|x l IH]; intros h out h' out' Hnd Hf; cbn [foldl] in Hf.
  - inversion Hf; subst. rewrite app_nil_r. split; [reflexivity|].
    split; [|reflexivity]. intros a Ha. inversion Ha.
  - apply NoDup_cons in Hnd as [Hx Hnd].
    destruct (scheduleStep_spec now h out x) as (h1 & Hs & Hhx & Hoth).
    rewrite Hs in Hf. destruct (IH _ _ _ _ Hnd Hf) as (Hout & Hin & Hnin).
    assert (Hdue : forall a, a ∈ l -> dueNow now h1 a = dueNow now h a).
    { intros a Ha. unfold dueNow. rewrite Hoth; [reflexivity|]. intros ->. contradiction. }
    split; [|split].
    + rewrite Hout, <- app_assoc. f_equal.
      rewrite filter_cons.
      replace (filter (fun a => dueNow now h1 a = true) l)
        with (filter (fun a => dueNow now h a = true) l).
      2:{ apply filter_agree. intros a Ha. now rewrite Hdue. }
      destruct (decide (dueNow now h x = true)) as [Hd|Hd].
      * now rewrite Hd.
      * apply not_true_is_false in Hd. now rewrite Hd.
    + intros a Ha. apply elem_of_cons in Ha as [->|Ha].
      * rewrite Hnin by assumption. exact Hhx.
      * rewrite Hin by assumption. rewrite Hoth; [reflexivity|]. intros ->. contradiction.
    + intros a Ha. apply not_elem_of_cons in Ha as [Hne Ha].
      rewrite Hnin by assumption. now apply Hoth.
Qed.

Lemma dec32_no_overflow (r : Z) : - 2 ^ 31 < r < 2 ^ 31 -> dec32 r = r - 1.
Proof.
  intros Hr. unfold dec32, wrap32.
  rewrite Z.mod_small by lia. lia.
Qed.

Section Scheduling.
Context `{Persistence}.

(** C1.  One call of feedsForScheduledUpdate treats every feed of the tree by
    its auto-update mode.  The list returned is the traversal [allFeeds]
    filtered, in its order, by [dueNow]; a feed that never auto-updates is left
    out and untouched; a feed on the global interval is included exactly when
    [auto_update_now] holds; a feed with an interval of its own has its
    remaining interval decremented, and is included and reset to the initial
    interval when the decremented value is at most 0, and otherwise keeps the
    decremented value and is left out. *)
Theorem feedsForScheduledUpdate_by_mode (auto_update_now : bool) (m m' : FeedsModel)
    (out : list addr) :
  NoDup (allFeeds m) ->
  feedsForScheduledUpdate auto_update_now m = (out, m') ->
  out = filter (fun feed => dueNow auto_update_now (items m) feed = true) (allFeeds m)
  /\ forall feed f, feed ∈ allFeeds m -> items m !! feed = Some f ->
       match autoUpdateType f with
       | DontAutoUpdate => (feed ∉ out) /\ items m' !! feed = Some f
       | DefaultAutoUpdate =>
           (feed ∈ out <-> auto_update_now = true) /\ items m' !! feed = Some f
       | SpecificAutoUpdate =>
           let remaining_interval := dec32 (autoUpdateRemainingInterval f) in
           if remaining_interval <=? 0
           then feed ∈ out
                /\ items m' !! feed
                   = Some (setAutoUpdateRemainingInterval (autoUpdateInitialInterval f) f)
           else (feed ∉ out)
                /\ items m' !! feed
                   = Some (setAutoUpdateRemainingInterval remaining_interval f)
       end.
Proof.
  intros Hnd Hrun. unfold feedsForScheduledUpdate, scheduleLoop in Hrun.
  destruct (foldl _ _ _) as [h' out'] eqn:Hf. inversion Hrun; subst out m'; clear Hrun.
  destruct (scheduleLoop_inv _ _ _ _ _ _ Hnd Hf) as (Hout & Hin & _).
  simpl in Hout. split; [exact Hout|].
  intros feed f Hfeed Hlook. specialize (Hin feed Hfeed).
  rewrite Hlook in Hin. simpl in Hin. unfold afterPass in Hin. simpl.
  assert (Hmem : feed ∈ out' <-> dueNow auto_update_now (items m) feed = true).
  { rewrite Hout, list_elem_of_filter. tauto. }
  unfold dueNow in Hmem. rewrite Hlook in Hmem.
  destruct (autoUpdateType f).
  - split; [|exact Hin]. rewrite Hmem. discriminate.
  - split; [exact Hmem|exact Hin].
  - destruct (dec32 (autoUpdateRemainingInterval f) <=? 0).
    + split; [now apply Hmem|exact Hin].
    + split; [|exact Hin]. rewrite Hmem. discriminate.
Qed.

End Scheduling.

Lemma sample_allFeeds answers :
  allFeeds (sampleModel answers) = [4; 5; 6]%positive.
Proof. vm_compute. reflexivity. Qed.

(** The scenario of the specification: a feed with an interval of its own,
    initial = remaining = 3, passes through 2 and 1 and is included and reset
    to 3 by the third pass; the feed on the global interval is included
    exactly in the pass where the global interval has elapsed; the feed that
    never updates is never included. *)
Example three_scheduled_passes :
  let remaining (m : @FeedsModel scriptedStore) :=
    autoUpdateRemainingInterval <$> items m !! 4%positive in
  let '(out1, m1) := feedsForScheduledUpdate false (sampleModel []) in
  let '(out2, m2) := feedsForScheduledUpdate true m1 in
  let '(out3, m3) := feedsForScheduledUpdate false m2 in
  (out1, remaining m1) = ([], Some 2)
  /\ (out2, remaining m2) = ([5%positive], Some 1)
  /\ (out3, remaining m3) = ([4%positive], Some 3).
Proof. vm_compute. repeat split. Qed.

Lemma feedsForScheduledUpdate_by_mode_witness :
  exists out m',
    feedsForScheduledUpdate false (sampleModel []) = (out, m')
    /\ out = filter (fun feed => dueNow false sampleItems feed = true)
                    (allFeeds (sampleModel []))
    /\ items m' !! 4%positive
       = Some (feedNode 20 "Blog" (Some 3%positive) SpecificAutoUpdate 3 2).
Proof.
  eexists _, _. split; [reflexivity|].
  destruct (feedsForScheduledUpdate_by_mode (H := scriptedStore) false (sampleModel [])
              (snd (feedsForScheduledUpdate false (sampleModel [])))
              (fst (feedsForScheduledUpdate false (sampleModel []))))
    as [Hout Hfeeds].
  - rewrite sample_allFeeds. by_computation.
  - reflexivity.
  - split; [exact Hout|].
    assert (H4 : (4%positive : addr) ∈ allFeeds (sampleModel [])).
    { rewrite sample_allFeeds. by_computation. }
    exact (proj2 (Hfeeds 4%positive _ H4 eq_refl)).
Defined.

(** ** Child lists and the heap *)

Lemma sameNode_refl x : sameNode x x.
Proof. repeat split. Qed.

Lemma sameNode_trans x y z : sameNode x y -> sameNode y z -> sameNode x z.
Proof. unfold sameNode. intuition congruence. Qed.

Lemma sameNodes_refl h : sameNodes h h.
Proof.
  intros a. destruct (h !! a); constructor. apply sameNode_refl.
Qed.

Lemma sameNodes_trans h1 h2 h3 : sameNodes h1 h2 -> sameNodes h2 h3 -> sameNodes h1 h3.
Proof.
  intros H12 H23 a. specialize (H12 a). specialize (H23 a).
  destruct H12; inversion H23; subst; constructor.
  eapply sameNode_trans; eassumption.
Qed.

Lemma sameNodes_live h h' a : sameNodes h h' -> is_Some (h !! a) -> is_Some (h' !! a).
Proof.
  intros Hs [x Hx]. specialize (Hs a). rewrite Hx in Hs. inversion Hs. eauto.
Qed.

Lemma sameNodes_id h h' a x y :
  sameNodes h h' -> h !! a = Some x -> h' !! a = Some y -> id x = id y.
Proof.
  intros Hs Hx Hy. specialize (Hs a). rewrite Hx, Hy in Hs.
  inversion Hs as [? ? Hn|]; subst. apply Hn.
Qed.

Lemma sameNodes_insert h a x y :
  h !! a = Some x -> sameNode x y -> sameNodes h (<[a := y]> h).
Proof.
  intros Hx Hxy b. destruct (decide (a = b)) as [<-|Hne].
  - rewrite lookup_insert_eq, Hx. now constructor.
  - rewrite lookup_insert_ne by assumption. apply sameNodes_refl.
Qed.

Lemma appendChild_Returns p c (h : Heap) :
  is_Some (h !! p) -> is_Some (h !! c) -> exists h1, appendChild p c h = Returns h1.
Proof.
  intros [pi Hp] [ci Hc]. unfold appendChild. unfold_outcome. rewrite Hp.
  destruct (decide (p = c)) as [<-|Hne].
  - rewrite lookup_insert_eq. eauto.
  - rewrite lookup_insert_ne, Hc by assumption. eauto.
Qed.

Lemma appendChild_inv p c (h h1 : Heap) :
  appendChild p c h = Returns h1 ->
  exists pi ci,
    h !! p = Some pi
    /\ <[p := setChildItems (childItems pi ++ [c]) pi]> h !! c = Some ci
    /\ h1 = <[c := setParent (Some p) ci]> (<[p := setChildItems (childItems pi ++ [c]) pi]> h).
Proof.
  unfold appendChild. unfold_outcome.
  destruct (h !! p) as [pi|] eqn:Hp; [|discriminate].
  destruct (_ !! c) as [ci|] eqn:Hc; [|discriminate].
  intros [= <-]. eauto.
Qed.

Lemma appendChild_sameNodes p c (h h1 : Heap) :
  appendChild p c h = Returns h1 -> sameNodes h h1.
Proof.
  intros Ha. apply appendChild_inv in Ha as (pi & ci & Hp & Hc & ->).
  eapply sameNodes_trans.
  - apply (sameNodes_insert h p pi (setChildItems (childItems pi ++ [c]) pi));
      [exact Hp|]. repeat split.
  - apply (sameNodes_insert _ c ci (setParent (Some p) ci)); [exact Hc|]. repeat split.
Qed.

(** ** Assembling the categories *)

Section DanglingParent.
Variable h0 : Heap.
Variable target : Z.

Lemma assemblePass_dangling (categories : list (Z * addr)) :
  forall (assignments : gmap Z positive) (h : Heap),
    (forall c, c ∈ categories -> exists it, h0 !! c.2 = Some it /\ id it <> target) ->
    passInv h0 target assignments h ->
    exists kept assignments' h',
      assemblePass categories assignments h = Returns (kept, assignments', h')
      /\ passInv h0 target assignments' h'
      /\ (forall c, c ∈ kept -> c ∈ categories)
      /\ (forall c, c ∈ categories -> c.1 = target -> c ∈ kept).
Proof.
  induction categories as [|c rest IH]; intros assignments h Hcats Hinv.
  - exists [], assignments, h. split; [reflexivity|]. split; [exact Hinv|].
    split; intros c Hc; inversion Hc.
  - assert (Hrest : forall c', c' ∈ rest -> exists it, h0 !! c'.2 = Some it /\ id it <> target).
    { intros c' Hc'. apply Hcats. now right. }
    destruct (Hcats c) as (it & Hit & Hid); [now left|].
    destruct Hinv as (Hsame & Htarget & Hlive).
    cbn [assemblePass].
    destruct (assignments !! c.1) as [p|] eqn:Hp.
    + assert (Hne : c.1 <> target) by congruence.
      destruct (appendChild_Returns p c.2 h) as [h1 Hh1].
      { eapply sameNodes_live; [exact Hsame|]. eapply Hlive; eassumption. }
      { eapply sameNodes_live; [exact Hsame|]. eauto. }
      rewrite Hh1. unfold_outcome.
      assert (Hsame1 : sameNodes h0 h1).
      { eapply sameNodes_trans; [exact Hsame|]. eapply appendChild_sameNodes; eassumption. }
      destruct (sameNodes_live h0 h1 c.2 Hsame1) as [ci Hci]; [eauto|].
      rewrite Hci.
      assert (Hidc : id ci = id it) by (symmetry; eapply sameNodes_id; eassumption).
      destruct (IH (<[id ci := c.2]> assignments) h1 Hrest) as (kept & a' & h' & Hrun & Hinv' & Hk & Ht).
      { split; [exact Hsame1|]. split.
        - rewrite lookup_insert_ne by congruence. exact Htarget.
        - intros k q Hq. destruct (decide (id ci = k)) as [<-|Hk].
          + rewrite lookup_insert_eq in Hq. inversion Hq; subst. eauto.
          + rewrite lookup_insert_ne in Hq by assumption. eapply Hlive; eassumption. }
      exists kept, a', h'. split; [exact Hrun|]. split; [exact Hinv'|]. split.
      * intros c' Hc'. right. now apply Hk.
      * intros c' Hc' Hc't. apply elem_of_cons in Hc' as [->|Hc']; [contradiction|].
        now apply Ht.
    + destruct (IH assignments h Hrest) as (kept & a' & h' & Hrun & Hinv' & Hk & Ht).
      { split; [exact Hsame|]. split; assumption. }
      rewrite Hrun. unfold_outcome.
      exists (c :: kept), a', h'. split; [reflexivity|]. split; [exact Hinv'|]. split.
      * intros c' Hc'. apply elem_of_cons in Hc' as [->|Hc']; [now left|right; now apply Hk].
      * intros c' Hc' Hc't. apply elem_of_cons in Hc' as [->|Hc']; [now left|].
        right. now apply Ht.
Qed.

Lemma assembleLoop_dangling (fuel : nat) :
  forall (categories : list (Z * addr)) (assignments : gmap Z positive) (h : Heap) c,
    c ∈ categories -> c.1 = target ->
    (forall c', c' ∈ categories -> exists it, h0 !! c'.2 = Some it /\ id it <> target) ->
    passInv h0 target assignments h ->
    assembleLoop fuel categories assignments h = Timeout.
Proof.
  induction fuel as [|n IH]; intros categories assignments h c Hc Hct Hcats Hinv.
  - destruct categories; [inversion Hc|reflexivity].
  - destruct categories as [|c0 rest]; [inversion Hc|].
    cbn [assembleLoop].
    destruct (assemblePass_dangling (c0 :: rest) assignments h Hcats Hinv)
      as (kept & a' & h' & Hrun & Hinv' & Hk & Ht).
    rewrite Hrun. unfold_outcome.
    apply (IH kept a' h' c); auto.
Qed.

End DanglingParent.

(** When some category of the list names a parent id that is neither the
    no-parent sentinel nor the id of any category of the list,
    assembleCategories is still running whatever the number of rounds granted:
    no round removes that category from the list, and the loop only ends on an
    empty list. *)
Lemma assembleCategories_dangling_parent_never_ends
    (root : addr) (categories : list (Z * addr)) (h : Heap) (c : Z * addr) :
  is_Some (h !! root) ->
  c ∈ categories ->
  c.1 <> NO_PARENT_CATEGORY ->
  (forall c', c' ∈ categories -> exists it, h !! c'.2 = Some it /\ id it <> c.1) ->
  forall fuel, assembleCategories fuel root categories h = Timeout.
Proof.
  intros Hroot Hc Hne Hcats fuel. unfold assembleCategories.
  apply (assembleLoop_dangling h c.1 fuel categories _ h c); auto.
  split; [apply sameNodes_refl|]. split.
  - now rewrite lookup_singleton_ne.
  - intros k p Hk. apply lookup_singleton_Some in Hk as [_ <-]. exact Hroot.
Qed.

(** ** Destroying a node *)

Lemma foldr_destroy_subseteq (n : nat) (cs : list addr) (h : Heap) :
  (forall x h', destroy n x h' ⊆ h') -> foldr (destroy n) h cs ⊆ h.
Proof.
  intros IH. induction cs as [|c cs IHcs]; simpl; [reflexivity|].
  etransitivity; [apply IH|exact IHcs].
Qed.

Lemma destroy_subseteq (n : nat) : forall (x : addr) (h : Heap), destroy n x h ⊆ h.
Proof.
  induction n as [|n IH]; intros x h; simpl; [reflexivity|].
  destruct (h !! x) as [it|]; [|reflexivity].
  etransitivity; [apply delete_subseteq|]. now apply foldr_destroy_subseteq.
Qed.

Lemma descendants_mono (n : nat) :
  forall (h1 h2 : Heap) (a x : addr),
    h1 ⊆ h2 -> x ∈ descendants n h1 a -> x ∈ descendants n h2 a.
Proof.
  induction n as [|n IH]; intros h1 h2 a x Hsub Hx; simpl in *; [exact Hx|].
  destruct (h1 !! a) as [it|] eqn:Ha; [|inversion Hx].
  rewrite (lookup_weaken _ _ _ _ Ha Hsub).
  apply list_elem_of_In, in_flat_map in Hx as (c & Hc & Hx).
  apply list_elem_of_In, in_flat_map. exists c. split; [exact Hc|].
  apply list_elem_of_In. apply list_elem_of_In in Hx.
  apply elem_of_cons in Hx as [->|Hx]; [now left|right].
  eapply IH; eassumption.
Qed.

Lemma destroy_frame (n : nat) :
  forall (x a : addr) (h : Heap),
    a <> x -> a ∉ descendants n h x -> destroy n x h !! a = h !! a.
Proof.
  induction n as [|n IH]; intros x a h Hne Hdesc; simpl in *; [reflexivity|].
  destruct (h !! x) as [it|] eqn:Hx; [|reflexivity].
  rewrite lookup_delete_ne by congruence.
  revert Hdesc. generalize (childItems it) as cs.
  induction cs as [|c cs IHcs]; intros Hdesc; simpl in *; [reflexivity|].
  assert (Hc : a <> c) by (intros ->; apply Hdesc; now left).
  assert (Hdc : a ∉ descendants n h c).
  { intros Hin. apply Hdesc. right. apply elem_of_app. now left. }
  assert (Hcs : a ∉ flat_map (fun c => c :: descendants n h c) cs).
  { intros Hin. apply Hdesc. right. apply elem_of_app. now right. }
  rewrite IH; [now apply IHcs|exact Hc|].
  intros Hin. apply Hdc. eapply descendants_mono; [|exact Hin].
  apply foldr_destroy_subseteq. intros; apply destroy_subseteq.
Qed.

Lemma deleteItem_gone (x : addr) (h : Heap) : deleteItem x h !! x = None.
Proof.
  unfold deleteItem. destruct (h !! x) as [it|] eqn:Hx.
  - destruct (size h) eqn:Hs.
    + apply map_size_empty_inv in Hs. subst. now rewrite lookup_empty in Hx.
    + simpl. rewrite Hx. apply lookup_delete_eq.
  - destruct (size h); simpl; rewrite ?Hx; reflexivity || exact Hx.
Qed.

Lemma deleteItem_frame (x a : addr) (h : Heap) :
  a <> x -> a ∉ getRecursiveChildren h x -> deleteItem x h !! a = h !! a.
Proof. apply destroy_frame. Qed.

(** ** Indexes of the tree *)

Lemma indexOf_elem (c : addr) (l : list addr) :
  c ∈ l -> 0 <= indexOf c l < Z.of_nat (length l)
           /\ l !! Z.to_nat (indexOf c l) = Some c.
Proof.
  induction l as [|x l IH]; intros Hin; [inversion Hin|].
  cbn [indexOf length]. destruct (decide (x = c)) as [->|Hne].
  - split; [lia|reflexivity].
  - apply elem_of_cons in Hin as [->|Hin]; [congruence|].
    destruct (IH Hin) as [Hb Hl].
    rewrite (proj2 (Z.ltb_ge _ _)) by lia. split; [lia|].
    replace (Z.to_nat (indexOf c l + 1)) with (S (Z.to_nat (indexOf c l))) by lia.
    exact Hl.
Qed.

Lemma foldOutcome_app {A B} (f : A -> B -> Outcome A) (a : A) (l1 l2 : list B) :
  foldOutcome f a (l1 ++ l2) = foldOutcome f a l1 ≫= fun a' => foldOutcome f a' l2.
Proof.
  revert a. induction l1 as [|x l1 IH]; intros a; [reflexivity|].
  cbn [foldOutcome app]. unfold mbind, Outcome_bind.
  destruct (f a x); try reflexivity. apply IH.
Qed.

Lemma Linked_root_kind (h : Heap) (root : addr) (path : list addr) (a : addr) :
  Linked h root path a -> exists r, h !! root = Some r /\ kind r = Root.
Proof. induction 1; eauto. Qed.

Lemma Linked_cases (h : Heap) (root : addr) (path : list addr) (a : addr) :
  Linked h root path a ->
  (path = [] /\ a = root /\ exists r, h !! root = Some r /\ kind r = Root)
  \/ (a <> root
      /\ exists it p pi, h !! a = Some it /\ kind it <> Root /\ parent it = Some p
                         /\ h !! p = Some pi /\ a ∈ childItems pi
                         /\ exists path', path = path' ++ [a] /\ Linked h root path' p).
Proof.
  intros Hl. pose proof (Linked_root_kind _ _ _ _ Hl) as (r & Hr & Hk).
  destruct Hl as [r' Hr' Hk'|path p pi a it Hl Hp Ha Hkind Hpar Hin].
  - left. eauto.
  - right. split.
    + intros ->. rewrite Hr in Ha. inversion Ha; subst. contradiction.
    + exists it, p, pi. eauto 10.
Qed.

(** The way from the root down to an item is the only one. *)
Lemma Linked_unique (h : Heap) (root : addr) (path1 : list addr) (a : addr) :
  Linked h root path1 a -> forall path2, Linked h root path2 a -> path1 = path2.
Proof.
  induction 1 as [r Hr Hk|path p pi a it Hl IH Hp Ha Hkind Hpar Hin]; intros path2 H2.
  - destruct (Linked_cases _ _ _ _ H2) as [(-> & _)|(Hne & _)]; [reflexivity|].
    now contradiction Hne.
  - destruct (Linked_cases _ _ _ _ H2)
      as [(_ & -> & r & Hr & Hk)
         |(_ & it' & p' & pi' & Ha' & _ & Hpar' & _ & _ & path' & -> & Hl')].
    + rewrite Hr in Ha. inversion Ha; subst. contradiction.
    + rewrite Ha in Ha'. inversion Ha'; subst it'.
      rewrite Hpar in Hpar'. inversion Hpar'; subst p'.
      now rewrite (IH path' Hl').
Qed.

Lemma Linked_prefix (h : Heap) (root : addr) (path : list addr) (a : addr) :
  Linked h root path a ->
  forall l1 x l2, path = l1 ++ x :: l2 -> Linked h root (l1 ++ [x]) x.
Proof.
  induction 1 as [r Hr Hk|path p pi a it Hl IH Hp Ha Hkind Hpar Hin]; intros l1 x l2 Heq.
  - now destruct l1.
  - destruct l2 as [|y l2 _] using rev_ind.
    + apply app_inj_tail in Heq as [-> ->]. eapply linked_child; eassumption.
    + change (x :: l2 ++ [y]) with ((x :: l2) ++ [y]) in Heq.
      rewrite app_assoc in Heq. apply app_inj_tail in Heq as [-> ->].
      eapply IH. reflexivity.
Qed.

Lemma Linked_NoDup (h : Heap) (root : addr) (path : list addr) (a : addr) :
  Linked h root path a ->
  NoDup path /\ forall x, x ∈ path -> is_Some (h !! x) /\ x <> root.
Proof.
  intros Hl. pose proof (Linked_root_kind _ _ _ _ Hl) as (r & Hr & Hk).
  induction Hl as [r' Hr' Hk'|path p pi a it Hl IH Hp Ha Hkind Hpar Hin].
  - split; [constructor|]. intros x Hx. inversion Hx.
  - destruct IH as [Hnd Hlive]. split.
    + apply NoDup_app. split; [exact Hnd|]. split; [|apply NoDup_singleton].
      intros x Hx Hxa. apply list_elem_of_singleton in Hxa. subst x.
      apply list_elem_of_split in Hx as (l1 & l2 & ->).
      pose proof (Linked_prefix _ _ _ _ Hl l1 a l2 eq_refl) as Hpre.
      assert (Hwhole : Linked h root ((l1 ++ a :: l2) ++ [a]) a)
        by (eapply linked_child; eassumption).
      pose proof (Linked_unique _ _ _ _ Hpre _ Hwhole) as Heq.
      apply (f_equal length) in Heq. rewrite !length_app in Heq. cbn in Heq. lia.
    + intros x Hx. apply elem_of_app in Hx as [Hx|Hx]; [now apply Hlive|].
      apply list_elem_of_singleton in Hx. subst x. split; [eauto|].
      intros ->. rewrite Hr in Ha. inversion Ha; subst. contradiction.
Qed.

(** The way down to an item is shorter than the memory has items. *)
Lemma Linked_length (h : Heap) (root : addr) (path : list addr) (a : addr) :
  Linked h root path a -> (length path < size h)%nat.
Proof.
  intros Hl. pose proof (Linked_root_kind _ _ _ _ Hl) as (r & Hr & Hk).
  destruct (Linked_NoDup _ _ _ _ Hl) as [Hnd Hlive].
  assert (Hall : NoDup (root :: path)).
  { apply NoDup_cons. split; [|exact Hnd]. intros Hin. now destruct (Hlive root Hin). }
  assert (Hsub : root :: path ⊆+ elements (dom h)).
  { apply NoDup_submseteq; [exact Hall|]. intros x Hx.
    apply elem_of_elements, elem_of_dom.
    apply elem_of_cons in Hx as [->|Hx]; [eauto|now apply Hlive]. }
  apply submseteq_length in Hsub. cbn [length] in Hsub.
  rewrite <- size_dom. unfold size, set_size. cbn. lia.
Qed.

Section TreeIndexFacts.
Context `{Persistence}.

Lemma chainToRoot_Linked (h : Heap) (root : addr) (path : list addr) (a : addr) :
  Linked h root path a ->
  forall fuel chain, (length path < fuel)%nat ->
    chainToRoot fuel h a chain = Returns (path ++ chain).
Proof.
  induction 1 as [r Hr Hk|path p pi a it Hl IH Hp Ha Hk Hpar Hin];
    intros fuel chain Hfuel.
  - destruct fuel as [|n]; [cbn in Hfuel; lia|]. cbn. unfold_outcome.
    rewrite Hr. now rewrite decide_True by assumption.
  - rewrite length_app in Hfuel. cbn in Hfuel.
    destruct fuel as [|n]; [lia|]. cbn. unfold_outcome. rewrite Ha.
    rewrite decide_False by assumption. rewrite Hpar.
    rewrite IH by lia. now rewrite <- app_assoc.
Qed.

Lemma feedsIndex_child (m : FeedsModel) (r c : Z) (parent_index : ModelIndex)
    (pi : RootItem) (child_item : addr) :
  column parent_index <= 0 ->
  items m !! itemForIndex m (forgetColumn parent_index) = Some pi ->
  0 <= r -> childItems pi !! Z.to_nat r = Some child_item ->
  0 <= c < FEEDS_VIEW_COLUMN_COUNT ->
  feedsIndex m r c parent_index = Returns (createIndex r c child_item).
Proof.
  intros Hcol Hp Hr Hat Hc.
  assert (Hlen : r < Z.of_nat (length (childItems pi))).
  { apply lookup_lt_Some in Hat. lia. }
  unfold feedsIndex, hasIndex, feedsRowCount, feedsColumnCount. unfold_outcome.
  rewrite (proj2 (Z.ltb_ge r 0)), (proj2 (Z.ltb_ge c 0)) by lia. cbn [orb].
  rewrite (proj2 (Z.ltb_ge 0 (column parent_index))) by lia.
  rewrite Hp.
  rewrite (proj2 (Z.ltb_lt r _)), (proj2 (Z.ltb_lt c _)) by lia. cbn [andb negb].
  now rewrite Hat.
Qed.

(** The index that the walk down a path ends with. *)
Lemma descend_Linked (m : FeedsModel) (path : list addr) (a : addr) :
  Linked (items m) (m_rootItem m) path a ->
  exists index,
    foldOutcome (descend m) InvalidModelIndex path = Returns index
    /\ itemForIndex m (forgetColumn index) = a
    /\ column index <= 0
    /\ (path = [] -> index = InvalidModelIndex)
    /\ (forall it p pi, items m !! a = Some it -> parent it = Some p ->
                        items m !! p = Some pi -> kind it <> Root ->
                        index = createIndex (indexOf a (childItems pi)) 0 a).
Proof.
  induction 1 as [r Hr Hk|path p pi a it Hl IH Hp Ha Hk Hpar Hin].
  - exists InvalidModelIndex. cbn. repeat split; try lia; try reflexivity.
    intros it p pi Hit _ _ Hkind. congruence.
  - destruct IH as (target & Hfold & Hitem & Hcol & _).
    exists (createIndex (indexOf a (childItems pi)) 0 a).
    destruct (indexOf_elem a (childItems pi) Hin) as [Hb Hat].
    split; [|split; [reflexivity|split; [cbn; lia|split]]].
    + rewrite foldOutcome_app, Hfold. cbn [mbind Outcome_bind foldOutcome].
      unfold descend. unfold_outcome. rewrite Ha, Hpar, Hp.
      rewrite (feedsIndex_child m _ 0 target pi a); try lia; try assumption.
      * reflexivity.
      * now rewrite Hitem.
      * vm_compute. split; congruence.
    + intros Hnil. now destruct path.
    + intros it' p' pi' Hit' Hpar' Hp' _.
      rewrite Ha in Hit'. inversion Hit'; subst it'.
      rewrite Hpar in Hpar'. inversion Hpar'; subst p'.
      rewrite Hp in Hp'. inversion Hp'; subst pi'. reflexivity.
Qed.

Lemma indexForItemWithin_root (m : FeedsModel) (r : RootItem) fuel :
  items m !! m_rootItem m = Some r -> kind r = Root ->
  indexForItemWithin (S fuel) m (Some (m_rootItem m)) = Returns InvalidModelIndex.
Proof.
  intros Hr Hk. cbn. unfold_outcome. rewrite Hr. now rewrite decide_True by assumption.
Qed.

Lemma indexForItemWithin_Linked (m : FeedsModel) (path : list addr) (a : addr)
    (fuel : nat) :
  Linked (items m) (m_rootItem m) path a ->
  (length path + 1 < fuel)%nat ->
  indexForItemWithin fuel m (Some a) = foldOutcome (descend m) InvalidModelIndex path.
Proof.
  intros Hl Hfuel. destruct (Linked_root_kind _ _ _ _ Hl) as (r & Hr & Hk).
  destruct fuel as [|n]; [lia|].
  destruct (Linked_cases _ _ _ _ Hl)
    as [(-> & -> & _)|(_ & it & p & pi & Ha & Hkind & Hpar & _)].
  - now apply indexForItemWithin_root with (r := r).
  - cbn [indexForItemWithin]. unfold mbind at 1. unfold Outcome_bind at 1.
    unfold deref at 1. rewrite Ha. rewrite decide_False by assumption.
    rewrite (chainToRoot_Linked _ _ _ _ Hl) by lia.
    destruct n as [|n]; [lia|].
    cbn [mbind Outcome_bind]. rewrite (indexForItemWithin_root m r n Hr Hk).
    cbn [mbind Outcome_bind]. now rewrite app_nil_r.
Qed.

(** indexForItem on the items linked to the root: the index computed leads
    back to the item; it is the invalid index for the root and otherwise
    names the position of the item among the children of its parent, in
    column 0. *)
Lemma indexForItem_Linked (m : FeedsModel) (path : list addr) (item : addr) :
  Linked (items m) (m_rootItem m) path item ->
  exists index,
    indexForItem m (Some item) = Returns index
    /\ itemForIndex m (forgetColumn index) = item
    /\ (item = m_rootItem m -> index = InvalidModelIndex)
    /\ (forall it p pi, items m !! item = Some it -> parent it = Some p ->
                        items m !! p = Some pi -> kind it <> Root ->
                        index = createIndex (indexOf item (childItems pi)) 0 item).
Proof.
  intros Hl. pose proof (Linked_length _ _ _ _ Hl) as Hlen.
  unfold indexForItem. rewrite (indexForItemWithin_Linked m path item _ Hl) by lia.
  destruct (descend_Linked m path item Hl) as (index & Hfold & Hitem & _ & Hnil & Hcell).
  exists index. split; [exact Hfold|]. split; [exact Hitem|]. split; [|exact Hcell].
  intros Hroot. apply Hnil.
  destruct (Linked_cases _ _ _ _ Hl) as [(-> & _)|(Hne & _)]; [reflexivity|contradiction].
Qed.



End TreeIndexFacts.

(** ** Structural mutations *)

Section StructuralMutations.
Context `{Persistence}.


Lemma addCategory_atomic (category parent_item : addr) (m m' : FeedsModel) (b : bool) :
  addCategory category parent_item m = Returns (b, m') ->
  InsertOutcome category parent_item m b m'.
Proof.
  unfold InsertOutcome, addCategory.
  destruct (indexForItem m (Some parent_item)) as [parent_index| | |] eqn:Hidx;
    try discriminate.
  cbn [mbind Outcome_bind]. unfold_outcome.
  destruct (items m !! parent_item) as [pi|] eqn:Hp; [|discriminate].
  destruct (addItself (store m) (items m) category parent_item) as [result st] eqn:Hadd.
  destruct result; simpl.
  - destruct (appendChild parent_item category (items m)) as [h| | |] eqn:Happ;
      try discriminate.
    unfold_outcome. intros [= <- <-]. split; [reflexivity|]. split; [|discriminate].
    intros _. apply appendChild_inv in Happ as (pi0 & ci & Hp0 & Hc & ->).
    rewrite Hp in Hp0. inversion Hp0; subst pi0; clear Hp0. simpl.
    destruct (decide (parent_item = category)) as [Heq|Hne].
    + subst category. rewrite lookup_insert_eq in Hc. inversion Hc; subst ci; clear Hc.
      eexists pi, pi, _, _, parent_index. rewrite lookup_insert_eq.
      split; [reflexivity|].
      repeat (split; [reflexivity || assumption || apply last_snoc|]).
      split; [|now rewrite <- app_assoc].
      intros a Ha _. now rewrite !lookup_insert_ne by congruence.
    + rewrite lookup_insert_ne in Hc by assumption.
      eexists pi, ci, _, _, parent_index. rewrite lookup_insert_eq.
      rewrite lookup_insert_ne, lookup_insert_eq by congruence.
      split; [reflexivity|].
      repeat (split; [reflexivity || assumption || apply last_snoc|]).
      split; [|now rewrite <- app_assoc].
      intros a Ha Hb. now rewrite !lookup_insert_ne by congruence.
  - intros [= <- <-]. split; [reflexivity|]. split; [discriminate|].
    intros _. simpl. split; [reflexivity|]. split; [apply deleteItem_gone|].
    split; [|reflexivity]. intros a Ha Hd. now apply deleteItem_frame.
Qed.

Lemma addFeed_addCategory (feed parent_item : addr) (m : FeedsModel) :
  addFeed feed parent_item m = addCategory feed parent_item m.
Proof. reflexivity. Qed.




End StructuralMutations.

(** The category "Tech" of the sample tree hangs under the root, also when
    a feed just created waits beside the tree. *)
Lemma sample_category_Linked (h : Heap) :
  h !! 1%positive = Some (rootNode [3; 5; 6; 2]%positive) ->
  h !! 3%positive = Some (categoryNode 10 "Tech" [4%positive] (Some 1%positive)) ->
  Linked h 1%positive [3%positive] 3%positive.
Proof.
  intros Hroot Htech. change [3%positive] with ([] ++ [3%positive]).
  eapply linked_child with (path := []) (p := 1%positive).
  - eapply linked_root; [exact Hroot|reflexivity].
  - exact Hroot.
  - exact Htech.
  - discriminate.
  - reflexivity.
  - by_computation.
Qed.


(** ** The place of the recycle bin *)

Lemma appendChild_lookup p c (h h1 : Heap) :
  appendChild p c h = Returns h1 -> forall a, h1 !! a = appended p c a <$> (h !! a).
Proof.
  intros Ha a. apply appendChild_inv in Ha as (pi & ci & Hp & Hc & ->).
  unfold appended.
  destruct (decide (a = c)) as [Hac|Hac], (decide (a = p)) as [Hap|Hap]; subst;
    rewrite ?lookup_insert_eq in *;
    rewrite ?lookup_insert_ne in * by congruence;
    rewrite ?lookup_insert_eq in *.
  - inversion Hc; subst. now rewrite Hp.
  - now rewrite Hc.
  - now rewrite Hp.
  - now destruct (h !! a).
Qed.

Lemma removeChild_lookup p c (h h1 : Heap) :
  removeChild p c h = Returns h1 -> forall a, h1 !! a = removed p c a <$> (h !! a).
Proof.
  unfold removeChild. unfold_outcome.
  destruct (h !! p) as [pi|] eqn:Hp; [|discriminate]. intros [= <-] a.
  unfold removed. destruct (decide (a = p)) as [->|Hap].
  - now rewrite lookup_insert_eq, Hp.
  - rewrite lookup_insert_ne by congruence. now destruct (h !! a).
Qed.

Lemma childItems_appended p c a it :
  childItems (appended p c a it) = childItems it ++ (if decide (a = p) then [c] else []).
Proof.
  unfold appended. destruct (decide (a = p)), (decide (a = c)); simpl;
    rewrite ?app_nil_r; reflexivity.
Qed.

Lemma parent_appended p c a it :
  parent (appended p c a it) = if decide (a = c) then Some p else parent it.
Proof.
  unfold appended. destruct (decide (a = p)), (decide (a = c)); reflexivity.
Qed.

Lemma childItems_removed p c a it :
  childItems (removed p c a it)
  = if decide (a = p) then removeOne c (childItems it) else childItems it.
Proof. unfold removed. destruct (decide (a = p)); reflexivity. Qed.

Lemma parent_removed p c a it : parent (removed p c a it) = parent it.
Proof. unfold removed. destruct (decide (a = p)); reflexivity. Qed.

Lemma removeOne_elem c x (l : list addr) : x ∈ removeOne c l -> x ∈ l.
Proof.
  induction l as [|y l IH]; simpl; [auto|].
  destruct (decide (y = c)); intros Hx.
  - now right.
  - apply elem_of_cons in Hx as [->|Hx]; [now left|right; auto].
Qed.

Lemma last_removeOne c b (l : list addr) :
  last l = Some b -> c <> b -> last (removeOne c l) = Some b.
Proof.
  induction l as [|y l IH]; simpl; [discriminate|]. intros Hl Hcb.
  destruct l as [|z l].
  - inversion Hl; subst. now rewrite decide_False by congruence.
  - destruct (decide (y = c)); [exact Hl|].
    specialize (IH Hl Hcb). simpl in *.
    destruct (decide (z = c)).
    + destruct l; [discriminate|exact IH].
    + exact IH.
Qed.

Lemma root_not_descendant root (h : Heap) (n : nat) :
  (forall a it, h !! a = Some it -> root ∉ childItems it) ->
  forall x, root ∉ descendants n h x.
Proof.
  intros Hclean. induction n as [|n IH]; intros x Hin; simpl in Hin; [inversion Hin|].
  destruct (h !! x) as [it|] eqn:Hx; [|inversion Hin].
  apply list_elem_of_In, in_flat_map in Hin as (c & Hc & Hin).
  apply list_elem_of_In in Hc, Hin.
  apply elem_of_cons in Hin as [->|Hin].
  - eapply Hclean; eassumption.
  - eapply IH; eassumption.
Qed.

Lemma appendChild_rootClean root p c (h h1 : Heap) :
  rootClean root h -> c <> root -> appendChild p c h = Returns h1 -> rootClean root h1.
Proof.
  intros [(r & Hr & Hpar) Hclean] Hc Ha.
  pose proof (appendChild_lookup _ _ _ _ Ha) as Hl. split.
  - exists (appended p c root r). rewrite Hl, Hr. split; [reflexivity|].
    rewrite parent_appended. now rewrite decide_False by congruence.
  - intros a it' Hit'. rewrite Hl in Hit'.
    destruct (h !! a) as [it|] eqn:Hit; [|discriminate].
    inversion Hit'; subst it'. rewrite childItems_appended.
    intros Hin. apply elem_of_app in Hin as [Hin|Hin].
    + eapply Hclean; eassumption.
    + destruct (decide (a = p)); [|inversion Hin].
      apply list_elem_of_singleton in Hin. congruence.
Qed.

Lemma appendChild_binInv root bin p c (h h1 : Heap) :
  binInv root bin h -> c <> root -> p <> root ->
  appendChild p c h = Returns h1 -> binInv root bin h1.
Proof.
  intros (Hclean & Hne & r & Hr & Hlast) Hc Hp Ha.
  split; [exact (appendChild_rootClean _ _ _ _ _ Hclean Hc Ha)|]. split; [exact Hne|].
  exists (appended p c root r). rewrite (appendChild_lookup _ _ _ _ Ha), Hr.
  split; [reflexivity|]. rewrite childItems_appended.
  rewrite decide_False by congruence. now rewrite app_nil_r.
Qed.

Lemma appendChild_bin_last root bin (h h1 : Heap) :
  rootClean root h -> root <> bin -> appendChild root bin h = Returns h1 ->
  binInv root bin h1.
Proof.
  intros Hclean Hne Ha.
  split; [apply (appendChild_rootClean _ _ _ _ _ Hclean) in Ha; [exact Ha|congruence]|].
  split; [exact Hne|].
  destruct Hclean as [(r & Hr & _) _].
  exists (appended root bin root r). rewrite (appendChild_lookup _ _ _ _ Ha), Hr.
  split; [reflexivity|]. rewrite childItems_appended.
  rewrite decide_True by reflexivity. apply last_snoc.
Qed.

Lemma removeChild_binInv root bin p c (h h1 : Heap) :
  binInv root bin h -> c <> bin -> removeChild p c h = Returns h1 -> binInv root bin h1.
Proof.
  intros ([(r & Hr & Hpar) Hclean] & Hne & r' & Hr' & Hlast) Hc Ha.
  rewrite Hr in Hr'. inversion Hr'; subst r'; clear Hr'.
  pose proof (removeChild_lookup _ _ _ _ Ha) as Hl.
  split; [split|split; [exact Hne|]].
  - exists (removed p c root r). rewrite Hl, Hr. split; [reflexivity|].
    now rewrite parent_removed.
  - intros a it' Hit'. rewrite Hl in Hit'.
    destruct (h !! a) as [it|] eqn:Hit; [|discriminate].
    inversion Hit'; subst it'. rewrite childItems_removed.
    destruct (decide (a = p)); [|eapply Hclean; eassumption].
    intros Hin. apply removeOne_elem in Hin. eapply Hclean; eassumption.
  - exists (removed p c root r). rewrite Hl, Hr. split; [reflexivity|].
    rewrite childItems_removed. destruct (decide (root = p)); [|exact Hlast].
    now apply last_removeOne.
Qed.

Lemma deleteItem_binInv root bin x (h : Heap) :
  binInv root bin h -> x <> root -> binInv root bin (deleteItem x h).
Proof.
  intros ([(r & Hr & Hpar) Hclean] & Hne & r' & Hr' & Hlast) Hx.
  assert (Hroot : deleteItem x h !! root = h !! root).
  { apply deleteItem_frame; [congruence|]. now apply root_not_descendant. }
  assert (Hsub : deleteItem x h ⊆ h) by apply destroy_subseteq.
  split; [split|split; [exact Hne|]].
  - exists r. now rewrite Hroot.
  - intros a it Hit. eapply Hclean. eapply lookup_weaken; eassumption.
  - exists r'. now rewrite Hroot.
Qed.

Lemma alloc_fresh (it : RootItem) (h : Heap) : h !! (alloc it h).1 = None.
Proof. simpl. apply not_elem_of_dom. apply is_fresh. Qed.

Lemma alloc_rootClean root it (h : Heap) :
  rootClean root h -> root ∉ childItems it ->
  (alloc it h).1 <> root /\ rootClean root (alloc it h).2.
Proof.
  intros [(r & Hr & Hpar) Hclean] Hit.
  pose proof (alloc_fresh it h) as Hfresh. simpl in *.
  assert (Hne : fresh (dom h) <> root) by congruence.
  split; [exact Hne|]. split.
  - exists r. now rewrite lookup_insert_ne.
  - intros a it' Ha. destruct (decide (fresh (dom h) = a)) as [<-|Hna].
    + rewrite lookup_insert_eq in Ha. now inversion Ha; subst.
    + rewrite lookup_insert_ne in Ha by assumption. eapply Hclean; eassumption.
Qed.

Lemma alloc_binInv root bin it (h : Heap) :
  binInv root bin h -> root ∉ childItems it ->
  (alloc it h).1 <> root /\ binInv root bin (alloc it h).2.
Proof.
  intros (Hclean & Hne & r & Hr & Hlast) Hit.
  destruct (alloc_rootClean root it h Hclean Hit) as [Ha Hc].
  split; [exact Ha|]. split; [exact Hc|]. split; [exact Hne|].
  exists r. simpl in *. now rewrite lookup_insert_ne.
Qed.

Section RecycleBinPlace.
Context `{Persistence}.

Lemma addCategory_true (category parent_item : addr) (m m' : FeedsModel) :
  addCategory category parent_item m = Returns (true, m') ->
  appendChild parent_item category (items m) = Returns (items m')
  /\ m_rootItem m' = m_rootItem m /\ m_recycleBin m' = m_recycleBin m.
Proof.
  unfold addCategory.
  destruct (indexForItem m (Some parent_item)) as [parent_index| | |]; try discriminate.
  cbn [mbind Outcome_bind]. unfold_outcome.
  destruct (items m !! parent_item) as [pi|]; [|discriminate].
  destruct (addItself _ _ _ _) as [[] st]; simpl; [|discriminate].
  destruct (appendChild parent_item category (items m)) as [h| | |]; try discriminate.
  intros [= <-]. auto.
Qed.

Lemma removeItem_true (index : QModelIndex) (m m' : FeedsModel) :
  removeItem index m = Returns (true, m') ->
  exists row node it p h1,
    index = ItemIndex row node
    /\ items m !! node = Some it /\ parent it = Some p
    /\ removeChild p node (items m) = Returns h1
    /\ items m' = deleteItem node h1
    /\ m_rootItem m' = m_rootItem m /\ m_recycleBin m' = m_recycleBin m.
Proof.
  unfold removeItem. destruct index as [|row node]; [unfold_outcome; discriminate|].
  destruct (parentIndex m (ItemIndex row node)) as [parent_index| | |]; try discriminate.
  cbn [mbind Outcome_bind itemForIndex]. unfold_outcome.
  destruct (items m !! node) as [it|] eqn:Hnode; [|discriminate].
  destruct (removeItself _ _ _) as [[] st]; [|discriminate].
  destruct (parent it) as [p|] eqn:Hp; [|discriminate]. simpl.
  destruct (removeChild p node (items m)) as [h1| | |] eqn:Hrm; try discriminate.
  intros [= <-]. exists row, node, it, p, h1. auto 10.
Qed.

Lemma reassignNodeToNewParent_Returns (original_node new_parent : addr) (m m' : FeedsModel) :
  reassignNodeToNewParent original_node new_parent m = Returns m' ->
  m_rootItem m' = m_rootItem m /\ m_recycleBin m' = m_recycleBin m
  /\ (items m' = items m
      \/ exists it o h1,
           items m !! original_node = Some it /\ parent it = Some o
           /\ removeChild o original_node (items m) = Returns h1
           /\ appendChild new_parent original_node h1 = Returns (items m')).
Proof.
  unfold reassignNodeToNewParent. unfold_outcome.
  destruct (items m !! original_node) as [it|] eqn:Hn; [|discriminate].
  destruct (decide (parent it = Some new_parent)) as [Heq|Hne].
  - intros [= <-]. auto.
  - destruct (parent it) as [o|] eqn:Hpar; [|discriminate].
    destruct (items m !! o) as [opi|]; [|discriminate].
    destruct (items m !! new_parent) as [npi|]; [|discriminate].
    destruct (indexForItem m (Some o)) as [original_parent_index| | |]; try discriminate.
    simpl.
    destruct (removeChild o original_node (items m)) as [h1| | |] eqn:Hrm;
      try discriminate.
    match goal with
    | |- context [indexForItem ?m1 (Some new_parent)] =>
        destruct (indexForItem m1 (Some new_parent)) as [new_parent_index| | |];
          try discriminate
    end.
    simpl.
    destruct (appendChild new_parent original_node h1) as [h2| | |] eqn:Happ;
      try discriminate.
    intros [= <-]. simpl. split; [reflexivity|]. split; [reflexivity|].
    right. exists it, o, h1. auto.
Qed.

Lemma mutate_binInv (op : Mutation) (m m' : FeedsModel) :
  binInv (m_rootItem m) (m_recycleBin m) (items m) ->
  keepsClear (m_rootItem m) (m_recycleBin m) op ->
  mutate op m = Returns (true, m') ->
  binInv (m_rootItem m') (m_recycleBin m') (items m')
  /\ m_rootItem m' = m_rootItem m /\ m_recycleBin m' = m_recycleBin m.
Proof.
  intros Hinv Hclear Hrun. destruct op as [row p|row p|index|n p]; simpl in *.
  - apply addCategory_true in Hrun as (Happ & Hr & Hb). simpl in *.
    rewrite Hr, Hb. split; [|auto].
    destruct (alloc_binInv _ _ (StandardCategory row) _ Hinv) as [Hfresh Hinv'];
      [simpl; apply not_elem_of_nil|].
    eapply appendChild_binInv; [exact Hinv'|exact Hfresh|exact Hclear|exact Happ].
  - rewrite addFeed_addCategory in Hrun.
    apply addCategory_true in Hrun as (Happ & Hr & Hb). simpl in *.
    rewrite Hr, Hb. split; [|auto].
    destruct (alloc_binInv _ _ (StandardFeed row) _ Hinv) as [Hfresh Hinv'];
      [simpl; apply not_elem_of_nil|].
    eapply appendChild_binInv; [exact Hinv'|exact Hfresh|exact Hclear|exact Happ].
  - apply removeItem_true in Hrun
      as (row & node & it & p & h1 & -> & Hnode & Hpar & Hrm & Hitems & Hr & Hb).
    rewrite Hr, Hb, Hitems. split; [|auto].
    assert (Hnb : node <> m_recycleBin m) by (intros ->; now apply (Hclear row)).
    assert (Hnr : node <> m_rootItem m).
    { intros ->. destruct Hinv as ([(r & Hroot & Hnone) _] & _). congruence. }
    apply deleteItem_binInv; [|exact Hnr].
    eapply removeChild_binInv; [exact Hinv|exact Hnb|exact Hrm].
  - destruct (reassignNodeToNewParent n p m) as [m1| | |] eqn:Hre; try discriminate.
    unfold_outcome. inversion Hrun; subst m1; clear Hrun.
    apply reassignNodeToNewParent_Returns in Hre as (Hr & Hb & Hcases).
    rewrite Hr, Hb. split; [|auto]. destruct Hclear as [Hp Hn].
    destruct Hcases as [->|(it & o & h1 & Hnode & Hpar & Hrm & Happ)]; [exact Hinv|].
    assert (Hnr : n <> m_rootItem m).
    { intros ->. destruct Hinv as ([(r & Hroot & Hnone) _] & _). congruence. }
    eapply appendChild_binInv; [|exact Hnr|exact Hp|exact Happ].
    eapply removeChild_binInv; [exact Hinv|exact Hn|exact Hrm].
Qed.

Lemma mutateAll_binInv (ops : list Mutation) :
  forall (m m' : FeedsModel),
    binInv (m_rootItem m) (m_recycleBin m) (items m) ->
    Forall (keepsClear (m_rootItem m) (m_recycleBin m)) ops ->
    mutateAll ops m = Returns (true, m') ->
    binInv (m_rootItem m') (m_recycleBin m') (items m').
Proof.
  induction ops as [|op ops IH]; intros m m' Hinv Hclear Hrun; simpl in Hrun.
  - unfold_outcome. inversion Hrun; subst. exact Hinv.
  - unfold_outcome. apply Forall_cons in Hclear as [Hop Hclear].
    destruct (mutate op m) as [[ok m1]| | |] eqn:Hm; try discriminate.
    simpl in Hrun. destruct ok; [|discriminate].
    destruct (mutate_binInv _ _ _ Hinv Hop Hm) as (Hinv1 & Hr & Hb).
    apply (IH m1 m' Hinv1); [|exact Hrun]. now rewrite Hr, Hb.
Qed.

End RecycleBinPlace.

(** ** The tree just loaded *)

Lemma loadCategoryRows_clean root (rows : list CategoryRow) :
  forall (categories categories' : list (Z * addr)) (h h' : Heap),
    rootClean root h ->
    (forall c, c ∈ categories -> c.2 <> root) ->
    foldl loadCategoryRow (categories, h) rows = (categories', h') ->
    rootClean root h' /\ (forall c, c ∈ categories' -> c.2 <> root).
Proof.
  induction rows as [|row rows IH]; intros categories categories' h h' Hclean Hcs Hrun;
    cbn [foldl] in Hrun.
  - inversion Hrun; subst. auto.
  - destruct (alloc_rootClean root (StandardCategory row) h Hclean) as [Hfresh Hclean'];
      [apply not_elem_of_nil|].
    eapply IH; [exact Hclean'| |exact Hrun].
    intros c Hc. apply elem_of_app in Hc as [Hc|Hc]; [now apply Hcs|].
    apply list_elem_of_singleton in Hc. subst c. exact Hfresh.
Qed.

Lemma loadFeedRows_clean root (rows : list FeedRow) :
  forall (feeds feeds' : list (Z * addr)) (h h' : Heap),
    rootClean root h ->
    (forall c, c ∈ feeds -> c.2 <> root) ->
    foldl loadFeedRow (feeds, h) rows = (feeds', h') ->
    rootClean root h' /\ (forall c, c ∈ feeds' -> c.2 <> root).
Proof.
  induction rows as [|row rows IH]; intros feeds feeds' h h' Hclean Hcs Hrun;
    cbn [foldl] in Hrun.
  - inversion Hrun; subst. auto.
  - unfold loadFeedRow at 2 in Hrun. destruct (feed_type row).
    + destruct (alloc_rootClean root (StandardFeed row) h Hclean) as [Hfresh Hclean'];
        [apply not_elem_of_nil|].
      eapply IH; [exact Hclean'| |exact Hrun].
      intros c Hc. apply elem_of_app in Hc as [Hc|Hc]; [now apply Hcs|].
      apply list_elem_of_singleton in Hc. subst c. exact Hfresh.
    + eapply IH; eassumption.
Qed.

Lemma assemblePass_clean root (categories : list (Z * addr)) :
  forall (assignments assignments' : gmap Z positive) (h h' : Heap) kept,
    rootClean root h ->
    (forall c, c ∈ categories -> c.2 <> root) ->
    assemblePass categories assignments h = Returns (kept, assignments', h') ->
    rootClean root h' /\ (forall c, c ∈ kept -> c.2 <> root).
Proof.
  induction categories as [|c rest IH]; intros assignments assignments' h h' kept
    Hclean Hcs Hrun; cbn [assemblePass] in Hrun.
  - unfold_outcome. inversion Hrun; subst. split; [exact Hclean|].
    intros c Hc. inversion Hc.
  - assert (Hrest : forall c', c' ∈ rest -> c'.2 <> root) by (intros; apply Hcs; now right).
    destruct (assignments !! c.1) as [p|].
    + destruct (appendChild p c.2 h) as [h1| | |] eqn:Happ; try discriminate.
      unfold_outcome. destruct (h1 !! c.2) as [ci|]; [|discriminate].
      eapply IH; [|exact Hrest|exact Hrun].
      eapply appendChild_rootClean; [exact Hclean| |exact Happ]. apply Hcs. now left.
    + destruct (assemblePass rest assignments h) as [[[kept0 a0] h0]| | |] eqn:Hpass;
        try discriminate.
      unfold_outcome. inversion Hrun; subst.
      destruct (IH _ _ _ _ _ Hclean Hrest Hpass) as [Hclean' Hkept].
      split; [exact Hclean'|]. intros c' Hc'.
      apply elem_of_cons in Hc' as [->|Hc']; [apply Hcs; now left|now apply Hkept].
Qed.

Lemma assembleLoop_clean root (fuel : nat) :
  forall (categories : list (Z * addr)) (assignments : gmap Z positive) (h h' : Heap),
    rootClean root h ->
    (forall c, c ∈ categories -> c.2 <> root) ->
    assembleLoop fuel categories assignments h = Returns h' ->
    rootClean root h'.
Proof.
  induction fuel as [|n IH]; intros categories assignments h h' Hclean Hcs Hrun.
  - destruct categories; simpl in Hrun; [|discriminate].
    unfold_outcome. inversion Hrun; subst. exact Hclean.
  - destruct categories as [|c rest].
    + simpl in Hrun. unfold_outcome. inversion Hrun; subst. exact Hclean.
    + cbn [assembleLoop] in Hrun.
      destruct (assemblePass (c :: rest) assignments h) as [[[kept a'] h1]| | |] eqn:Hpass;
        try discriminate.
      unfold_outcome.
      destruct (assemblePass_clean _ _ _ _ _ _ _ Hclean Hcs Hpass) as [Hclean1 Hkept].
      eapply IH; eassumption.
Qed.

Lemma assembleFeeds_clean root (fuel : nat) (feeds : list (Z * addr)) (h h' : Heap) :
  rootClean root h ->
  (forall c, c ∈ feeds -> c.2 <> root) ->
  assembleFeeds fuel root feeds h = Returns h' ->
  rootClean root h'.
Proof.
  unfold assembleFeeds. intros Hclean Hfs.
  destruct (categoriesForItem fuel h root) as [categories| | |]; try discriminate.
  unfold_outcome. revert h Hclean.
  induction feeds as [|f rest IH]; intros h Hclean Hrun; simpl in Hrun.
  - unfold_outcome. inversion Hrun; subst. exact Hclean.
  - unfold_outcome.
    destruct (assembleFeed root categories h f) as [h1| | |] eqn:Hf; try discriminate.
    assert (Hrest : forall c, c ∈ rest -> c.2 <> root) by (intros; apply Hfs; now right).
    apply (IH Hrest h1); [|exact Hrun].
    unfold assembleFeed in Hf. unfold_outcome.
    assert (Hne : f.2 <> root) by (apply Hfs; now left).
    destruct (decide (f.1 = NO_PARENT_CATEGORY)).
    + eapply appendChild_rootClean; eassumption.
    + destruct (categories !! f.1).
      * eapply appendChild_rootClean; eassumption.
      * inversion Hf; subst. exact Hclean.
Qed.

Section FreshTree.
Context `{Persistence}.

Lemma newFeedsModel_binInv (fuel : nat) (db : Database) (st : Store) (m : FeedsModel) :
  newFeedsModel fuel db st = Returns m ->
  binInv (m_rootItem m) (m_recycleBin m) (items m).
Proof.
  unfold newFeedsModel, loadFromDatabase.
  set (binNode0 := mkItem Bin 0 "Recycle bin" [] None DontAutoUpdate 0 0).
  set (rootNode0 := mkItem Root NO_PARENT_CATEGORY "Root" [] None DontAutoUpdate 0 0).
  cbn [alloc]. set (bin := fresh (dom (∅ : Heap))).
  set (h1 := <[bin := binNode0]> (∅ : Heap)).
  set (root := fresh (dom h1)). set (h2 := <[root := rootNode0]> h1).
  assert (Hne : root <> bin).
  { intros Heq. pose proof (is_fresh (dom h1)) as Hf. fold root in Hf.
    apply Hf. rewrite Heq. apply elem_of_dom. unfold h1. rewrite lookup_insert_eq. eauto. }
  cbn [items m_rootItem m_recycleBin]. unfold_outcome.
  assert (Hroot : h2 !! root = Some rootNode0) by apply lookup_insert_eq.
  rewrite Hroot. cbn [childItems rootNode0 qDeleteAll foldl].
  unfold clearChildren. unfold_outcome. rewrite Hroot.
  set (h3 := <[root := setChildItems [] rootNode0]> h2).
  assert (Hclean3 : rootClean root h3).
  { split.
    - exists (setChildItems [] rootNode0). unfold h3. now rewrite lookup_insert_eq.
    - intros a it Ha. unfold h3, h2, h1 in Ha.
      destruct (decide (root = a)) as [<-|Hra].
      + rewrite lookup_insert_eq in Ha. inversion Ha; subst. apply not_elem_of_nil.
      + rewrite !lookup_insert_ne in Ha by assumption.
        destruct (decide (bin = a)) as [<-|Hba].
        * rewrite lookup_insert_eq in Ha. inversion Ha; subst. apply not_elem_of_nil.
        * rewrite lookup_insert_ne in Ha by assumption. now rewrite lookup_empty in Ha. }
  destruct (query_categories db) as [category_rows|]; [|discriminate]. simpl.
  destruct (foldl loadCategoryRow ([], h3) category_rows) as [categories h4] eqn:Hcats.
  destruct (loadCategoryRows_clean root _ _ _ _ _ Hclean3 (fun c Hc => match not_elem_of_nil _ Hc with end) Hcats)
    as [Hclean4 Hcs].
  destruct (query_feeds db) as [feed_rows|]; [|discriminate]. simpl.
  destruct (foldl loadFeedRow ([], h4) feed_rows) as [feeds h5] eqn:Hfeeds.
  destruct (loadFeedRows_clean root _ _ _ _ _ Hclean4 (fun c Hc => match not_elem_of_nil _ Hc with end) Hfeeds)
    as [Hclean5 Hfs].
  destruct (assembleCategories fuel root categories h5) as [h6| | |] eqn:Hac; try discriminate.
  apply (assembleLoop_clean root _ _ _ _ _ Hclean5 Hcs) in Hac.
  destruct (assembleFeeds fuel root feeds h6) as [h7| | |] eqn:Haf; try discriminate.
  apply (assembleFeeds_clean root _ _ _ _ Hac Hfs) in Haf.
  destruct (appendChild root bin h7) as [h8| | |] eqn:Happ; try discriminate.
  intros [= <-]. simpl. eapply appendChild_bin_last; eassumption.
Qed.

End FreshTree.

Section RecycleBinLast.
Context `{Persistence}.

(** C7, as the code has it.  In the tree just built by the constructor the
    recycle bin is the last child of the root, and it is still the last child
    after any sequence of mutations that all report success, provided none of
    them adds or moves a node directly under the root and none removes or
    moves the recycle bin. *)
Theorem recycle_bin_stays_last (fuel : nat) (db : Database) (st : Store)
    (m0 m : FeedsModel) (ops : list Mutation) :
  newFeedsModel fuel db st = Returns m0 ->
  Forall (keepsClear (m_rootItem m0) (m_recycleBin m0)) ops ->
  mutateAll ops m0 = Returns (true, m) ->
  recycleBinIsLast m0 /\ recycleBinIsLast m.
Proof.
  intros Hnew Hclear Hrun. apply newFeedsModel_binInv in Hnew.
  split.
  - now destruct Hnew as (_ & _ & Hlast).
  - now destruct (mutateAll_binInv ops m0 m Hnew Hclear Hrun) as (_ & _ & Hlast).
Qed.

End RecycleBinLast.

(** The end-to-end scenario of the specification: the database with category
    "Tech" and feed "Blog" loads as Root -> [Tech -> [Blog], RecycleBin]. *)
Example newFeedsModel_techDb :
  exists m : @FeedsModel scriptedStore,
    @newFeedsModel scriptedStore 2 techDb [] = Returns m
    /\ m_rootItem m = 2%positive /\ m_recycleBin m = 1%positive
    /\ childItems <$> items m !! 2%positive = Some [3; 1]%positive
    /\ childItems <$> items m !! 3%positive = Some [4%positive]
    /\ title <$> items m !! 3%positive = Some "Tech"
    /\ title <$> items m !! 4%positive = Some "Blog".
Proof.
  exists (returned (sampleModel []) (@newFeedsModel scriptedStore 2 techDb [])).
  split; [vm_compute; reflexivity|]. repeat split; vm_compute; reflexivity.
Qed.

Lemma recycle_bin_stays_last_witness :
  exists m0 m : @FeedsModel scriptedStore,
    @newFeedsModel scriptedStore 2 techDb [true; true] = Returns m0
    /\ mutateAll [AddFeed (mkFeedRow 10 (Some Atom10) 21 "News" DefaultAutoUpdate 0)
                          3%positive;
                  RemoveItem (ItemIndex 0 4%positive)] m0 = Returns (true, m)
    /\ recycleBinIsLast m0 /\ recycleBinIsLast m.
Proof.
  set (ops := [AddFeed (mkFeedRow 10 (Some Atom10) 21 "News" DefaultAutoUpdate 0) 3%positive;
               RemoveItem (ItemIndex 0 4%positive)]).
  set (m0 := returned (sampleModel []) (@newFeedsModel scriptedStore 2 techDb [true; true])).
  set (m := returned (sampleModel []) (snd <$> mutateAll ops m0)).
  assert (Hnew : @newFeedsModel scriptedStore 2 techDb [true; true] = Returns m0)
    by (vm_compute; reflexivity).
  assert (Hrun : mutateAll ops m0 = Returns (true, m)) by (vm_compute; reflexivity).
  exists m0, m. split; [exact Hnew|]. split; [exact Hrun|].
  apply (recycle_bin_stays_last (H := scriptedStore) 2 techDb [true; true] m0 m ops Hnew);
    [|exact Hrun].
  repeat constructor; vm_compute; congruence.
Defined.

(** C7 as the specification words it does not hold: a category added to the
    root with success is appended after the recycle bin. *)
Lemma recycle_bin_last_counterexample :
  exists m0 m : @FeedsModel scriptedStore,
    @newFeedsModel scriptedStore 0 emptyDb [true] = Returns m0
    /\ mutateAll [AddCategory (mkCategoryRow NO_PARENT_CATEGORY 10 "Tech") (m_rootItem m0)]
                 m0 = Returns (true, m)
    /\ childItems <$> items m !! m_rootItem m = Some [m_recycleBin m; 3%positive]
    /\ ~ recycleBinIsLast m.
Proof.
  set (m0 := returned (sampleModel []) (@newFeedsModel scriptedStore 0 emptyDb [true])).
  set (m := returned (sampleModel [])
              (snd <$> mutateAll [AddCategory (mkCategoryRow NO_PARENT_CATEGORY 10 "Tech")
                                              (m_rootItem m0)] m0)).
  exists m0, m. split; [vm_compute; reflexivity|]. split; [vm_compute; reflexivity|].
  assert (Hroot : childItems <$> items m !! m_rootItem m = Some [m_recycleBin m; 3%positive])
    by (vm_compute; reflexivity).
  split; [exact Hroot|].
  intros (r & Hr & Hlast). rewrite Hr in Hroot. simpl in Hroot.
  inversion Hroot as [Hc]. rewrite Hc in Hlast. vm_compute in Hlast. discriminate.
Qed.

(** ** Categories that form a forest *)

Lemma childrenGrow_refl (h : Heap) : childrenGrow h h.
Proof. intros a x Hx. eauto. Qed.

Lemma childrenGrow_trans (h1 h2 h3 : Heap) :
  childrenGrow h1 h2 -> childrenGrow h2 h3 -> childrenGrow h1 h3.
Proof.
  intros H12 H23 a x Hx. destruct (H12 a x Hx) as (x2 & Hx2 & Hsub2).
  destruct (H23 a x2 Hx2) as (x3 & Hx3 & Hsub3). eauto.
Qed.

Lemma appendChild_childrenGrow p c (h h1 : Heap) :
  appendChild p c h = Returns h1 -> childrenGrow h h1.
Proof.
  intros Ha a x Hx. exists (appended p c a x).
  rewrite (appendChild_lookup _ _ _ _ Ha), Hx. split; [reflexivity|].
  intros y Hy. rewrite childItems_appended. apply elem_of_app. now left.
Qed.

Lemma attached_grow (h hk hk' : Heap) (c : Z * addr) :
  childrenGrow hk hk' -> attached h hk c -> attached h hk' c.
Proof.
  intros Hgrow (p & pi0 & pi & Hp0 & Hid & Hp & Hin).
  destruct (Hgrow p pi Hp) as (pi' & Hp' & Hsub). exists p, pi0, pi'. auto.
Qed.

Section Forest.
Variable h : Heap.

Lemma assemblePass_forest (cs : list (Z * addr)) :
  forall (assignments : gmap Z positive) (hk : Heap),
    asmBase h assignments hk ->
    (forall c, c ∈ cs -> is_Some (h !! c.2)) ->
    exists kept assignments' hk',
      assemblePass cs assignments hk = Returns (kept, assignments', hk')
      /\ asmBase h assignments' hk'
      /\ (forall k, is_Some (assignments !! k) -> is_Some (assignments' !! k))
      /\ childrenGrow hk hk'
      /\ (forall c, c ∈ cs -> c ∈ kept \/ categoryDone h assignments' hk' c)
      /\ (forall c, c ∈ kept -> c ∈ cs)
      /\ (length kept <= length cs)%nat
      /\ ((exists c, c ∈ cs /\ is_Some (assignments !! c.1)) ->
          (length kept < length cs)%nat).
Proof.
  induction cs as [|c rest IH]; intros assignments hk Hbase Hlive; cbn [assemblePass].
  - exists [], assignments, hk. unfold_outcome. split; [reflexivity|].
    split; [exact Hbase|]. split; [auto|]. split; [apply childrenGrow_refl|].
    split; [intros c Hc; inversion Hc|]. split; [auto|]. split; [lia|].
    intros (c & Hc & _). inversion Hc.
  - assert (Hrest : forall c', c' ∈ rest -> is_Some (h !! c'.2))
      by (intros; apply Hlive; now right).
    destruct (Hlive c) as [it Hit]; [now left|].
    destruct Hbase as (Hsame & Hassigned & Hsentinel).
    destruct (assignments !! c.1) as [p|] eqn:Hp.
    + destruct (Hassigned _ _ Hp) as (pi0 & Hp0 & Hpid).
      destruct (appendChild_Returns p c.2 hk) as [h1 Hh1];
        [eapply sameNodes_live; eauto..|].
      rewrite Hh1. unfold_outcome.
      assert (Hsame1 : sameNodes h h1).
      { eapply sameNodes_trans; [exact Hsame|]. eapply appendChild_sameNodes; eassumption. }
      destruct (sameNodes_live h h1 c.2 Hsame1) as [ci Hci]; [eauto|]. rewrite Hci.
      assert (Hidc : id ci = id it) by (symmetry; eapply sameNodes_id; eassumption).
      destruct (IH (<[id ci := c.2]> assignments) h1)
        as (kept & a' & h' & Hrun & Hbase' & Hkeys & Hgrow & Hdone & Hkept & Hlen & _).
      { split; [exact Hsame1|]. split.
        - intros k q Hq. destruct (decide (id ci = k)) as [<-|Hk].
          + rewrite lookup_insert_eq in Hq. inversion Hq; subst. eauto.
          + rewrite lookup_insert_ne in Hq by assumption. eauto.
        - destruct (decide (id ci = NO_PARENT_CATEGORY)) as [->|Hk].
          + rewrite lookup_insert_eq. eauto.
          + now rewrite lookup_insert_ne. }
      { exact Hrest. }
      exists kept, a', h'. split; [exact Hrun|]. split; [exact Hbase'|].
      assert (Hkeys0 : forall k, is_Some (assignments !! k) -> is_Some (a' !! k)).
      { intros k Hk. apply Hkeys. destruct (decide (id ci = k)) as [<-|Hne].
        - rewrite lookup_insert_eq. eauto.
        - now rewrite lookup_insert_ne. }
      split; [exact Hkeys0|].
      pose proof (appendChild_childrenGrow _ _ _ _ Hh1) as Hgrow1.
      split; [eapply childrenGrow_trans; eassumption|]. split; [|split; [|split]].
      * intros c' Hc'. apply elem_of_cons in Hc' as [->|Hc']; [|now apply Hdone].
        right. split.
        -- apply (attached_grow h h1 h'); [exact Hgrow|].
           exists p, pi0, (appended p c.2 p (default pi0 (hk !! p))).
           split; [exact Hp0|]. split; [exact Hpid|].
           rewrite (appendChild_lookup _ _ _ _ Hh1).
           destruct (sameNodes_live h hk p Hsame) as [pk Hpk]; [eauto|].
           rewrite Hpk. simpl. split; [reflexivity|].
           rewrite childItems_appended, decide_True by reflexivity.
           apply elem_of_app. right. now left.
        -- exists it. split; [exact Hit|]. apply Hkeys. rewrite <- Hidc.
           rewrite lookup_insert_eq. eauto.
      * intros c' Hc'. right. now apply Hkept.
      * simpl. lia.
      * intros _. simpl. lia.
    + destruct (IH assignments hk)
        as (kept & a' & h' & Hrun & Hbase' & Hkeys & Hgrow & Hdone & Hkept & Hlen & Hprog).
      { split; [exact Hsame|]. split; assumption. }
      { exact Hrest. }
      rewrite Hrun. unfold_outcome.
      exists (c :: kept), a', h'. split; [reflexivity|]. split; [exact Hbase'|].
      split; [exact Hkeys|]. split; [exact Hgrow|]. split; [|split; [|split]].
      * intros c' Hc'. apply elem_of_cons in Hc' as [->|Hc']; [left; now left|].
        destruct (Hdone c' Hc'); [left; now right|now right].
      * intros c' Hc'. apply elem_of_cons in Hc' as [->|Hc']; [now left|right; auto].
      * simpl. lia.
      * intros (c' & Hc' & Hsome). simpl.
        apply elem_of_cons in Hc' as [->|Hc'].
        -- rewrite Hp in Hsome. destruct Hsome; discriminate.
        -- assert ((length kept < length rest)%nat) by (apply Hprog; eauto). lia.
Qed.

Variable categories : list (Z * addr).
Hypothesis categories_live : forall c, c ∈ categories -> is_Some (h !! c.2).

Lemma resolves_progress (assignments : gmap Z positive) (hk : Heap) (cs : list (Z * addr)) :
  is_Some (assignments !! NO_PARENT_CATEGORY) ->
  (forall c, c ∈ categories -> c ∈ cs \/ categoryDone h assignments hk c) ->
  forall k, Resolves h categories k ->
    is_Some (assignments !! k) \/ exists c, c ∈ cs /\ is_Some (assignments !! c.1).
Proof.
  intros Hsentinel Hall k Hres. induction Hres as [|c it Hc Hit Hres IH].
  - now left.
  - destruct IH as [Hparent|Hother]; [|now right].
    destruct (Hall c Hc) as [Hpending|(_ & it' & Hit' & Hkey)].
    + right. eauto.
    + left. congruence.
Qed.

Lemma assembleLoop_forest (fuel : nat) :
  forall (cs : list (Z * addr)) (assignments : gmap Z positive) (hk : Heap),
    asmBase h assignments hk ->
    (forall c, c ∈ cs -> c ∈ categories) ->
    (forall c, c ∈ categories -> Resolves h categories c.1) ->
    (forall c, c ∈ categories -> c ∈ cs \/ categoryDone h assignments hk c) ->
    (length cs <= fuel)%nat ->
    exists h', assembleLoop fuel cs assignments hk = Returns h'
               /\ sameNodes h h'
               /\ forall c, c ∈ categories -> attached h h' c.
Proof.
  induction fuel as [|n IH]; intros cs assignments hk Hbase Hsub Hforest Hall Hfuel.
  - destruct cs as [|c rest]; [|simpl in Hfuel; lia].
    exists hk. split; [reflexivity|]. split; [apply Hbase|].
    intros c Hc. destruct (Hall c Hc) as [Habs|[Hatt _]]; [inversion Habs|exact Hatt].
  - destruct cs as [|c0 rest].
    + exists hk. split; [reflexivity|]. split; [apply Hbase|].
      intros c Hc. destruct (Hall c Hc) as [Habs|[Hatt _]]; [inversion Habs|exact Hatt].
    + cbn [assembleLoop].
      destruct (assemblePass_forest (c0 :: rest) assignments hk Hbase)
        as (kept & a' & h1 & Hrun & Hbase' & Hkeys & Hgrow & Hdone & Hkept & _ & Hprog).
      { intros c Hc. apply categories_live. now apply Hsub. }
      rewrite Hrun. unfold_outcome.
      assert (Hlt : (length kept < length (c0 :: rest))%nat).
      { apply Hprog.
        destruct (resolves_progress assignments hk (c0 :: rest) (proj2 (proj2 Hbase)) Hall
                    c0.1) as [Hsome|Hex].
        - apply Hforest, Hsub. now left.
        - exists c0. split; [now left|exact Hsome].
        - exact Hex. }
      apply (IH kept a' h1 Hbase'); [| |  |simpl in *; lia].
      * intros c Hc. apply Hsub. now apply Hkept.
      * exact Hforest.
      * intros c Hc. destruct (Hall c Hc) as [Hin|(Hatt & it & Hit & Hkey)].
        -- now apply Hdone.
        -- right. split; [now apply (attached_grow h hk h1)|]. exists it. auto.
Qed.

(** On categories that form a forest the loop ends within as many rounds as
    there are categories, and every category is then attached under a node
    that carries the parent id it declares. *)
Lemma assembleCategories_forest (root : addr) (r : RootItem) :
  h !! root = Some r -> id r = NO_PARENT_CATEGORY ->
  (forall c, c ∈ categories -> Resolves h categories c.1) ->
  exists h', assembleCategories (length categories) root categories h = Returns h'
             /\ sameNodes h h'
             /\ forall c, c ∈ categories -> attached h h' c.
Proof.
  intros Hroot Hid Hforest. unfold assembleCategories.
  apply assembleLoop_forest; auto.
  split; [apply sameNodes_refl|]. split.
  - intros k p Hk. apply lookup_singleton_Some in Hk as [<- <-]. eauto.
  - rewrite lookup_singleton_eq. eauto.
Qed.

End Forest.

(** ** A parent id that never resolves *)

Lemma alloc_subseteq (it : RootItem) (h : Heap) : h ⊆ (alloc it h).2.
Proof. simpl. apply insert_subseteq. apply (alloc_fresh it h). Qed.

Lemma loadCategoryRows_spec (rows : list CategoryRow) :
  forall (categories categories' : list (Z * addr)) (h h' : Heap),
    foldl loadCategoryRow (categories, h) rows = (categories', h') ->
    h ⊆ h'
    /\ (forall c, c ∈ categories' ->
          c ∈ categories
          \/ exists row, row ∈ rows /\ c.1 = cat_parent_id row
                         /\ h' !! c.2 = Some (StandardCategory row))
    /\ (forall c, c ∈ categories -> c ∈ categories')
    /\ (forall row, row ∈ rows -> exists a, (cat_parent_id row, a) ∈ categories').
Proof.
  induction rows as [|row rows IH]; intros categories categories' h h' Hrun;
    cbn [foldl] in Hrun.
  - inversion Hrun; subst. split; [reflexivity|]. split; [auto|]. split; [auto|].
    intros row Hrow. inversion Hrow.
  - apply IH in Hrun as (Hsub & Hnew & Hold & Hall).
    pose proof (alloc_subseteq (StandardCategory row) h) as Hsub0.
    split; [etransitivity; eassumption|]. split; [|split].
    + intros c Hc. destruct (Hnew c Hc) as [Hin|(r & Hr & Hpid & Hlook)].
      * apply elem_of_app in Hin as [Hin|Hin]; [now left|].
        apply list_elem_of_singleton in Hin. subst c. right. exists row.
        split; [now left|]. split; [reflexivity|].
        eapply lookup_weaken; [|exact Hsub]. apply lookup_insert_eq.
      * right. exists r. split; [now right|]. auto.
    + intros c Hc. apply Hold. apply elem_of_app. now left.
    + intros r Hr. apply elem_of_cons in Hr as [->|Hr]; [|now apply Hall].
      eexists. apply Hold. apply elem_of_app. right. now left.
Qed.

Lemma loadFeedRows_subseteq (rows : list FeedRow) :
  forall (feeds feeds' : list (Z * addr)) (h h' : Heap),
    foldl loadFeedRow (feeds, h) rows = (feeds', h') -> h ⊆ h'.
Proof.
  induction rows as [|row rows IH]; intros feeds feeds' h h' Hrun; cbn [foldl] in Hrun.
  - inversion Hrun; subst. reflexivity.
  - unfold loadFeedRow at 2 in Hrun. destruct (feed_type row).
    + etransitivity; [apply (alloc_subseteq (StandardFeed row))|].
      eapply IH. exact Hrun.
    + eapply IH. exact Hrun.
Qed.

Section NeverLoads.
Context `{Persistence}.

Lemma newFeedsModel_dangling_parent (db : Database) (st : Store)
    (category_rows : list CategoryRow) (row : CategoryRow) :
  query_categories db = Some category_rows ->
  is_Some (query_feeds db) ->
  row ∈ category_rows ->
  cat_parent_id row <> NO_PARENT_CATEGORY ->
  (forall r, r ∈ category_rows -> cat_id r <> cat_parent_id row) ->
  forall fuel, newFeedsModel fuel db st = Timeout.
Proof.
  intros Hq [feed_rows Hqf] Hrow Hne Hids fuel.
  unfold newFeedsModel, loadFromDatabase.
  set (binNode0 := mkItem Bin 0 "Recycle bin" [] None DontAutoUpdate 0 0).
  set (rootNode0 := mkItem Root NO_PARENT_CATEGORY "Root" [] None DontAutoUpdate 0 0).
  cbn [alloc]. set (bin := fresh (dom (∅ : Heap))).
  set (h1 := <[bin := binNode0]> (∅ : Heap)).
  set (root := fresh (dom h1)). set (h2 := <[root := rootNode0]> h1).
  cbn [items m_rootItem m_recycleBin]. unfold_outcome.
  assert (Hroot : h2 !! root = Some rootNode0) by apply lookup_insert_eq.
  rewrite Hroot. cbn [childItems rootNode0 qDeleteAll foldl].
  unfold clearChildren. unfold_outcome. rewrite Hroot.
  set (h3 := <[root := setChildItems [] rootNode0]> h2).
  rewrite Hq, Hqf. simpl.
  destruct (foldl loadCategoryRow ([], h3) category_rows) as [categories h4] eqn:Hcats.
  destruct (foldl loadFeedRow ([], h4) feed_rows) as [feeds h5] eqn:Hfeeds.
  apply loadCategoryRows_spec in Hcats as (Hsub4 & Hnew & _ & Hall).
  apply loadFeedRows_subseteq in Hfeeds.
  destruct (Hall row Hrow) as [a Ha].
  rewrite (assembleCategories_dangling_parent_never_ends root categories h5
             (cat_parent_id row, a)); [reflexivity| |exact Ha|exact Hne|].
  - exists (setChildItems [] rootNode0).
    eapply lookup_weaken; [|exact Hfeeds]. eapply lookup_weaken; [|exact Hsub4].
    apply lookup_insert_eq.
  - intros c Hc. destruct (Hnew c Hc) as [Hin|(r & Hr & Hpid & Hlook)]; [inversion Hin|].
    exists (StandardCategory r). split.
    + eapply lookup_weaken; eassumption.
    + simpl. now apply Hids.
Qed.

End NeverLoads.

(** C2, end to end on a database the program can be started on: one category
    row whose parent id 7 is the id of no category.  However many rounds are
    granted to the loop of assembleCategories, the constructor of the model
    has not returned: the category is not dropped, the loop spins on it. *)
Theorem orphan_category_never_loads :
  forall (fuel : nat) (answers : list bool),
    @newFeedsModel scriptedStore fuel orphanDb answers = Timeout.
Proof.
  intros fuel answers.
  apply (newFeedsModel_dangling_parent (H := scriptedStore) orphanDb answers
           [mkCategoryRow 7 10 "Tech"] (mkCategoryRow 7 10 "Tech")).
  - reflexivity.
  - eexists; reflexivity.
  - now left.
  - discriminate.
  - intros r Hr. apply list_elem_of_singleton in Hr. subst r. discriminate.
Qed.

(** ** Merging an imported tree *)

Lemma sourceSize_children (s : SourceItem) :
  sourceSize s = S (sourcesSize (source_children s)).
Proof. now destruct s. Qed.

Section MergeSteps.
Context `{Persistence}.

Lemma mergeChild_unchecked (tp : addr) (s : MergeState) (x : SourceItem) :
  isItemChecked x = false -> mergeChild tp s x = Returns s.
Proof. intros Hx. unfold mergeChild. now rewrite Hx. Qed.

Lemma mergeChildren_unchecked (tp : addr) (s : MergeState) (l : list SourceItem) :
  Forall (fun y => isItemChecked y = false) l ->
  foldOutcome (mergeChild tp) s l = Returns s.
Proof.
  induction 1 as [|y l Hy _ IH]; [reflexivity|].
  cbn [foldOutcome]. rewrite (mergeChild_unchecked tp s y Hy). exact IH.
Qed.

(** A checked category whose addition is refused: the title for the search
    is read through the clone that addCategory has deleted. *)
Lemma mergeChild_refused (tp : addr) (s : MergeState) (x : SourceItem) (m' : FeedsModel) :
  isItemChecked x = true -> source_kind x = Cattegory ->
  addCategory (alloc (cloneOf x) (items (merged s))).1 tp
              (setItems (alloc (cloneOf x) (items (merged s))).2 (merged s))
  = Returns (false, m') ->
  mergeChild tp s x = Undefined.
Proof.
  intros Hchecked Hkind Hadd. unfold mergeChild. rewrite Hchecked, Hkind.
  cbn [negb alloc fst snd] in *. rewrite Hadd. cbn [mbind Outcome_bind fst snd].
  apply addCategory_atomic in Hadd as (_ & _ & Hfalse).
  destruct (Hfalse eq_refl) as (_ & Hgone & _).
  unfold_outcome. now rewrite Hgone.
Qed.

(** One turn of the [foreach] pushes the child it was given, or nothing. *)
Lemma mergeChild_new_parents (tp : addr) (s s' : MergeState) (x : SourceItem) :
  mergeChild tp s x = Returns s' ->
  new_parents s' = new_parents s \/ new_parents s' = x :: new_parents s.
Proof.
  unfold mergeChild. destruct (isItemChecked x); cbn [negb]; [|intros [= <-]; now left].
  cbn [alloc]. destruct (source_kind x); try (intros [= <-]; now left).
  - destruct (addCategory _ _ _) as [[[] m1]| | |]; try discriminate;
      cbn [mbind Outcome_bind fst snd].
    + intros [= <-]. now right.
    + unfold_outcome. destruct (items m1 !! _); [|discriminate].
      destruct (items m1 !! tp); [|discriminate].
      destruct (child _ _ _ _); intros [= <-]; [now right|now left].
  - destruct (addFeed _ _ _) as [[[] m1]| | |]; try discriminate;
      cbn [mbind Outcome_bind fst snd]; intros [= <-]; now left.
Qed.

Lemma mergeChildren_size (tp : addr) (l : list SourceItem) :
  forall s s', foldOutcome (mergeChild tp) s l = Returns s' ->
               (sourcesSize (new_parents s') <= sourcesSize (new_parents s) + sourcesSize l)%nat.
Proof.
  induction l as [|x l IH]; intros s s' Hrun; cbn [foldOutcome] in Hrun.
  - inversion Hrun; subst. cbn. lia.
  - destruct (mergeChild tp s x) as [s1| | |] eqn:Hstep; try discriminate.
    apply IH in Hrun. unfold sourcesSize in *. cbn [foldr].
    destruct (mergeChild_new_parents _ _ _ _ Hstep) as [Heq|Heq]; rewrite Heq in Hrun;
      cbn [foldr] in Hrun; lia.
Qed.

(** The rounds granted to the loop of mergeModel are never what stops it:
    with as many rounds as the stack of source parents holds items, more
    rounds change nothing. *)
Lemma mergeLoop_fuel (fuel : nat) :
  forall (s : MergeState) (more : nat),
    (sourcesSize (new_parents s) <= fuel)%nat ->
    mergeLoop (fuel + more) s = mergeLoop fuel s.
Proof.
  induction fuel as [|n IH]; intros s more Hsize.
  - destruct (new_parents s) as [|x rest] eqn:Hnew.
    + destruct more; cbn [mergeLoop Nat.add]; now rewrite Hnew.
    + unfold sourcesSize in Hsize. cbn [foldr] in Hsize.
      rewrite (sourceSize_children x) in Hsize. lia.
  - cbn [Nat.add mergeLoop]. destruct (new_parents s) as [|x rest] eqn:Hnew; [reflexivity|].
    destruct (original_parents s) as [|tp orest]; [reflexivity|].
    destruct (foldOutcome _ _ _) as [s1| | |] eqn:Hfold; try reflexivity.
    cbn [mbind Outcome_bind]. apply IH.
    apply mergeChildren_size in Hfold. cbn [new_parents] in Hfold.
    unfold sourcesSize in Hsize. cbn [foldr] in Hsize.
    rewrite (sourceSize_children x) in Hsize. fold (sourcesSize rest) in Hsize. lia.
Qed.

(** Without a tree to import the call returns false with the message of
    invalid tree data and leaves the model as it is. *)
Lemma mergeModel_invalid_tree (model : option FeedsImportExportModel) (m : FeedsModel) :
  model ≫= rootItem = None ->
  mergeModel model m = Returns (mkMergeResult false invalidTreeMessage m).
Proof. intros Hnone. unfold mergeModel. now rewrite Hnone. Qed.

(** When the call returns with a tree to import, it returns true with the
    message of complete success or false with the message of partial
    failure. *)
Lemma mergeModel_message (model : FeedsImportExportModel) (root : SourceItem)
    (m : FeedsModel) (res : MergeResult) :
  rootItem model = Some root ->
  mergeModel (Some model) m = Returns res ->
  output_message res
  = if merge_result res then completeSuccessMessage else partialFailureMessage.
Proof.
  intros Hroot. unfold mergeModel. cbn [mbind option_bind]. rewrite Hroot.
  destruct (mergeLoop _ _) as [s| | |]; try discriminate.
  cbn [mbind Outcome_bind mret Outcome_ret]. intros [= <-]. cbn.
  now destruct (some_feed_category_error s).
Qed.

(** C6.  mergeModel does not get as far as the search that the claim
    describes.  When the addition of the clone of a checked source category
    is refused, addCategory has deleted the clone before it returns false,
    and the title for the search among the children of the target parent is
    then read through the deleted clone: the turn of the loop has no defined
    outcome.  So has the whole call as soon as the first checked child of the
    root of the import tree is a category that the store refuses. *)
Theorem mergeModel_reads_deleted_category :
  (forall (tp : addr) (s : MergeState) (x : SourceItem) (m' : FeedsModel),
      isItemChecked x = true -> source_kind x = Cattegory ->
      addCategory (alloc (cloneOf x) (items (merged s))).1 tp
                  (setItems (alloc (cloneOf x) (items (merged s))).2 (merged s))
      = Returns (false, m') ->
      mergeChild tp s x = Undefined)
  /\ (forall (model : FeedsImportExportModel) (root : SourceItem)
             (skipped : list SourceItem) (x : SourceItem) (rest : list SourceItem)
             (m : FeedsModel) (r : RootItem),
        rootItem model = Some root ->
        source_children root = skipped ++ x :: rest ->
        Forall (fun y => isItemChecked y = false) skipped ->
        isItemChecked x = true -> source_kind x = Cattegory ->
        items m !! m_rootItem m = Some r -> kind r = Root ->
        (addItself (store m) (alloc (cloneOf x) (items m)).2
                   (alloc (cloneOf x) (items m)).1 (m_rootItem m)).1 = false ->
        mergeModel (Some model) m = Undefined).
Proof.
  split; [exact mergeChild_refused|].
  intros model root skipped x rest m r Hroot Hchildren Hskipped Hchecked Hkind Hr Hk Hstore.
  unfold mergeModel. cbn [mbind option_bind]. rewrite Hroot.
  rewrite (sourceSize_children root). cbn [mergeLoop new_parents original_parents].
  rewrite Hchildren, foldOutcome_app, mergeChildren_unchecked by exact Hskipped.
  cbn [mbind Outcome_bind foldOutcome some_feed_category_error merged].
  set (s := mkMergeState [] [] false m).
  assert (Hadd : exists m',
             addCategory (alloc (cloneOf x) (items (merged s))).1 (m_rootItem m)
                         (setItems (alloc (cloneOf x) (items (merged s))).2 (merged s))
             = Returns (false, m')).
  { cbn [merged s alloc fst snd] in *.
    assert (Hfresh : items m !! fresh (dom (items m)) = None) by apply (alloc_fresh (cloneOf x)).
    assert (Hr' : <[fresh (dom (items m)) := cloneOf x]> (items m) !! m_rootItem m = Some r).
    { rewrite lookup_insert_ne; [exact Hr|]. intros Heq. rewrite Heq in Hfresh. congruence. }
    unfold addCategory, indexForItem. cbn [Nat.add items setItems m_rootItem].
    rewrite (indexForItemWithin_root
               (setItems (<[fresh (dom (items m)) := cloneOf x]> (items m)) m) r _ Hr' Hk).
    cbn [mbind Outcome_bind]. unfold_outcome. cbn [items setItems store]. rewrite Hr'.
    destruct (addItself _ _ _ _) as [[] st]; [discriminate|]. eauto. }
  destruct Hadd as [m' Hadd].
  now rewrite (mergeChild_refused (m_rootItem m) s x m' Hchecked Hkind Hadd).
Qed.

End MergeSteps.

(** The collision scenario of the specification: the target already has a
    category "Tech", and the store refuses the clone of the source "Tech". *)
Lemma mergeModel_reads_deleted_category_witness :
  @mergeModel scriptedStore (Some (mkImportModel (Some sampleSource)))
              (sampleModel [false; true]) = Undefined.
Proof.
  apply (proj2 (mergeModel_reads_deleted_category (H := scriptedStore))
           (mkImportModel (Some sampleSource)) sampleSource []
           (SourceNode Cattegory 1 "Tech" DontAutoUpdate 0 true
              [SourceNode Feeed 2 "Planet" DefaultAutoUpdate 0 true []])
           [SourceNode Feeed 3 "Skipped" DefaultAutoUpdate 0 false []]
           (sampleModel [false; true]) (rootNode [3; 5; 6; 2]%positive)).
  - reflexivity.
  - reflexivity.
  - constructor.
  - reflexivity.
  - reflexivity.
  - vm_compute. reflexivity.
  - reflexivity.
  - vm_compute. reflexivity.
Defined.

(** With a store that accepts every addition the source tree is merged: the
    category "Tech" and, under it, the feed "Planet" are added, the unchecked
    feed is not, and the call returns true. *)
Example mergeModel_all_accepted :
  (fun res => (merge_result res, output_message res,
               childItems <$> items (merge_model res) !! 1%positive,
               childItems <$> items (merge_model res) !! 7%positive))
    <$> @mergeModel scriptedStore (Some (mkImportModel (Some sampleSource)))
                    (sampleModel [true; true])
  = Returns (true, completeSuccessMessage, Some [3; 5; 6; 2; 7]%positive,
             Some [8%positive]).
Proof. vm_compute. reflexivity. Qed.

(** A feed that the store refuses: the call returns false with the message
    of partial failure, and the category added before it stays. *)
Example mergeModel_feed_refused :
  (fun res => (merge_result res, output_message res,
               childItems <$> items (merge_model res) !! 7%positive))
    <$> @mergeModel scriptedStore (Some (mkImportModel (Some sampleSource)))
                    (sampleModel [true; false])
  = Returns (false, partialFailureMessage, Some []).
Proof. vm_compute. reflexivity. Qed.

(** ** Bulk updates of the message table *)

Example markFeedsRead_all_well :
  markFeedsRead [blogFeed; feedNode 21 "News" None DefaultAutoUpdate 0 0] 1
                (scriptedSession (mkAnswers true true true true true))
  = (true,
     @mkSession scriptedDriver (mkAnswers true true true true true)
       [CallTransaction true;
        CallPrepare "UPDATE Messages SET is_read = :read WHERE feed IN (20, 21) AND is_deleted = 0;"
                    true;
        CallExec [(":read", 1)] true;
        CallCommit true]).
Proof. vm_compute. reflexivity. Qed.

Section BulkUpdateFacts.
Context `{SqlDriver}.

(** The failures that are handled as the specification says: a transaction
    that does not start makes the call return false at once, and a query that
    cannot be prepared makes it roll back and return false. *)
Lemma markFeedsRead_early_failures (feeds : list RootItem) (read : Z) (s : Session) :
  ((transaction (connection s)).1 = false ->
   (markFeedsRead feeds read s).1 = false
   /\ calls (markFeedsRead feeds read s).2 = calls s ++ [CallTransaction false])
  /\ ((transaction (connection s)).1 = true ->
      (db_prepare ("UPDATE Messages SET is_read = :read WHERE feed IN ("
                   +:+ join ", " (textualFeedIds feeds) +:+ ") AND is_deleted = 0;")
                  (db_transaction s).2).1 = false ->
      (markFeedsRead feeds read s).1 = false
      /\ exists ok, last (calls (markFeedsRead feeds read s).2) = Some (CallRollback ok)).
Proof.
  unfold markFeedsRead. split.
  - intros Htx. unfold db_transaction, logged at 1 2. rewrite Htx. simpl. auto.
  - intros Htx Hprep.
    destruct (db_transaction s) as [started s1] eqn:Hs1.
    assert (started = true) as ->.
    { unfold db_transaction, logged in Hs1. inversion Hs1. exact Htx. }
    cbn [snd negb] in *. destruct (db_prepare _ s1) as [prepared s2].
    cbn [fst] in Hprep. subst prepared.
    cbn [negb]. unfold db_rollback, logged. cbn [fst snd calls].
    split; [reflexivity|]. eexists. apply last_snoc.
Qed.

End BulkUpdateFacts.

(** C3, on answers of the database that the code does not survive.  When the
    execution of the query fails, the transaction is rolled back but the
    function goes on to commit and returns true when that commit succeeds;
    and when the commit fails, the function returns the answer of the
    rollback, which is true when the rollback succeeds.  In both runs
    markFeedsRead and markFeedsDeleted return true although the update was
    not committed. *)
Theorem markFeeds_true_without_commit :
  let exec_fails := mkAnswers true true false true true in
  let commit_fails := mkAnswers true true true false true in
  markFeedsRead [blogFeed] 1 (scriptedSession exec_fails)
  = (true,
     @mkSession scriptedDriver exec_fails
       [CallTransaction true;
        CallPrepare "UPDATE Messages SET is_read = :read WHERE feed IN (20) AND is_deleted = 0;"
                    true;
        CallExec [(":read", 1)] false;
        CallRollback true;
        CallCommit true])
  /\ markFeedsRead [blogFeed] 1 (scriptedSession commit_fails)
     = (true,
        @mkSession scriptedDriver commit_fails
          [CallTransaction true;
           CallPrepare "UPDATE Messages SET is_read = :read WHERE feed IN (20) AND is_deleted = 0;"
                       true;
           CallExec [(":read", 1)] true;
           CallCommit false;
           CallRollback true])
  /\ (markFeedsDeleted [blogFeed] 1 false (scriptedSession exec_fails)).1 = true
  /\ (markFeedsDeleted [blogFeed] 1 true (scriptedSession commit_fails)).1 = true.
Proof.
  simpl. repeat split; vm_compute; reflexivity.
Qed.

(** * The message list model *)

(** ** Records *)

Lemma value_setValue (rec : list QVariant) (c c' : Z) (v : QVariant) :
  0 <= c -> (Z.to_nat c < length rec)%nat -> 0 <= c' ->
  value (setValue c v rec) c' = if decide (c = c') then v else value rec c'.
Proof.
  intros Hc Hlen Hc'. unfold value, setValue.
  rewrite (proj2 (Z.ltb_ge c 0)), (proj2 (Z.ltb_ge c' 0)) by lia.
  destruct (decide (c = c')) as [->|Hne].
  - now rewrite list_lookup_insert_eq.
  - rewrite list_lookup_insert_ne; [reflexivity|]. intros Heq. apply Hne.
    now apply Z2Nat.inj.
Qed.

Lemma length_setValue (rec : list QVariant) (c : Z) (v : QVariant) :
  length (setValue c v rec) = length rec.
Proof. unfold setValue. destruct (c <? 0); [reflexivity|apply length_insert]. Qed.

Lemma value_blankRecord (c : Z) : value blankRecord c = Invalid.
Proof.
  unfold value, blankRecord. destruct (c <? 0); [reflexivity|].
  destruct (replicate _ _ !! Z.to_nat c) as [x|] eqn:Hx; [|reflexivity].
  apply lookup_replicate in Hx as [-> _]. reflexivity.
Qed.

Section CacheFacts.
Context `{MessageServices}.

Lemma length_record (m : MessagesModel) (row : Z) :
  length (record m row) = Z.to_nat columnCount.
Proof.
  unfold record. destruct (row <? 0).
  - apply length_replicate.
  - now rewrite length_map, length_seq.
Qed.

Lemma value_record (m : MessagesModel) (row c : Z) :
  0 <= row -> 0 <= c < columnCount ->
  value (record m row) c = editData m (Cell row c).
Proof.
  intros Hrow Hc. unfold value, record.
  rewrite (proj2 (Z.ltb_ge c 0)), (proj2 (Z.ltb_ge row 0)) by lia.
  rewrite list_lookup_fmap, lookup_seq_lt by lia. simpl. now rewrite Z2Nat.id by lia.
Qed.

Lemma liveData_negative_row (m : MessagesModel) (row c : Z) :
  row < 0 -> liveData m (Cell row c) = Invalid.
Proof. intros Hrow. simpl. now rewrite (proj2 (Z.ltb_lt row 0)) by lia. Qed.

Lemma cacheSetData_lookup (idx : MessageIndex) (v : QVariant) (rec : list QVariant)
    (c : gmap Z (list QVariant)) (row : Z) :
  cacheSetData idx v rec c !! row
  = if decide (row = index_row idx)
    then Some (setValue (index_column idx) v (default rec (c !! index_row idx)))
    else c !! row.
Proof.
  unfold cacheSetData. destruct (decide (row = index_row idx)) as [->|Hne].
  - rewrite lookup_insert_eq. destruct (c !! index_row idx) as [x|] eqn:Hx.
    + now rewrite Hx.
    + now rewrite lookup_insert_eq.
  - rewrite lookup_insert_ne by congruence.
    destruct (c !! index_row idx); [reflexivity|]. now rewrite lookup_insert_ne by congruence.
Qed.

Lemma setData_shaped (idx : MessageIndex) (v : QVariant) (m : MessagesModel) :
  cacheShaped m -> cacheShaped (setData idx v m).
Proof.
  intros Hshape row rec. unfold setData. cbn [m_cache logEvent setCache].
  rewrite cacheSetData_lookup. destruct (decide (row = index_row idx)) as [->|Hne].
  - intros [= <-]. rewrite length_setValue.
    destruct (m_cache m !! index_row idx) as [x|] eqn:Hx; simpl.
    + eapply Hshape; eassumption.
    + apply length_record.
  - apply Hshape.
Qed.

Lemma repopulate_shaped (m : MessagesModel) : cacheShaped (repopulate m).
Proof. intros row rec. simpl. now rewrite lookup_empty. Qed.

(** Reading under the edit role after an edit: the cell edited holds the
    new value, every other cell reads as before. *)
Lemma editData_setData (m : MessagesModel) (r c r' c' : Z) (v : QVariant) :
  cacheShaped m ->
  0 <= c < columnCount -> 0 <= c' < columnCount ->
  editData (setData (Cell r c) v m) (Cell r' c')
  = if decide (r = r' /\ c = c') then v else editData m (Cell r' c').
Proof.
  intros Hshape Hc Hc'. unfold editData, containsData, cacheData, cacheRecord.
  cbn [index_row index_column]. unfold setData. cbn [m_cache logEvent setCache].
  rewrite cacheSetData_lookup. cbn [index_row index_column].
  destruct (decide (r' = r)) as [->|Hne].
  - rewrite bool_decide_eq_true_2 by eauto. simpl.
    assert (Hlen : (Z.to_nat c < length (default (record m r) (m_cache m !! r)))%nat).
    { destruct (m_cache m !! r) as [x|] eqn:Hx; simpl.
      - rewrite (Hshape _ _ Hx). unfold columnCount in *. lia.
      - rewrite length_record. unfold columnCount in *. lia. }
    rewrite value_setValue by lia.
    destruct (decide (c = c')) as [->|Hcc].
    + now rewrite decide_True by auto.
    + rewrite decide_False by tauto.
      destruct (m_cache m !! r) as [x|] eqn:Hx; simpl; [reflexivity|].
      destruct (Z_lt_ge_dec r 0) as [Hneg|Hpos].
      * unfold record. rewrite (proj2 (Z.ltb_lt r 0)) by lia.
        now rewrite value_blankRecord.
      * rewrite value_record by lia. unfold editData, containsData.
        cbn [index_row]. now rewrite Hx.
  - rewrite decide_False by (intros [? _]; congruence). reflexivity.
Qed.

End CacheFacts.

(** ** Reading a cell *)

Section ReadingCells.
Context `{MessageServices}.

Lemma index_valid (m : MessagesModel) (row col : Z) :
  0 <= row < rowCount m -> 0 <= col < columnCount -> index m row col = Cell row col.
Proof.
  intros Hrow Hcol. unfold index.
  rewrite (proj2 (Z.leb_le 0 row)), (proj2 (Z.ltb_lt row _)),
    (proj2 (Z.leb_le 0 col)), (proj2 (Z.ltb_lt col _)) by lia.
  reflexivity.
Qed.

Lemma index_setData (idx : MessageIndex) (v : QVariant) (m : MessagesModel) (row col : Z) :
  index (setData idx v m) row col = index m row col.
Proof. reflexivity. Qed.

(** C8, as the code has it.  Under the edit role, reading a cell of the
    table consults the cache of pending edits first and falls back to the
    live query; after a value was set through setData and before any
    repopulate, reading that cell under the edit role returns the new value;
    after repopulate the cache is empty, the rows are those the store gives
    for the filter, and the cell reads as the live query has it.  What the
    display role answers is not changed by an edit. *)
Theorem edit_role_reads_cache_first (m : MessagesModel) (row col : Z) (v : QVariant) :
  cacheShaped m ->
  0 <= row < rowCount m ->
  0 <= col < columnCount ->
  data m (index m row col) EditRole
  = Plain (if containsData m row then cacheData m (Cell row col)
           else liveData m (Cell row col))
  /\ (let edited := setData (index m row col) v m in
      data edited (index edited row col) EditRole = Plain v
      /\ let fresh_model := repopulate edited in
         m_cache fresh_model = ∅
         /\ m_rows fresh_model = selectMessages (m_db m) (m_filter m)
         /\ data fresh_model (index fresh_model row col) EditRole
            = Plain (liveData fresh_model (index fresh_model row col)))
  /\ (forall idx idx', data (setData idx' v m) idx DisplayRole = data m idx DisplayRole).
Proof.
  intros Hshape Hrow Hcol. rewrite (index_valid m row col Hrow Hcol).
  split; [reflexivity|]. split; [|reflexivity]. cbn zeta. rewrite index_setData.
  rewrite (index_valid m row col Hrow Hcol). split.
  - cbn [data]. rewrite editData_setData by assumption.
    now rewrite decide_True by auto.
  - split; [reflexivity|]. split; [reflexivity|].
    cbn [data]. unfold editData, containsData. cbn [m_cache repopulate].
    rewrite lookup_empty. now rewrite bool_decide_eq_false_2 by (intros [? ?]; discriminate).
Qed.

End ReadingCells.

Lemma edit_role_reads_cache_first_witness :
  let m := sampleMessages blogFeed true true true in
  let edited := setData (index m 0 MSG_DB_READ_INDEX) (IntValue 1) m in
  data m (index m 0 MSG_DB_READ_INDEX) EditRole = Plain (IntValue 0)
  /\ data edited (index edited 0 MSG_DB_READ_INDEX) EditRole = Plain (IntValue 1)
  /\ data (repopulate edited) (index (repopulate edited) 0 MSG_DB_READ_INDEX) EditRole
     = Plain (IntValue 0).
Proof.
  intros m edited.
  destruct (edit_role_reads_cache_first (H := scriptedServices) m 0 MSG_DB_READ_INDEX
              (IntValue 1))
    as (Hread & (Hedit & _ & _ & Hfresh) & _).
  - intros row rec Hrow. vm_compute in Hrow. discriminate.
  - vm_compute. split; [discriminate|reflexivity].
  - vm_compute. split; [discriminate|reflexivity].
  - split; [exact Hread|]. split; [exact Hedit|]. exact Hfresh.
Defined.

(** C8 as the specification words it does not hold for every way of reading
    a cell: under the display role the model answers from the live query
    without looking at the cache, so the cell of the "deleted" column that
    was just set to 1 still reads 0. *)
Lemma display_role_ignores_cache_counterexample :
  let m := sampleMessages blogFeed true true true in
  let edited := setData (index m 0 MSG_DB_DELETED_INDEX) (IntValue 1) m in
  data edited (index edited 0 MSG_DB_DELETED_INDEX) DisplayRole = Plain (IntValue 0)
  /\ data edited (index edited 0 MSG_DB_DELETED_INDEX) DisplayRole <> Plain (IntValue 1)
  /\ data edited (index edited 0 MSG_DB_DELETED_INDEX) EditRole = Plain (IntValue 1).
Proof.
  cbn zeta. split; [vm_compute; reflexivity|]. split; [vm_compute; discriminate|].
  vm_compute. reflexivity.
Qed.

(** ** Lookups by id *)

Section LookupsById.
Context `{MessageServices}.

Lemma findRowById_Some (m : MessagesModel) (id : Z) (n : nat) :
  forall i r,
    findRowById m id i n = Some r ->
    i <= r < i + Z.of_nat n /\ messageId m r = id
    /\ (forall j, i <= j < r -> messageId m j <> id).
Proof.
  induction n as [|n IH]; intros i r Hfind; simpl in Hfind; [discriminate|].
  destruct (messageId m i =? id) eqn:Hid.
  - inversion Hfind; subst r. apply Z.eqb_eq in Hid.
    split; [lia|]. split; [exact Hid|]. intros j Hj. lia.
  - apply IH in Hfind as (Hr & Hm & Hfirst). apply Z.eqb_neq in Hid.
    split; [lia|]. split; [exact Hm|]. intros j Hj.
    destruct (decide (j = i)) as [->|Hne]; [exact Hid|]. apply Hfirst. lia.
Qed.

Lemma findRowById_None (m : MessagesModel) (id : Z) (n : nat) :
  forall i,
    findRowById m id i n = None ->
    forall j, i <= j < i + Z.of_nat n -> messageId m j <> id.
Proof.
  induction n as [|n IH]; intros i Hfind j Hj; simpl in Hfind; [lia|].
  destruct (messageId m i =? id) eqn:Hid; [discriminate|]. apply Z.eqb_neq in Hid.
  destruct (decide (j = i)) as [->|Hne]; [exact Hid|].
  apply (IH (i + 1) Hfind). lia.
Qed.

Lemma byId_outcome (column : Z) (id v : Z) (m : MessagesModel) :
  0 <= column < columnCount ->
  let r := match findRowById m id 0 (length (m_rows m)) with
           | Some i =>
               (true, logEvent (DataChanged i i)
                               (setData (index m i column) (IntValue v) m))
           | None => (false, m)
           end in
  byIdOutcome column id v m r.1 r.2.
Proof.
  intros Hcol. cbn zeta.
  destruct (findRowById m id 0 (length (m_rows m))) as [i|] eqn:Hfind; cbn [fst snd].
  - apply findRowById_Some in Hfind as (Hi & Hid & Hfirst).
    assert (Hrow : 0 <= i < rowCount m) by (unfold rowCount; lia).
    rewrite (index_valid m i column Hrow Hcol).
    split; [reflexivity|]. split; [reflexivity|]. split; [|split; [|split]].
    + intros e He. cbn [events logEvent setData setCache] in He.
      rewrite !elem_of_app, !list_elem_of_singleton in He.
      destruct He as [[He| ->]| ->]; eauto 6.
    + split; [eauto|reflexivity].
    + intros _. exists i. split; [exact Hrow|]. split; [exact Hid|].
      split; [exact Hfirst|]. split; [reflexivity|]. intros Hshape.
      change (index (logEvent (DataChanged i i) (setData (Cell i column) (IntValue v) m))
                    i column)
        with (index m i column).
      rewrite (index_valid m i column Hrow Hcol).
      change (data (logEvent (DataChanged i i) (setData (Cell i column) (IntValue v) m))
                   (Cell i column) EditRole)
        with (Plain (editData (setData (Cell i column) (IntValue v) m) (Cell i column))).
      rewrite editData_setData by assumption. now rewrite decide_True by auto.
    + discriminate.
  - pose proof (findRowById_None _ _ _ _ Hfind) as Hnone.
    split; [reflexivity|]. split; [reflexivity|]. split; [auto|]. split; [|split].
    + split; [discriminate|]. intros (i & Hi & Hid). exfalso.
      apply (Hnone i); [unfold rowCount in Hi; lia|exact Hid].
    + discriminate.
    + reflexivity.
Qed.

(** C10.  setMessageReadById and setMessageImportantById only write the
    cache of pending edits: the state behind the hooks and the database is
    untouched and no hook or query event is added to what the model has done.
    When some row of the current rows carries the id, the first such row is
    written in the cache and the call answers true; when none does, the call
    answers false and the model, cache included, is unchanged. *)
Theorem lookups_by_id_only_write_cache (id v : Z) (m : MessagesModel) :
  byIdOutcome MSG_DB_READ_INDEX id v m
              (setMessageReadById id v m).1 (setMessageReadById id v m).2
  /\ byIdOutcome MSG_DB_IMPORTANT_INDEX id v m
                 (setMessageImportantById id v m).1 (setMessageImportantById id v m).2.
Proof.
  split.
  - apply (byId_outcome MSG_DB_READ_INDEX id v m). unfold MSG_DB_READ_INDEX, columnCount. lia.
  - apply (byId_outcome MSG_DB_IMPORTANT_INDEX id v m).
    unfold MSG_DB_IMPORTANT_INDEX, columnCount. lia.
Qed.

End LookupsById.

Example setMessageReadById_sample :
  let m := sampleMessages blogFeed false false false in
  (setMessageReadById 6 0 m).1 = true
  /\ events (setMessageReadById 6 0 m).2
     = [CacheWrite (Cell 1 MSG_DB_READ_INDEX) (IntValue 0); DataChanged 1 1]
  /\ setMessageReadById 7 0 m = (false, m).
Proof. cbn zeta. repeat split; vm_compute; reflexivity. Qed.

(** ** The pipeline of the mutating operations *)

Section Pipeline.
Context `{MessageServices}.

Lemma finishBatch_outcome (call : HookCall) (q : RootItem -> DbQuery)
    (m : MessagesModel) (b : bool) (m' : MessagesModel) :
  finishBatch call q m = Returns (b, m') -> pipelineOutcome call q m b m'.
Proof.
  unfold finishBatch, pipelineOutcome, callBefore, callAfter, query, selectedItem,
    reloadWholeLayout.
  unfold_outcome. cbn.
  destruct (m_selectedItem m) as [item|] eqn:Hitem; [|discriminate].
  destruct (onBefore (m_db m) item call) as [[] w1] eqn:Hb; cbn; rewrite ?Hitem; cbn.
  - destruct (runQuery w1 (q item)) as [[] w2] eqn:Hq; cbn; rewrite ?Hitem; cbn.
    + destruct (onAfter w2 item call) as [verdict w3] eqn:Ha.
      intros [= <- <-]. cbn. repeat (split; [reflexivity || exact Hitem|]).
      exists item. split; [reflexivity|]. rewrite Hb. cbn. rewrite Hq. cbn. rewrite Ha. cbn.
      repeat split. now rewrite <- !app_assoc.
    + intros [= <- <-]. cbn. repeat (split; [reflexivity || exact Hitem|]).
      exists item. split; [reflexivity|]. rewrite Hb. cbn. rewrite Hq. cbn.
      repeat split. now rewrite <- !app_assoc.
  - intros [= <- <-]. cbn. repeat (split; [reflexivity || exact Hitem|]).
    exists item. split; [reflexivity|]. rewrite Hb. cbn.
    repeat split. now rewrite <- !app_assoc.
Qed.

Lemma onlyCacheWrites_refl (m : MessagesModel) : onlyCacheWrites m m.
Proof.
  repeat split. exists []. split; [now rewrite app_nil_r|constructor].
Qed.

Lemma onlyCacheWrites_setData (idx : MessageIndex) (v : QVariant) (m m0 : MessagesModel) :
  onlyCacheWrites m0 m -> onlyCacheWrites m0 (setData idx v m).
Proof.
  intros (Hrows & Hdb & Hsel & ws & Hev & Hws). repeat split; try assumption.
  exists (ws ++ [CacheWrite idx v]). split.
  - cbn. rewrite Hev. now rewrite app_assoc.
  - apply Forall_app. split; [exact Hws|]. repeat constructor.
Qed.

Lemma batch_loop_onlyCacheWrites (step : Batch -> MessageIndex -> Batch)
    (messages : list MessageIndex) (m0 : MessagesModel) :
  (forall b idx, onlyCacheWrites m0 (batch_model b) ->
                 onlyCacheWrites m0 (batch_model (step b idx))) ->
  forall b, onlyCacheWrites m0 (batch_model b) ->
            onlyCacheWrites m0 (batch_model (foldl step b messages)).
Proof.
  intros Hstep. induction messages as [|idx rest IH]; intros b Hb; simpl; [exact Hb|].
  apply IH. now apply Hstep.
Qed.

Lemma readStep_onlyCacheWrites read m0 b idx :
  onlyCacheWrites m0 (batch_model b) -> onlyCacheWrites m0 (batch_model (readStep read b idx)).
Proof. intros Hb. now apply onlyCacheWrites_setData. Qed.

Lemma deleteStep_onlyCacheWrites m0 b idx :
  onlyCacheWrites m0 (batch_model b) -> onlyCacheWrites m0 (batch_model (deleteStep b idx)).
Proof.
  intros Hb. unfold deleteStep. cbn [batch_model].
  destruct (isRecycleBin _); now apply onlyCacheWrites_setData.
Qed.

Lemma restoreStep_onlyCacheWrites m0 b idx :
  onlyCacheWrites m0 (batch_model b) -> onlyCacheWrites m0 (batch_model (restoreStep b idx)).
Proof. intros Hb. now do 2 apply onlyCacheWrites_setData. Qed.

Lemma switchImportanceStep_onlyCacheWrites m0 b idx :
  onlyCacheWrites m0 (batch_model b) ->
  onlyCacheWrites m0 (batch_model (switchImportanceStep b idx)).
Proof. intros Hb. now apply onlyCacheWrites_setData. Qed.

Lemma setMessageRead_outcome (row_index read : Z) (m m' : MessagesModel) (b : bool) :
  setMessageRead row_index read m = Returns (b, m') ->
  toInt (editData m (index m row_index MSG_DB_READ_INDEX)) <> read ->
  singleOutcome (SetMessagesRead [messageAt m row_index] read)
                (index m row_index MSG_DB_READ_INDEX) (IntValue read) m b m'.
Proof.
  unfold setMessageRead, singleOutcome, callBefore, callAfter, query, selectedItem.
  intros Hrun Hne. apply Z.eqb_neq in Hne. rewrite Hne in Hrun. unfold_outcome.
  destruct (m_selectedItem m) as [item|] eqn:Hitem; [|discriminate].
  exists item. split; [reflexivity|].
  destruct (onBefore (m_db m) item _) as [accepted w1] eqn:Hb.
  cbn [fst snd negb] in *. destruct accepted; cbn [negb] in Hrun.
  - cbn [m_db setData logEvent setCache setWorld] in Hrun.
    destruct (runQuery w1 _) as [ok w2] eqn:Hq. destruct ok.
    + cbn [m_selectedItem setData logEvent setCache setWorld m_db] in Hrun.
      rewrite Hitem in Hrun. destruct (onAfter w2 item _) as [verdict w3].
      inversion Hrun; subst. cbn. eexists. rewrite <- !app_assoc. reflexivity.
    + inversion Hrun; subst. cbn. eexists. rewrite <- !app_assoc. reflexivity.
  - inversion Hrun; subst. cbn. auto.
Qed.

Lemma switchMessageImportance_outcome (row_index : Z) (m m' : MessagesModel) (b : bool) :
  switchMessageImportance row_index m = Returns (b, m') ->
  let next_importance :=
    if messageImportance m row_index =? Important then NotImportant else Important in
  singleOutcome (SwitchMessageImportance [(messageAt m row_index, next_importance)])
                (index m row_index MSG_DB_IMPORTANT_INDEX) (IntValue next_importance) m b m'.
Proof.
  unfold switchMessageImportance, singleOutcome, callBefore, callAfter, query, selectedItem,
    messageImportance.
  intros Hrun. cbn zeta. unfold_outcome.
  destruct (m_selectedItem m) as [item|] eqn:Hitem; [|discriminate].
  exists item. split; [reflexivity|].
  destruct (onBefore (m_db m) item _) as [accepted w1] eqn:Hb.
  cbn [fst snd negb] in *. destruct accepted; cbn [negb] in Hrun.
  - cbn [m_db setData logEvent setCache setWorld] in Hrun.
    destruct (runQuery w1 _) as [ok w2] eqn:Hq. destruct ok.
    + cbn [m_selectedItem setData logEvent setCache setWorld m_db] in Hrun.
      rewrite Hitem in Hrun. destruct (onAfter w2 item _) as [verdict w3].
      inversion Hrun; subst. cbn. eexists. rewrite <- !app_assoc. reflexivity.
    + inversion Hrun; subst. cbn. eexists. rewrite <- !app_assoc. reflexivity.
  - inversion Hrun; subst. cbn. auto.
Qed.

End Pipeline.

(** ** The flags written by the batch operations *)

Section BatchWrites.
Context `{MessageServices}.

Lemma writeCells_editData (v : QVariant) (cells : list (Z * Z)) :
  forall m : MessagesModel,
    cacheShaped m ->
    (forall rc, rc ∈ cells -> 0 <= rc.1 < rowCount m /\ 0 <= rc.2 < columnCount) ->
    cacheShaped (writeCells v cells m)
    /\ forall r' c', 0 <= c' < columnCount ->
         editData (writeCells v cells m) (Cell r' c')
         = if decide ((r', c') ∈ cells) then v else editData m (Cell r' c').
Proof.
  induction cells as [|[r c] rest IH]; intros m Hshape Hvalid; cbn [writeCells foldl].
  - split; [exact Hshape|]. intros r' c' Hc'.
    now rewrite decide_False by apply not_elem_of_nil.
  - destruct (Hvalid (r, c)) as [Hr Hc]; [now left|]. cbn [fst snd] in *.
    rewrite (index_valid m r c Hr Hc).
    destruct (IH (setData (Cell r c) v m)) as [Hshape' Hread].
    + now apply setData_shaped.
    + intros rc Hrc. apply (Hvalid rc). now right.
    + split; [exact Hshape'|]. intros r' c' Hc'.
      unfold writeCells in Hread. rewrite Hread by assumption.
      rewrite editData_setData by assumption.
      destruct (decide ((r', c') ∈ rest)) as [Hin|Hnin].
      * rewrite decide_True; [reflexivity|now right].
      * destruct (decide (r = r' /\ c = c')) as [[-> ->]|Hne].
        -- rewrite decide_True; [reflexivity|now left].
        -- rewrite decide_False; [reflexivity|].
           intros Hin. apply elem_of_cons in Hin as [[= -> ->]|Hin]; tauto.
Qed.

Lemma deleteStep_model (b : Batch) (idx : MessageIndex) :
  batch_model (deleteStep b idx)
  = setData (index (batch_model b) (index_row idx)
                   (if isRecycleBin (m_selectedItem (batch_model b))
                    then MSG_DB_PDELETED_INDEX else MSG_DB_DELETED_INDEX))
            (IntValue 1) (batch_model b).
Proof.
  unfold deleteStep. cbn [batch_model].
  now destruct (isRecycleBin (m_selectedItem (batch_model b))).
Qed.

Lemma deleteStep_loop (messages : list MessageIndex) :
  forall b : Batch,
    batch_model (foldl deleteStep b messages)
    = writeCells (IntValue 1)
        (map (fun idx => (index_row idx,
                          if isRecycleBin (m_selectedItem (batch_model b))
                          then MSG_DB_PDELETED_INDEX else MSG_DB_DELETED_INDEX)) messages)
        (batch_model b).
Proof.
  unfold writeCells.
  induction messages as [|idx rest IH]; intros b; [reflexivity|].
  cbn [foldl map fst snd]. rewrite IH, deleteStep_model. reflexivity.
Qed.

Lemma restoreStep_loop (messages : list MessageIndex) :
  forall b : Batch,
    batch_model (foldl restoreStep b messages)
    = writeCells (IntValue 0)
        (flat_map (fun idx => [(index_row idx, MSG_DB_PDELETED_INDEX);
                               (index_row idx, MSG_DB_DELETED_INDEX)]) messages)
        (batch_model b).
Proof.
  unfold writeCells.
  induction messages as [|idx rest IH]; intros b; [reflexivity|].
  cbn [foldl flat_map app fst snd]. rewrite IH. reflexivity.
Qed.

Lemma readStep_loop (read : Z) (messages : list MessageIndex) :
  forall b : Batch,
    batch_model (foldl (readStep read) b messages)
    = writeCells (IntValue read)
        (map (fun idx => (index_row idx, MSG_DB_READ_INDEX)) messages) (batch_model b).
Proof.
  unfold writeCells.
  induction messages as [|idx rest IH]; intros b; [reflexivity|].
  cbn [foldl map fst snd]. rewrite IH. reflexivity.
Qed.

Lemma pipelineOutcome_true (call : HookCall) (q : RootItem -> DbQuery)
    (m m' : MessagesModel) (item : RootItem) :
  pipelineOutcome call q m true m' ->
  m_selectedItem m = Some item ->
  m_cache m' = m_cache m /\ m_rows m' = m_rows m
  /\ events m' = events m ++ [LayoutChanged; Before call true; Query (q item) true;
                              After call true].
Proof.
  intros (Hcache & Hrows & _ & item' & Hitem' & Hpipe) Hitem.
  rewrite Hitem in Hitem'. inversion Hitem'; subst item'; clear Hitem'.
  split; [exact Hcache|]. split; [exact Hrows|]. cbn zeta in Hpipe.
  destruct (onBefore (m_db m) item call).1; [|now destruct Hpipe].
  destruct (runQuery _ (q item)).1; [|now destruct Hpipe].
  destruct Hpipe as (Hb & _ & Hev). now rewrite <- Hb in Hev.
Qed.

Lemma editData_same_cache (m m' : MessagesModel) (idx : MessageIndex) :
  m_cache m' = m_cache m -> m_rows m' = m_rows m -> editData m' idx = editData m idx.
Proof.
  intros Hc Hr. unfold editData, containsData, cacheData, cacheRecord, liveData.
  now rewrite Hc, Hr.
Qed.

Lemma index_same_rows (m m' : MessagesModel) (row col : Z) :
  m_rows m' = m_rows m -> index m' row col = index m row col.
Proof. intros Hr. unfold index, rowCount. now rewrite Hr. Qed.

(** A message built from a row reads, column by column, as the row does
    under the edit role. *)
Lemma value_messageAt (m : MessagesModel) (row c : Z) :
  0 <= row -> 0 <= c < columnCount ->
  value (messageAt m row) c = editData m (Cell row c).
Proof.
  intros Hrow Hc. unfold messageAt. destruct (containsData m row) eqn:Hcached.
  - unfold editData, cacheData. cbn [index_row index_column]. now rewrite Hcached.
  - now apply value_record.
Qed.

Lemma m_id_messageAt (m M : MessagesModel) (row : Z) :
  keepsIds m M -> 0 <= row < rowCount m ->
  m_id (messageAt M row) = messageId m row.
Proof.
  intros (_ & _ & _ & Hids) Hrow. unfold m_id, messageId.
  rewrite value_messageAt; [|lia|vm_compute; split; congruence].
  rewrite (index_valid m row MSG_DB_ID_INDEX Hrow) by (vm_compute; split; congruence).
  now rewrite Hids.
Qed.

Lemma keepsIds_refl (m : MessagesModel) : cacheShaped m -> keepsIds m m.
Proof. intros Hshape. repeat split. exact Hshape. Qed.

Lemma keepsIds_setData (m M : MessagesModel) (r c : Z) (v : QVariant) :
  keepsIds m M -> 0 <= r < rowCount m -> 0 <= c < columnCount -> c <> MSG_DB_ID_INDEX ->
  keepsIds m (setData (index M r c) v M)
  /\ index M r c = Cell r c.
Proof.
  intros (Hrows & Hshape & Hsel & Hids) Hr Hc Hne.
  assert (Hidx : index M r c = Cell r c).
  { apply index_valid; [|exact Hc]. unfold rowCount in *. now rewrite Hrows. }
  split; [|exact Hidx]. rewrite Hidx.
  split; [exact Hrows|]. split; [now apply setData_shaped|]. split; [exact Hsel|].
  intros r'. rewrite editData_setData; [|exact Hshape|exact Hc|vm_compute; split; congruence].
  rewrite decide_False by (intros [_ ?]; contradiction). apply Hids.
Qed.

(** The ids and the messages that the loop of a batch operation collects:
    one for each index of the list, in order, with the id of its row. *)
Lemma batch_loop_ids (step : Batch -> MessageIndex -> Batch) (m : MessagesModel) :
  (forall b idx,
      message_ids (step b idx)
      = message_ids b ++ [pretty (m_id (messageAt (batch_model b) (index_row idx)))]) ->
  (forall b idx, msgs (step b idx) = msgs b ++ [messageAt (batch_model b) (index_row idx)]) ->
  (forall b idx, keepsIds m (batch_model b) -> 0 <= index_row idx < rowCount m ->
                 keepsIds m (batch_model (step b idx))) ->
  forall messages b,
    validRows m messages -> keepsIds m (batch_model b) ->
    keepsIds m (batch_model (foldl step b messages))
    /\ message_ids (foldl step b messages) = message_ids b ++ selectedIds m messages
    /\ exists new_msgs,
         msgs (foldl step b messages) = msgs b ++ new_msgs
         /\ messagesOf m messages new_msgs.
Proof.
  intros Hids Hmsgs Hkeep. induction messages as [|idx rest IH]; intros b Hvalid Hb.
  - cbn [foldl]. split; [exact Hb|]. unfold selectedIds. cbn [map].
    split; [now rewrite app_nil_r|]. exists []. split; [now rewrite app_nil_r|constructor].
  - cbn [foldl].
    assert (Hrow : 0 <= index_row idx < rowCount m) by (apply Hvalid; now left).
    assert (Hrest : validRows m rest) by (intros i Hi; apply Hvalid; now right).
    destruct (IH (step b idx) Hrest (Hkeep b idx Hb Hrow)) as (Hk & Hi & new_msgs & Hm & Hof).
    split; [exact Hk|]. split.
    + rewrite Hi, Hids, (m_id_messageAt m (batch_model b) _ Hb Hrow).
      unfold selectedIds. cbn [map]. now rewrite <- app_assoc.
    + exists (messageAt (batch_model b) (index_row idx) :: new_msgs). split.
      * rewrite Hm, Hmsgs. now rewrite <- app_assoc.
      * constructor; [|exact Hof]. now apply m_id_messageAt.
Qed.

Lemma deleteStep_keepsIds (m : MessagesModel) (b : Batch) (idx : MessageIndex) :
  keepsIds m (batch_model b) -> 0 <= index_row idx < rowCount m ->
  keepsIds m (batch_model (deleteStep b idx)).
Proof.
  intros Hb Hrow. rewrite deleteStep_model.
  apply keepsIds_setData; [exact Hb|exact Hrow| |];
    destruct (isRecycleBin _); try discriminate; vm_compute; split; congruence.
Qed.

Lemma restoreStep_keepsIds (m : MessagesModel) (b : Batch) (idx : MessageIndex) :
  keepsIds m (batch_model b) -> 0 <= index_row idx < rowCount m ->
  keepsIds m (batch_model (restoreStep b idx)).
Proof.
  intros Hb Hrow. unfold restoreStep. cbn [batch_model].
  destruct (keepsIds_setData m (batch_model b) (index_row idx) MSG_DB_PDELETED_INDEX
              (IntValue 0) Hb Hrow) as [Hb1 _]; [vm_compute; split; congruence|discriminate|].
  apply keepsIds_setData; [exact Hb1|exact Hrow|vm_compute; split; congruence|discriminate].
Qed.

Lemma readStep_keepsIds (read : Z) (m : MessagesModel) (b : Batch) (idx : MessageIndex) :
  keepsIds m (batch_model b) -> 0 <= index_row idx < rowCount m ->
  keepsIds m (batch_model (readStep read b idx)).
Proof.
  intros Hb Hrow. unfold readStep. cbn [batch_model].
  apply keepsIds_setData; [exact Hb|exact Hrow|vm_compute; split; congruence|discriminate].
Qed.

Lemma switchImportanceStep_keepsIds (m : MessagesModel) (b : Batch) (idx : MessageIndex) :
  keepsIds m (batch_model b) -> 0 <= index_row idx < rowCount m ->
  keepsIds m (batch_model (switchImportanceStep b idx)).
Proof.
  intros Hb Hrow. unfold switchImportanceStep. cbn [batch_model].
  apply keepsIds_setData; [exact Hb|exact Hrow|vm_compute; split; congruence|discriminate].
Qed.

(** ** The cells written *)

Lemma cellsWritten_app (es es' : list MessageEvent) :
  cellsWritten (es ++ es') = cellsWritten es ++ cellsWritten es'.
Proof. apply omap_app. Qed.

Lemma cellsWritten_setData (idx : MessageIndex) (v : QVariant) (m : MessagesModel) :
  cellsWritten (events (setData idx v m)) = cellsWritten (events m) ++ [idx].
Proof. unfold setData. cbn [events logEvent setCache]. now rewrite cellsWritten_app. Qed.

Lemma writeCells_cellsWritten (v : QVariant) (cells : list (Z * Z)) :
  forall m : MessagesModel,
    (forall rc, rc ∈ cells -> 0 <= rc.1 < rowCount m /\ 0 <= rc.2 < columnCount) ->
    cellsWritten (events (writeCells v cells m))
    = cellsWritten (events m) ++ map (fun rc => Cell rc.1 rc.2) cells.
Proof.
  induction cells as [|[r c] rest IH]; intros m Hvalid; cbn [writeCells foldl map].
  - now rewrite app_nil_r.
  - destruct (Hvalid (r, c)) as [Hr Hc]; [now left|]. cbn [fst snd] in *.
    rewrite (index_valid m r c Hr Hc).
    unfold writeCells in IH. rewrite IH.
    + rewrite cellsWritten_setData. now rewrite <- app_assoc.
    + intros rc Hrc. apply (Hvalid rc). now right.
Qed.

Lemma pipelineOutcome_cellsWritten (call : HookCall) (q : RootItem -> DbQuery)
    (m m' : MessagesModel) (b : bool) :
  pipelineOutcome call q m b m' -> cellsWritten (events m') = cellsWritten (events m).
Proof.
  intros (_ & _ & _ & item & _ & Hpipe). cbn zeta in Hpipe.
  destruct (onBefore (m_db m) item call).1.
  - destruct (runQuery _ (q item)).1.
    + destruct Hpipe as (_ & _ & ->). rewrite cellsWritten_app. cbn. now rewrite app_nil_r.
    + destruct Hpipe as (_ & _ & ->). rewrite cellsWritten_app. cbn. now rewrite app_nil_r.
  - destruct Hpipe as (_ & _ & ->). rewrite cellsWritten_app. cbn. now rewrite app_nil_r.
Qed.

(** What a batch operation that writes [v] at each cell of [cells] leaves
    behind, whatever its result: each of the cells reads [v] under the edit
    role, every other cell reads as before, and the cells were written in
    order. *)
Lemma finishBatch_writeCells (v : QVariant) (cells : list (Z * Z)) (m m' : MessagesModel)
    (call : HookCall) (q : RootItem -> DbQuery) (b : bool) :
  finishBatch call q (writeCells v cells m) = Returns (b, m') ->
  cacheShaped m ->
  (forall rc, rc ∈ cells -> 0 <= rc.1 < rowCount m /\ 0 <= rc.2 < columnCount) ->
  (forall r c, 0 <= r < rowCount m -> 0 <= c < columnCount ->
     data m' (index m' r c) EditRole
     = Plain (if decide ((r, c) ∈ cells) then v else editData m (Cell r c)))
  /\ cellsWritten (events m')
     = cellsWritten (events m) ++ map (fun rc => Cell rc.1 rc.2) cells.
Proof.
  intros Hrun Hshape Hvalid. apply finishBatch_outcome in Hrun.
  pose proof (pipelineOutcome_cellsWritten _ _ _ _ _ Hrun) as Hev.
  destruct Hrun as (Hcache & Hrows & _).
  destruct (writeCells_editData v cells m Hshape Hvalid) as [_ Hread].
  assert (Hsame : m_rows (writeCells v cells m) = m_rows m).
  { clear. generalize m. induction cells as [|rc rest IH]; intros m0; [reflexivity|].
    unfold writeCells in *. cbn [foldl]. now rewrite IH. }
  split.
  - intros r c Hr Hc.
    rewrite (index_same_rows (writeCells v cells m) m') by assumption.
    rewrite (index_same_rows m _) by assumption.
    rewrite (index_valid m r c Hr Hc). cbn [data].
    rewrite (editData_same_cache (writeCells v cells m) m') by assumption.
    now rewrite Hread.
  - rewrite Hev. now apply writeCells_cellsWritten.
Qed.

(** ** Switching the importance of a list of messages *)

Lemma switchImportanceStep_loop (messages : list MessageIndex) (m : MessagesModel) :
  cacheShaped m -> validRows m messages ->
  m_rows (batch_model (foldl switchImportanceStep (startBatch m) messages)) = m_rows m
  /\ cacheShaped (batch_model (foldl switchImportanceStep (startBatch m) messages))
  /\ (forall r, 0 <= r < rowCount m ->
        editData (batch_model (foldl switchImportanceStep (startBatch m) messages))
                 (Cell r MSG_DB_IMPORTANT_INDEX)
        = match count_occ Z.eq_dec (index_row <$> messages) r with
          | O => editData m (Cell r MSG_DB_IMPORTANT_INDEX)
          | S n => IntValue (Nat.iter (S n) switched
                               (toInt (editData m (Cell r MSG_DB_IMPORTANT_INDEX))))
          end)
  /\ cellsWritten (events (batch_model (foldl switchImportanceStep (startBatch m) messages)))
     = cellsWritten (events m)
       ++ map (fun idx => Cell (index_row idx) MSG_DB_IMPORTANT_INDEX) messages.
Proof.
  intros Hshape. induction messages as [|idx rest IH] using rev_ind; intros Hvalid.
  - cbn [foldl startBatch batch_model fmap list_fmap count_occ map].
    split; [reflexivity|]. split; [exact Hshape|]. split; [reflexivity|].
    now rewrite app_nil_r.
  - assert (Hrow : 0 <= index_row idx < rowCount m).
    { apply Hvalid. apply elem_of_app. right. now left. }
    destruct IH as (Hrows & Hshape' & Hread & Hev).
    { intros i Hi. apply Hvalid. apply elem_of_app. now left. }
    rewrite foldl_app. cbn [foldl].
    set (b := foldl switchImportanceStep (startBatch m) rest) in *.
    unfold switchImportanceStep at 1 2 3 4. cbn [batch_model].
    assert (Hcol : 0 <= MSG_DB_IMPORTANT_INDEX < columnCount) by (vm_compute; split; congruence).
    assert (Hidx : index (batch_model b) (index_row idx) MSG_DB_IMPORTANT_INDEX
                   = Cell (index_row idx) MSG_DB_IMPORTANT_INDEX).
    { apply index_valid; [|exact Hcol]. unfold rowCount in *. now rewrite Hrows. }
    unfold messageImportance. rewrite Hidx.
    split; [exact Hrows|]. split; [now apply setData_shaped|]. split.
    + intros r Hr. rewrite editData_setData by assumption.
      rewrite fmap_app, count_occ_app. cbn [fmap list_fmap count_occ].
      destruct (decide (index_row idx = r /\ MSG_DB_IMPORTANT_INDEX = MSG_DB_IMPORTANT_INDEX))
        as [[Heq _]|Hne].
      * subst r. destruct (Z.eq_dec (index_row idx) (index_row idx)) as [_|Hn];
          [|contradiction].
        rewrite (Hread (index_row idx) Hrow). rewrite Nat.add_1_r.
        destruct (count_occ Z.eq_dec (index_row <$> rest) (index_row idx)) as [|n];
          reflexivity.
      * destruct (Z.eq_dec (index_row idx) r) as [Heq|_]; [exfalso; apply Hne; auto|].
        rewrite Nat.add_0_r. now apply Hread.
    + rewrite cellsWritten_setData, Hev, map_app. cbn [map]. now rewrite <- app_assoc.
Qed.

End BatchWrites.

Section DeletedFlags.
Context `{MessageServices}.

Lemma batch_written (v : QVariant) (cells : list (Z * Z)) (m written m' : MessagesModel)
    (call : HookCall) (q : RootItem -> DbQuery) (item : RootItem) :
  cacheShaped m ->
  (forall rc, rc ∈ cells -> 0 <= rc.1 < rowCount m /\ 0 <= rc.2 < columnCount) ->
  written = writeCells v cells m ->
  onlyCacheWrites m written ->
  m_selectedItem m = Some item ->
  pipelineOutcome call q written true m' ->
  (forall r c, 0 <= r < rowCount m -> 0 <= c < columnCount ->
     data m' (index m' r c) EditRole
     = Plain (if decide ((r, c) ∈ cells) then v else editData m (Cell r c)))
  /\ exists writes,
       Forall isCacheWrite writes
       /\ events m' = events m ++ writes ++ [LayoutChanged; Before call true;
                                             Query (q item) true; After call true].
Proof.
  intros Hshape Hvalid Hwritten (Hrows & _ & Hsel & writes & Hev & Hws) Hitem Hpipe.
  rewrite Hitem in Hsel.
  destruct (pipelineOutcome_true _ _ _ _ _ Hpipe Hsel) as (Hcache' & Hrows' & Hev').
  split.
  - intros r c Hr Hc.
    rewrite (index_same_rows written m') by assumption.
    rewrite (index_same_rows m written) by assumption.
    rewrite (index_valid m r c Hr Hc). cbn [data].
    rewrite (editData_same_cache written m') by assumption.
    rewrite Hwritten. f_equal.
    now apply (proj2 (writeCells_editData v cells m Hshape Hvalid)).
  - exists writes. split; [exact Hws|]. rewrite Hev', Hev. now rewrite <- app_assoc.
Qed.

(** C9.  When setBatchMessagesDeleted succeeds on a view that is not the
    recycle bin, every affected row reads soft-deleted = 1 in the cache with
    its permanently-deleted flag as before, and the messages were moved to
    the bin (deleteOrRestoreMessagesToFromBin, deleted = true); on the view
    of the recycle bin the permanently-deleted flag reads 1 and the messages
    were purged (permanentlyDeleteMessages).  The ids handed to the database
    are the ids of the affected rows, in the order of the list, and the hooks
    are given a message with that id for each of them.  When
    setBatchMessagesRestored succeeds, every affected row reads 0 for both
    flags. *)
Theorem deleted_flags_after_batches (messages : list MessageIndex) (m m' : MessagesModel)
    (item : RootItem) :
  cacheShaped m ->
  validRows m messages ->
  m_selectedItem m = Some item ->
  (setBatchMessagesDeleted messages m = Returns (true, m') ->
   exists deleted_msgs writes,
     messagesOf m messages deleted_msgs
     /\ Forall isCacheWrite writes
     /\ if decide (kind item = Bin) then
          (forall idx, idx ∈ messages ->
             data m' (index m' (index_row idx) MSG_DB_PDELETED_INDEX) EditRole
             = Plain (IntValue 1))
          /\ events m' = events m ++ writes
                         ++ [LayoutChanged; Before (MessagesDelete deleted_msgs) true;
                             Query (PermanentlyDeleteMessages (selectedIds m messages)) true;
                             After (MessagesDelete deleted_msgs) true]
        else
          (forall idx, idx ∈ messages ->
             data m' (index m' (index_row idx) MSG_DB_DELETED_INDEX) EditRole
             = Plain (IntValue 1)
             /\ data m' (index m' (index_row idx) MSG_DB_PDELETED_INDEX) EditRole
                = data m (index m (index_row idx) MSG_DB_PDELETED_INDEX) EditRole)
          /\ events m' = events m ++ writes
                         ++ [LayoutChanged; Before (MessagesDelete deleted_msgs) true;
                             Query (DeleteOrRestoreMessagesToFromBin
                                      (selectedIds m messages) true) true;
                             After (MessagesDelete deleted_msgs) true])
  /\ (setBatchMessagesRestored messages m = Returns (true, m') ->
      forall idx, idx ∈ messages ->
        data m' (index m' (index_row idx) MSG_DB_DELETED_INDEX) EditRole = Plain (IntValue 0)
        /\ data m' (index m' (index_row idx) MSG_DB_PDELETED_INDEX) EditRole
           = Plain (IntValue 0)).
Proof.
  intros Hshape Hvalid Hitem.
  assert (Hpd : 0 <= MSG_DB_PDELETED_INDEX < columnCount) by (vm_compute; split; congruence).
  assert (Hd : 0 <= MSG_DB_DELETED_INDEX < columnCount) by (vm_compute; split; congruence).
  split.
  - unfold setBatchMessagesDeleted. intros Hrun. apply finishBatch_outcome in Hrun.
    destruct (batch_loop_ids deleteStep m (fun _ _ => eq_refl) (fun _ _ => eq_refl)
                (deleteStep_keepsIds m) messages (startBatch m) Hvalid
                (keepsIds_refl m Hshape))
      as (_ & Hids & deleted_msgs & Hmsgs & Hof).
    cbn [startBatch message_ids msgs app] in Hids, Hmsgs.
    set (bt := foldl deleteStep (startBatch m) messages) in *.
    rewrite Hids, Hmsgs in Hrun.
    assert (Hrb : isRecycleBin (m_selectedItem m) = bool_decide (kind item = Bin))
      by now rewrite Hitem.
    assert (Hcells : exists column,
               column = (if bool_decide (kind item = Bin)
                         then MSG_DB_PDELETED_INDEX else MSG_DB_DELETED_INDEX)
               /\ batch_model bt
                  = writeCells (IntValue 1) (map (fun idx => (index_row idx, column)) messages) m).
    { eexists. split; [reflexivity|]. unfold bt. rewrite deleteStep_loop.
      cbn [batch_model startBatch]. now rewrite Hrb. }
    destruct Hcells as (column & Hcolumn & Hbt).
    set (cells := map (fun idx => (index_row idx, column)) messages) in *.
    assert (Hcol : 0 <= column < columnCount)
      by (rewrite Hcolumn; now destruct (bool_decide _)).
    assert (Hmem : forall idx, idx ∈ messages -> (index_row idx, column) ∈ cells).
    { intros idx Hidx. apply list_elem_of_fmap. now exists idx. }
    match type of Hrun with
    | pipelineOutcome ?call ?q _ _ _ =>
        destruct (batch_written (IntValue 1) cells m (batch_model bt) m' call q item Hshape)
          as (Hread & writes & Hws & Hev); try assumption
    end.
    + intros rc Hrc. apply list_elem_of_fmap in Hrc as (idx & -> & Hidx).
      split; [now apply Hvalid|exact Hcol].
    + unfold bt. apply batch_loop_onlyCacheWrites;
        [intros; now apply deleteStep_onlyCacheWrites|apply onlyCacheWrites_refl].
    + exists deleted_msgs, writes. split; [exact Hof|]. split; [exact Hws|].
      destruct (decide (kind item = Bin)) as [Hbin|Hbin].
      * rewrite bool_decide_eq_true_2 in Hcolumn by assumption. subst column.
        rewrite decide_False in Hev by tauto. split; [|exact Hev].
        intros idx Hidx. rewrite Hread by (try apply Hvalid; assumption).
        now rewrite decide_True by (now apply Hmem).
      * rewrite bool_decide_eq_false_2 in Hcolumn by assumption. subst column.
        rewrite decide_True in Hev by assumption. split; [|exact Hev].
        intros idx Hidx. rewrite !Hread by (try apply Hvalid; assumption). split.
        -- now rewrite decide_True by (now apply Hmem).
        -- rewrite decide_False.
           ++ now rewrite (index_valid m _ _ (Hvalid idx Hidx) Hpd).
           ++ intros Hin. apply list_elem_of_fmap in Hin as (idx' & Heq & _).
              apply (f_equal snd) in Heq. vm_compute in Heq. discriminate.
  - unfold setBatchMessagesRestored. intros Hrun. apply finishBatch_outcome in Hrun.
    set (bt := foldl restoreStep (startBatch m) messages) in *.
    set (cells := flat_map (fun idx => [(index_row idx, MSG_DB_PDELETED_INDEX);
                                        (index_row idx, MSG_DB_DELETED_INDEX)]) messages).
    assert (Hin : forall idx c, idx ∈ messages ->
                    c = MSG_DB_PDELETED_INDEX \/ c = MSG_DB_DELETED_INDEX ->
                    (index_row idx, c) ∈ cells).
    { intros idx c Hidx Hc. apply list_elem_of_In, in_flat_map. exists idx.
      split; [now apply list_elem_of_In|]. simpl. destruct Hc as [-> | ->]; auto. }
    match type of Hrun with
    | pipelineOutcome ?call ?q _ _ _ =>
        destruct (batch_written (IntValue 0) cells m (batch_model bt) m' call q item Hshape)
          as (Hread & _); try assumption
    end.
    + intros rc Hrc. apply list_elem_of_In, in_flat_map in Hrc as (idx & Hidx & Hrc).
      apply list_elem_of_In in Hidx. simpl in Hrc.
      destruct Hrc as [<-|[<-|[]]]; (split; [now apply Hvalid|assumption]).
    + unfold bt. now rewrite restoreStep_loop.
    + unfold bt. apply batch_loop_onlyCacheWrites;
        [intros; now apply restoreStep_onlyCacheWrites|apply onlyCacheWrites_refl].
    + intros idx Hidx. rewrite !Hread by (try apply Hvalid; assumption).
      rewrite !decide_True by (apply Hin; auto). auto.
Qed.

End DeletedFlags.

Lemma deleted_flags_after_batches_witness :
  let messages := [Cell 0 5; Cell 1 5] in
  let m := sampleMessages blogFeed true true true in
  exists m1 m2 deleted_msgs,
    setBatchMessagesDeleted messages m = Returns (true, m1)
    /\ setBatchMessagesRestored messages m = Returns (true, m2)
    /\ data m1 (index m1 1 MSG_DB_DELETED_INDEX) EditRole = Plain (IntValue 1)
    /\ data m1 (index m1 1 MSG_DB_PDELETED_INDEX) EditRole = Plain (IntValue 0)
    /\ data m2 (index m2 1 MSG_DB_DELETED_INDEX) EditRole = Plain (IntValue 0)
    /\ map (@m_id scriptedServices) deleted_msgs = [5; 6]
    /\ Query (DeleteOrRestoreMessagesToFromBin ["5"; "6"] true) true ∈ events m1
    /\ Before (MessagesDelete deleted_msgs) true ∈ events m1.
Proof.
  intros messages m.
  set (m1 := returned m (snd <$> setBatchMessagesDeleted messages m)).
  set (m2 := returned m (snd <$> setBatchMessagesRestored messages m)).
  assert (Hdel : setBatchMessagesDeleted messages m = Returns (true, m1))
    by (vm_compute; reflexivity).
  assert (Hres : setBatchMessagesRestored messages m = Returns (true, m2))
    by (vm_compute; reflexivity).
  assert (Hshape : cacheShaped m).
  { intros row rec Hrow. vm_compute in Hrow. discriminate. }
  assert (Hvalid : validRows m messages).
  { intros idx Hidx. apply elem_of_cons in Hidx as [->|Hidx];
      [|apply list_elem_of_singleton in Hidx as ->]; vm_compute; split; congruence. }
  destruct (deleted_flags_after_batches (H := scriptedServices) messages m m1 blogFeed
              Hshape Hvalid eq_refl) as [Hdeleted _].
  destruct (deleted_flags_after_batches (H := scriptedServices) messages m m2 blogFeed
              Hshape Hvalid eq_refl) as [_ Hrestored].
  destruct (Hdeleted Hdel) as (deleted_msgs & writes & Hof & _ & Hflags).
  rewrite decide_False in Hflags by discriminate. destruct Hflags as [Hflags Hev].
  assert (H1 : (Cell 1 5 : MessageIndex) ∈ messages) by (right; left).
  destruct (Hflags _ H1) as [Hd Hp]. destruct (Hrestored Hres _ H1) as [Hd0 _].
  cbn [index_row] in Hd, Hp, Hd0.
  exists m1, m2, deleted_msgs. split; [exact Hdel|]. split; [exact Hres|].
  split; [exact Hd|]. split; [rewrite Hp; vm_compute; reflexivity|]. split; [exact Hd0|].
  split.
  - unfold messagesOf in Hof. clear -Hof.
    inversion Hof as [|i1 x1 l1 r1 Hx1 Hrest1]; subst.
    inversion Hrest1 as [|i2 x2 l2 r2 Hx2 Hrest2]; subst.
    inversion Hrest2; subst. cbn [map]. rewrite Hx1, Hx2. vm_compute. reflexivity.
  - rewrite Hev. split.
    + apply elem_of_app. right. apply elem_of_app. right. right. right. left.
    + apply elem_of_app. right. apply elem_of_app. right. right. left.
Defined.

(** ** The order of the cache write and the before hook *)

Section HookOrder.
Context `{MessageServices}.

Lemma setBatchMessagesRead_written (messages : list MessageIndex) (read : Z)
    (m m' : MessagesModel) (b : bool) :
  setBatchMessagesRead messages read m = Returns (b, m') ->
  cacheShaped m -> validRows m messages ->
  (forall idx, idx ∈ messages ->
     data m' (index m' (index_row idx) MSG_DB_READ_INDEX) EditRole = Plain (IntValue read))
  /\ cellsWritten (events m')
     = cellsWritten (events m)
       ++ map (fun idx => Cell (index_row idx) MSG_DB_READ_INDEX) messages.
Proof.
  unfold setBatchMessagesRead. intros Hrun Hshape Hvalid.
  rewrite readStep_loop in Hrun. cbn [batch_model startBatch] in Hrun.
  assert (Hcol : 0 <= MSG_DB_READ_INDEX < columnCount) by (vm_compute; split; congruence).
  apply finishBatch_writeCells in Hrun as [Hread Hev]; [|exact Hshape|].
  - split.
    + intros idx Hidx. rewrite Hread by (try apply Hvalid; assumption).
      rewrite decide_True; [reflexivity|]. apply list_elem_of_fmap. now exists idx.
    + rewrite Hev, map_map. reflexivity.
  - intros rc Hrc. apply list_elem_of_fmap in Hrc as (i & -> & Hi).
    split; [now apply Hvalid|exact Hcol].
Qed.

Lemma setBatchMessagesDeleted_written (messages : list MessageIndex)
    (m m' : MessagesModel) (b : bool) :
  setBatchMessagesDeleted messages m = Returns (b, m') ->
  cacheShaped m -> validRows m messages ->
  let flag := if isRecycleBin (m_selectedItem m)
                then MSG_DB_PDELETED_INDEX else MSG_DB_DELETED_INDEX in
  (forall idx, idx ∈ messages ->
     data m' (index m' (index_row idx) flag) EditRole = Plain (IntValue 1))
  /\ cellsWritten (events m')
     = cellsWritten (events m) ++ map (fun idx => Cell (index_row idx) flag) messages.
Proof.
  intros Hrun Hshape Hvalid flag. unfold setBatchMessagesDeleted in Hrun.
  rewrite deleteStep_loop in Hrun. cbn [batch_model startBatch] in Hrun. fold flag in Hrun.
  assert (Hcol : 0 <= flag < columnCount)
    by (unfold flag; destruct (isRecycleBin _); vm_compute; split; congruence).
  apply finishBatch_writeCells in Hrun as [Hread Hev]; [|exact Hshape|].
  - split.
    + intros idx Hidx. rewrite Hread by (try apply Hvalid; assumption).
      rewrite decide_True; [reflexivity|]. apply list_elem_of_fmap. now exists idx.
    + rewrite Hev, map_map. reflexivity.
  - intros rc Hrc. apply list_elem_of_fmap in Hrc as (i & -> & Hi).
    split; [now apply Hvalid|exact Hcol].
Qed.

Lemma setBatchMessagesRestored_written (messages : list MessageIndex)
    (m m' : MessagesModel) (b : bool) :
  setBatchMessagesRestored messages m = Returns (b, m') ->
  cacheShaped m -> validRows m messages ->
  (forall idx, idx ∈ messages ->
     data m' (index m' (index_row idx) MSG_DB_PDELETED_INDEX) EditRole = Plain (IntValue 0)
     /\ data m' (index m' (index_row idx) MSG_DB_DELETED_INDEX) EditRole
        = Plain (IntValue 0))
  /\ cellsWritten (events m')
     = cellsWritten (events m)
       ++ flat_map (fun idx => [Cell (index_row idx) MSG_DB_PDELETED_INDEX;
                                Cell (index_row idx) MSG_DB_DELETED_INDEX]) messages.
Proof.
  unfold setBatchMessagesRestored. intros Hrun Hshape Hvalid.
  rewrite restoreStep_loop in Hrun. cbn [batch_model startBatch] in Hrun.
  assert (Hpd : 0 <= MSG_DB_PDELETED_INDEX < columnCount) by (vm_compute; split; congruence).
  assert (Hd : 0 <= MSG_DB_DELETED_INDEX < columnCount) by (vm_compute; split; congruence).
  set (cells := flat_map (fun idx => [(index_row idx, MSG_DB_PDELETED_INDEX);
                                      (index_row idx, MSG_DB_DELETED_INDEX)]) messages) in *.
  assert (Hin : forall idx c, idx ∈ messages ->
                  c = MSG_DB_PDELETED_INDEX \/ c = MSG_DB_DELETED_INDEX ->
                  (index_row idx, c) ∈ cells).
  { intros idx c Hidx Hc. apply list_elem_of_In, in_flat_map. exists idx.
    split; [now apply list_elem_of_In|]. simpl. destruct Hc as [-> | ->]; auto. }
  apply finishBatch_writeCells in Hrun as [Hread Hev]; [|exact Hshape|].
  - split.
    + intros idx Hidx. rewrite !Hread by (try apply Hvalid; assumption).
      rewrite !decide_True by (apply Hin; auto). auto.
    + rewrite Hev. f_equal. unfold cells. clear.
      induction messages as [|idx rest IH]; [reflexivity|].
      cbn [flat_map map app fst snd]. now rewrite IH.
  - intros rc Hrc. apply list_elem_of_In, in_flat_map in Hrc as (idx & Hidx & Hrc).
    apply list_elem_of_In in Hidx. simpl in Hrc.
    destruct Hrc as [<-|[<-|[]]]; (split; [now apply Hvalid|assumption]).
Qed.

Lemma switchBatchMessageImportance_written (messages : list MessageIndex)
    (m m' : MessagesModel) (b : bool) :
  switchBatchMessageImportance messages m = Returns (b, m') ->
  cacheShaped m -> validRows m messages ->
  (forall idx, idx ∈ messages ->
     data m' (index m' (index_row idx) MSG_DB_IMPORTANT_INDEX) EditRole
     = Plain (IntValue (Nat.iter (count_occ Z.eq_dec (index_row <$> messages) (index_row idx))
                                 switched (messageImportance m (index_row idx)))))
  /\ cellsWritten (events m')
     = cellsWritten (events m)
       ++ map (fun idx => Cell (index_row idx) MSG_DB_IMPORTANT_INDEX) messages.
Proof.
  unfold switchBatchMessageImportance. intros Hrun Hshape Hvalid.
  apply finishBatch_outcome in Hrun.
  pose proof (pipelineOutcome_cellsWritten _ _ _ _ _ Hrun) as Hev.
  destruct Hrun as (Hcache & Hrows & _).
  destruct (switchImportanceStep_loop messages m Hshape Hvalid)
    as (Hrows' & _ & Hread & Hev').
  set (written := batch_model (foldl switchImportanceStep (startBatch m) messages)) in *.
  assert (Hcol : 0 <= MSG_DB_IMPORTANT_INDEX < columnCount) by (vm_compute; split; congruence).
  split; [|now rewrite Hev, Hev'].
  intros idx Hidx. pose proof (Hvalid idx Hidx) as Hrow.
  rewrite (index_same_rows written m') by assumption.
  rewrite (index_same_rows m written) by assumption.
  rewrite (index_valid m _ _ Hrow Hcol). cbn [data].
  rewrite (editData_same_cache written m') by assumption.
  rewrite (Hread _ Hrow). unfold messageImportance.
  rewrite (index_valid m _ _ Hrow Hcol).
  assert (Hcount : (count_occ Z.eq_dec (index_row <$> messages) (index_row idx) > 0)%nat).
  { apply count_occ_In, list_elem_of_In, list_elem_of_fmap. now exists idx. }
  destruct (count_occ Z.eq_dec (index_row <$> messages) (index_row idx)); [lia|reflexivity].
Qed.

Lemma batch_outcome (step : Batch -> MessageIndex -> Batch) (call : Batch -> HookCall)
    (q : Batch -> RootItem -> DbQuery) (messages : list MessageIndex)
    (m m' : MessagesModel) (b : bool) :
  (forall bt idx, onlyCacheWrites m (batch_model bt) ->
                  onlyCacheWrites m (batch_model (step bt idx))) ->
  finishBatch (call (foldl step (startBatch m) messages))
              (q (foldl step (startBatch m) messages))
              (batch_model (foldl step (startBatch m) messages)) = Returns (b, m') ->
  batchOutcome step call q messages m b m'.
Proof.
  intros Hstep Hrun. split.
  - apply batch_loop_onlyCacheWrites; [exact Hstep|apply onlyCacheWrites_refl].
  - now apply finishBatch_outcome.
Qed.

(** C4, as the code has it.  The batch operations (read, importance,
    delete, restore) rewrite the cache for every affected row first, one
    write for each index of the list and in its order (two for a restore),
    and ask the before hook after that; when the hook rejects, nothing is
    persisted, the operation answers false, and the writes stay in the
    cache: whatever the result, every affected row reads the read status
    asked for, 1 for the deleted flag of the view, 0 for both deleted flags
    after a restore, and the importance switched as many times as the row
    occurs in the list.  The single-message operations setMessageRead (when
    the read status differs from the one asked for) and
    switchMessageImportance ask the before hook first; when it rejects, they
    answer false and the cache, like the database, is untouched.
    setMessageRead answers true at once, and does nothing, when the row
    already has the read status asked for. *)
Theorem hook_and_cache_write_order :
  (forall messages read (m m' : MessagesModel) b,
      setBatchMessagesRead messages read m = Returns (b, m') ->
      batchOutcome (readStep read) (fun bt => SetMessagesRead (msgs bt) read)
                   (fun bt _ => MarkMessagesReadUnread (message_ids bt) read)
                   messages m b m'
      /\ (cacheShaped m -> validRows m messages ->
          (forall idx, idx ∈ messages ->
             data m' (index m' (index_row idx) MSG_DB_READ_INDEX) EditRole
             = Plain (IntValue read))
          /\ cellsWritten (events m')
             = cellsWritten (events m)
               ++ map (fun idx => Cell (index_row idx) MSG_DB_READ_INDEX) messages))
  /\ (forall messages (m m' : MessagesModel) b,
        switchBatchMessageImportance messages m = Returns (b, m') ->
        batchOutcome switchImportanceStep
                     (fun bt => SwitchMessageImportance (message_states bt))
                     (fun bt _ => SwitchMessagesImportance (message_ids bt))
                     messages m b m'
        /\ (cacheShaped m -> validRows m messages ->
            (forall idx, idx ∈ messages ->
               data m' (index m' (index_row idx) MSG_DB_IMPORTANT_INDEX) EditRole
               = Plain (IntValue
                          (Nat.iter (count_occ Z.eq_dec (index_row <$> messages)
                                               (index_row idx))
                                    switched (messageImportance m (index_row idx)))))
            /\ cellsWritten (events m')
               = cellsWritten (events m)
                 ++ map (fun idx => Cell (index_row idx) MSG_DB_IMPORTANT_INDEX) messages))
  /\ (forall messages (m m' : MessagesModel) b,
        setBatchMessagesDeleted messages m = Returns (b, m') ->
        batchOutcome deleteStep (fun bt => MessagesDelete (msgs bt))
                     (fun bt item =>
                        if decide (kind item <> Bin)
                        then DeleteOrRestoreMessagesToFromBin (message_ids bt) true
                        else PermanentlyDeleteMessages (message_ids bt))
                     messages m b m'
        /\ (cacheShaped m -> validRows m messages ->
            let flag := if isRecycleBin (m_selectedItem m)
                          then MSG_DB_PDELETED_INDEX else MSG_DB_DELETED_INDEX in
            (forall idx, idx ∈ messages ->
               data m' (index m' (index_row idx) flag) EditRole = Plain (IntValue 1))
            /\ cellsWritten (events m')
               = cellsWritten (events m)
                 ++ map (fun idx => Cell (index_row idx) flag) messages))
  /\ (forall messages (m m' : MessagesModel) b,
        setBatchMessagesRestored messages m = Returns (b, m') ->
        batchOutcome restoreStep (fun bt => MessagesRestoredFromBin (msgs bt))
                     (fun bt _ => DeleteOrRestoreMessagesToFromBin (message_ids bt) false)
                     messages m b m'
        /\ (cacheShaped m -> validRows m messages ->
            (forall idx, idx ∈ messages ->
               data m' (index m' (index_row idx) MSG_DB_PDELETED_INDEX) EditRole
               = Plain (IntValue 0)
               /\ data m' (index m' (index_row idx) MSG_DB_DELETED_INDEX) EditRole
                  = Plain (IntValue 0))
            /\ cellsWritten (events m')
               = cellsWritten (events m)
                 ++ flat_map (fun idx => [Cell (index_row idx) MSG_DB_PDELETED_INDEX;
                                          Cell (index_row idx) MSG_DB_DELETED_INDEX])
                             messages))
  /\ (forall row_index read (m m' : MessagesModel) b,
        setMessageRead row_index read m = Returns (b, m') ->
        toInt (editData m (index m row_index MSG_DB_READ_INDEX)) <> read ->
        singleOutcome (SetMessagesRead [messageAt m row_index] read)
                      (index m row_index MSG_DB_READ_INDEX) (IntValue read) m b m')
  /\ (forall row_index (m m' : MessagesModel) b,
        switchMessageImportance row_index m = Returns (b, m') ->
        let next_importance :=
          if messageImportance m row_index =? Important then NotImportant else Important in
        singleOutcome (SwitchMessageImportance [(messageAt m row_index, next_importance)])
                      (index m row_index MSG_DB_IMPORTANT_INDEX) (IntValue next_importance)
                      m b m')
  /\ (forall row_index read (m : MessagesModel),
        toInt (editData m (index m row_index MSG_DB_READ_INDEX)) = read ->
        setMessageRead row_index read m = Returns (true, m)).
Proof.
  split; [|split; [|split; [|split; [|split; [|split]]]]].
  7:{ intros row_index read m Hsame. unfold setMessageRead.
      now rewrite (proj2 (Z.eqb_eq _ _) Hsame). }
  - intros messages read m m' b Hrun.
    split; [|exact (setBatchMessagesRead_written _ _ _ _ _ Hrun)].
    apply batch_outcome; [intros; now apply readStep_onlyCacheWrites|exact Hrun].
  - intros messages m m' b Hrun.
    split; [|exact (switchBatchMessageImportance_written _ _ _ _ Hrun)].
    apply batch_outcome; [intros; now apply switchImportanceStep_onlyCacheWrites|exact Hrun].
  - intros messages m m' b Hrun.
    split; [|exact (setBatchMessagesDeleted_written _ _ _ _ Hrun)].
    apply batch_outcome; [intros; now apply deleteStep_onlyCacheWrites|exact Hrun].
  - intros messages m m' b Hrun.
    split; [|exact (setBatchMessagesRestored_written _ _ _ _ Hrun)].
    apply batch_outcome; [intros; now apply restoreStep_onlyCacheWrites|exact Hrun].
  - intros. now apply setMessageRead_outcome.
  - intros. now apply switchMessageImportance_outcome.
Qed.

End HookOrder.

(** Batches whose before hook rejects: the writes made before the hook was
    asked are still in the cache. *)
Lemma hook_and_cache_write_order_witness :
  let m := sampleMessages blogFeed false true true in
  exists m1 m2 m3 m4,
    setBatchMessagesRead [Cell 0 5] 1 m = Returns (false, m1)
    /\ data m1 (index m1 0 MSG_DB_READ_INDEX) EditRole = Plain (IntValue 1)
    /\ events m1 = [CacheWrite (Cell 0 MSG_DB_READ_INDEX) (IntValue 1); LayoutChanged;
                    Before (SetMessagesRead [messageRow 5 0 0 0 "First"] 1) false]
    /\ switchBatchMessageImportance [Cell 0 5] m = Returns (false, m2)
    /\ data m2 (index m2 0 MSG_DB_IMPORTANT_INDEX) EditRole = Plain (IntValue Important)
    /\ setBatchMessagesDeleted [Cell 0 5] m = Returns (false, m3)
    /\ data m3 (index m3 0 MSG_DB_DELETED_INDEX) EditRole = Plain (IntValue 1)
    /\ setBatchMessagesRestored [Cell 0 5] m = Returns (false, m4)
    /\ cellsWritten (events m4) = [Cell 0 MSG_DB_PDELETED_INDEX; Cell 0 MSG_DB_DELETED_INDEX].
Proof.
  intros m.
  set (m1 := returned m (snd <$> setBatchMessagesRead [Cell 0 5] 1 m)).
  set (m2 := returned m (snd <$> switchBatchMessageImportance [Cell 0 5] m)).
  set (m3 := returned m (snd <$> setBatchMessagesDeleted [Cell 0 5] m)).
  set (m4 := returned m (snd <$> setBatchMessagesRestored [Cell 0 5] m)).
  assert (Hrun1 : setBatchMessagesRead [Cell 0 5] 1 m = Returns (false, m1))
    by (vm_compute; reflexivity).
  assert (Hrun2 : switchBatchMessageImportance [Cell 0 5] m = Returns (false, m2))
    by (vm_compute; reflexivity).
  assert (Hrun3 : setBatchMessagesDeleted [Cell 0 5] m = Returns (false, m3))
    by (vm_compute; reflexivity).
  assert (Hrun4 : setBatchMessagesRestored [Cell 0 5] m = Returns (false, m4))
    by (vm_compute; reflexivity).
  assert (Hshape : cacheShaped m).
  { intros row rec Hrow. vm_compute in Hrow. discriminate. }
  assert (Hvalid : validRows m [Cell 0 5]).
  { intros idx Hidx. apply list_elem_of_singleton in Hidx as ->.
    vm_compute. split; congruence. }
  assert (Hin : (Cell 0 5 : MessageIndex) ∈ [Cell 0 5]) by now left.
  pose proof (hook_and_cache_write_order (H := scriptedServices))
    as (Hread & Hswitch & Hdelete & Hrestore & _).
  destruct (Hread _ _ _ _ _ Hrun1) as [_ Hread1].
  destruct (Hswitch _ _ _ _ Hrun2) as [_ Hswitch2].
  destruct (Hdelete _ _ _ _ Hrun3) as [_ Hdelete3].
  destruct (Hrestore _ _ _ _ Hrun4) as [_ Hrestore4].
  exists m1, m2, m3, m4.
  split; [exact Hrun1|].
  split; [exact (proj1 (Hread1 Hshape Hvalid) _ Hin)|].
  split; [vm_compute; reflexivity|].
  split; [exact Hrun2|].
  split; [exact (proj1 (Hswitch2 Hshape Hvalid) _ Hin)|].
  split; [exact Hrun3|].
  split; [exact (proj1 (Hdelete3 Hshape Hvalid) _ Hin)|].
  split; [exact Hrun4|].
  exact (proj2 (Hrestore4 Hshape Hvalid)).
Defined.

(** C4 as the specification words it does not hold for setMessageRead: its
    before hook is asked before the cache is written, and when the hook
    rejects there is no write left in the cache: the row still reads
    unread. *)
Lemma setMessageRead_veto_counterexample :
  let m := sampleMessages blogFeed false true true in
  exists m',
    setMessageRead 0 Read m = Returns (false, m')
    /\ m_cache m' = ∅
    /\ data m' (index m' 0 MSG_DB_READ_INDEX) EditRole = Plain (IntValue Unread)
    /\ events m' = [Before (SetMessagesRead [messageRow 5 0 0 0 "First"] Read) false].
Proof.
  intros m. eexists. split; [vm_compute; reflexivity|].
  split; [reflexivity|]. split; vm_compute; reflexivity.
Qed.

(** * Further properties of the two models *)

(** ** The auto-update timer *)

Lemma sameButRemaining_refl x : sameButRemaining x x.
Proof. unfold sameButRemaining. tauto. Qed.

Lemma sameButRemaining_trans x y z :
  sameButRemaining x y -> sameButRemaining y z -> sameButRemaining x z.
Proof. unfold sameButRemaining. intuition congruence. Qed.

Lemma sameTree_refl h : sameTree h h.
Proof.
  intros a. destruct (h !! a); constructor. apply sameButRemaining_refl.
Qed.

Lemma sameTree_trans h1 h2 h3 : sameTree h1 h2 -> sameTree h2 h3 -> sameTree h1 h3.
Proof.
  intros H12 H23 a. specialize (H12 a). specialize (H23 a).
  destruct (h1 !! a), (h2 !! a), (h3 !! a); inversion H12; inversion H23; subst; constructor.
  eapply sameButRemaining_trans; eassumption.
Qed.

Lemma sameButRemaining_afterPass f : sameButRemaining f (afterPass f).
Proof.
  unfold afterPass. destruct (autoUpdateType f) eqn:Ht;
    try apply sameButRemaining_refl.
  destruct (_ <=? 0); unfold sameButRemaining; simpl; tauto.
Qed.

Lemma scheduleStep_sameTree now h out x :
  sameTree h (scheduleStep now (h, out) x).1.
Proof.
  destruct (scheduleStep_spec now h out x) as (h1 & Hs & Hx & Hoth).
  rewrite Hs. simpl. intros a. destruct (decide (a = x)) as [->|Hne].
  - rewrite Hx. destruct (h !! x); constructor. apply sameButRemaining_afterPass.
  - rewrite Hoth by assumption. destruct (h !! a); constructor.
    apply sameButRemaining_refl.
Qed.

Lemma scheduleLoop_sameTree now (l : list addr) :
  forall h out, sameTree h (foldl (scheduleStep now) (h, out) l).1.
Proof.
  induction l as [|x l IH]; intros h out; cbn [foldl].
  - apply sameTree_refl.
  - destruct (scheduleStep now (h, out) x) as [h1 out1] eqn:Hs.
    eapply sameTree_trans; [|apply IH].
    pose proof (scheduleStep_sameTree now h out x) as Hst. now rewrite Hs in Hst.
Qed.

Lemma sameTree_size h h' : sameTree h h' -> size h = size h'.
Proof.
  intros Hst. rewrite <- !size_dom. f_equal. apply set_eq. intros a.
  rewrite !elem_of_dom. specialize (Hst a).
  destruct (h !! a), (h' !! a); inversion Hst; split; intros [? ?]; try discriminate; eauto.
Qed.

Lemma sameTree_descendants h h' : sameTree h h' ->
  forall fuel a, descendants fuel h a = descendants fuel h' a.
Proof.
  intros Hst. induction fuel as [|n IH]; intros a; [reflexivity|]. simpl.
  pose proof (Hst a) as Ha.
  destruct (h !! a) as [x|], (h' !! a) as [y|]; inversion Ha as [? ? Hxy|]; subst;
    [|reflexivity].
  destruct Hxy as (_ & _ & _ & Hc & _). rewrite <- Hc. clear Hc.
  generalize (childItems x) as l. intros l.
  induction l as [|c l IHl]; [reflexivity|].
  cbn [flat_map]. now rewrite IH, IHl.
Qed.

Lemma sameTree_isFeed h h' a : sameTree h h' -> isFeed h a = isFeed h' a.
Proof.
  intros Hst. unfold isFeed. specialize (Hst a).
  destruct (h !! a) as [x|], (h' !! a) as [y|]; inversion Hst as [? ? Hxy|]; subst;
    [|reflexivity].
  destruct Hxy as (Hk & _). now rewrite Hk.
Qed.

Lemma sameTree_feedsForItem h h' a : sameTree h h' -> feedsForItem h a = feedsForItem h' a.
Proof.
  intros Hst. unfold feedsForItem, getRecursiveChildren.
  rewrite (sameTree_size h h' Hst), (sameTree_descendants h h' Hst).
  apply filter_agree. intros x _. now rewrite (sameTree_isFeed h h' x Hst).
Qed.

Section AutoUpdateFacts.
Context `{Persistence}.

Lemma feedsForScheduledUpdate_sameTree now (m : FeedsModel) :
  sameTree (items m) (items (feedsForScheduledUpdate now m).2)
  /\ m_rootItem (feedsForScheduledUpdate now m).2 = m_rootItem m.
Proof.
  unfold feedsForScheduledUpdate, scheduleLoop.
  pose proof (scheduleLoop_sameTree now (allFeeds m) (items m) []) as Hst.
  destruct (foldl _ _ _) as [h' out']. simpl in *. auto.
Qed.

Lemma executeNextAutoUpdate_sameTree tryLock (s : AutoUpdate) :
  sameTree (items (feedsModel s)) (items (feedsModel (executeNextAutoUpdate tryLock s)))
  /\ m_rootItem (feedsModel (executeNextAutoUpdate tryLock s)) = m_rootItem (feedsModel s)
  /\ m_globalAutoUpdateEnabled (executeNextAutoUpdate tryLock s) = m_globalAutoUpdateEnabled s
  /\ m_globalAutoUpdateInitialInterval (executeNextAutoUpdate tryLock s)
     = m_globalAutoUpdateInitialInterval s.
Proof.
  unfold executeNextAutoUpdate. destruct tryLock; simpl.
  - match goal with |- context [feedsForScheduledUpdate ?now ?m] =>
      pose proof (feedsForScheduledUpdate_sameTree now m) as [Hst Hroot];
      destruct (feedsForScheduledUpdate now m) as [out m'] end.
    simpl in *. auto.
  - split; [apply sameTree_refl|auto].
Qed.

Lemma ticks_snoc locks l (s : AutoUpdate) :
  ticks (locks ++ [l]) s = executeNextAutoUpdate l (ticks locks s).
Proof. unfold ticks. now rewrite foldl_app. Qed.

Lemma ticks_sameTree locks (s : AutoUpdate) :
  sameTree (items (feedsModel s)) (items (feedsModel (ticks locks s)))
  /\ m_rootItem (feedsModel (ticks locks s)) = m_rootItem (feedsModel s)
  /\ m_globalAutoUpdateEnabled (ticks locks s) = m_globalAutoUpdateEnabled s
  /\ m_globalAutoUpdateInitialInterval (ticks locks s) = m_globalAutoUpdateInitialInterval s.
Proof.
  induction locks as [|l locks IH] using rev_ind.
  - split; [apply sameTree_refl|auto].
  - rewrite ticks_snoc. destruct IH as (Hst & Hroot & Hen & Hin).
    destruct (executeNextAutoUpdate_sameTree l (ticks locks s)) as (Hst' & Hroot' & Hen' & Hin').
    split; [eapply sameTree_trans; eassumption|]. repeat split; congruence.
Qed.

Lemma allFeeds_sameTree (m m' : FeedsModel) :
  sameTree (items m) (items m') -> m_rootItem m' = m_rootItem m -> allFeeds m' = allFeeds m.
Proof.
  intros Hst Hroot. unfold allFeeds. rewrite Hroot. symmetry. now apply sameTree_feedsForItem.
Qed.

End AutoUpdateFacts.

Lemma succ_mod (k m : Z) :
  0 <= k -> 0 < m ->
  (k + 1) mod m = if decide (k mod m = m - 1) then 0 else k mod m + 1.
Proof.
  intros Hk Hm. pose proof (Z.mod_pos_bound k m Hm) as Hb.
  pose proof (Z.div_mod k m ltac:(lia)) as Hdm.
  destruct (decide (k mod m = m - 1)) as [He|Hne].
  - symmetry. apply (Z.mod_unique_pos _ _ (k / m + 1)); [lia|].
    rewrite Z.mul_add_distr_l. lia.
  - symmetry. apply (Z.mod_unique_pos _ _ (k / m)); lia.
Qed.

Lemma obtained_snoc locks l :
  obtained (locks ++ [l]) = obtained locks + (if l then 1 else 0).
Proof.
  unfold obtained. rewrite filter_app, length_app, filter_cons, filter_nil.
  destruct l; [rewrite decide_True by reflexivity|rewrite decide_False by discriminate];
    cbn [length]; lia.
Qed.

Lemma obtained_nonneg locks : 0 <= obtained locks.
Proof. unfold obtained. lia. Qed.

(** A feed on the global interval is put on the list by a pass exactly when
    the pass is told that the global interval has elapsed. *)
Lemma scheduleLoop_default now (feed : addr) (l : list addr) :
  forall (h : Heap) out,
    (exists f, h !! feed = Some f /\ autoUpdateType f = DefaultAutoUpdate) ->
    feed ∈ (foldl (scheduleStep now) (h, out) l).2
    <-> feed ∈ out \/ (now = true /\ feed ∈ l).
Proof.
  induction l as [|x l IH]; intros h out Hf; cbn [foldl].
  - simpl. split; [auto|]. intros [?|[_ Hin]]; [assumption|inversion Hin].
  - destruct (scheduleStep_spec now h out x) as (h1 & Hs & Hx & Hoth).
    rewrite Hs. rewrite IH.
    2:{ destruct Hf as (f & Hlook & Ht). destruct (decide (feed = x)) as [->|Hne].
        - rewrite Hx, Hlook. simpl. exists (afterPass f). split; [reflexivity|].
          unfold afterPass. now rewrite Ht.
        - rewrite Hoth by assumption. eauto. }
    rewrite elem_of_app, elem_of_cons.
    destruct Hf as (f & Hlook & Ht).
    destruct (decide (feed = x)) as [->|Hne].
    + unfold dueNow. rewrite Hlook, Ht. destruct now.
      * rewrite list_elem_of_singleton. intuition.
      * split; [intros [[?|Hn]|[? _]]|intros [?|[? _]]]; auto; try discriminate.
        inversion Hn.
    + assert (Hnot : feed ∉ (if dueNow now h x then [x] else [])).
      { destruct (dueNow now h x); [|apply not_elem_of_nil].
        now rewrite list_elem_of_singleton. }
      intuition.
Qed.

Section AutoUpdatePeriods.
Context `{Persistence}.

Lemma ticks_global_countdown (s : AutoUpdate) (n : Z) (locks : list bool) :
  0 <= n < 2 ^ 31 ->
  m_globalAutoUpdateRemainingInterval (ticks locks (updateAutoUpdateStatus n true s))
  = n - obtained locks mod (n + 1).
Proof.
  intros Hn. induction locks as [|l locks IH] using rev_ind.
  - cbn. rewrite Z.mod_0_l by lia. lia.
  - rewrite ticks_snoc, obtained_snoc.
    destruct (ticks_sameTree locks (updateAutoUpdateStatus n true s)) as (_ & _ & Hen & Hin).
    cbn in Hen, Hin.
    set (before := ticks locks (updateAutoUpdateStatus n true s)) in *.
    pose proof (obtained_nonneg locks) as Hk.
    pose proof (Z.mod_pos_bound (obtained locks) (n + 1) ltac:(lia)) as Hb.
    destruct l.
    + unfold executeNextAutoUpdate. cbn [negb].
      rewrite Hen, Hin, IH.
      destruct (feedsForScheduledUpdate _ _) as [out m']. cbn.
      rewrite dec32_no_overflow by lia.
      rewrite succ_mod by lia.
      destruct (decide (obtained locks mod (n + 1) = n + 1 - 1)) as [He|Hne].
      * rewrite (proj2 (Z.ltb_lt _ _)) by lia. lia.
      * rewrite (proj2 (Z.ltb_ge _ _)) by lia. lia.
    + cbn. rewrite IH. now rewrite Z.add_0_r.
Qed.

(** X1.  The global interval is counted in ticks on which the update lock
    was obtained, and a whole cycle of the countdown takes one tick more than
    the interval.  After updateAutoUpdateStatus has set the interval [n] and
    enabled the global auto-update, the countdown after [k] such ticks is
    [n - k mod (n + 1)], and a feed on the global interval is named by the
    request of the [k]-th such tick exactly when [k mod (n + 1) = n]: for
    the first time after [n] ticks, and then every [n + 1] ticks.  Ticks on
    which the lock is busy are not counted. *)
Theorem global_interval_takes_one_tick_more (s : AutoUpdate) (n : Z) (locks : list bool)
    (feed : addr) (f : RootItem) :
  0 <= n < 2 ^ 31 ->
  feed ∈ allFeeds (feedsModel s) ->
  items (feedsModel s) !! feed = Some f ->
  autoUpdateType f = DefaultAutoUpdate ->
  let before := ticks locks (updateAutoUpdateStatus n true s) in
  let after := executeNextAutoUpdate true before in
  let k := obtained locks + 1 in
  m_globalAutoUpdateRemainingInterval after = n - k mod (n + 1)
  /\ (k mod (n + 1) = n ->
      exists feeds, feedsUpdateRequested after = feedsUpdateRequested before ++ [feeds]
                    /\ feed ∈ feeds)
  /\ (k mod (n + 1) <> n ->
      feedsUpdateRequested after = feedsUpdateRequested before
      \/ exists feeds, feedsUpdateRequested after = feedsUpdateRequested before ++ [feeds]
                       /\ feed ∉ feeds).
Proof.
  intros Hn Hfeed Hlook Ht before after k.
  pose proof (ticks_global_countdown s n (locks ++ [true]) Hn) as Hcount.
  rewrite ticks_snoc, obtained_snoc in Hcount. fold before in Hcount. fold after in Hcount.
  split; [exact Hcount|].
  destruct (ticks_sameTree locks (updateAutoUpdateStatus n true s)) as (Hst & Hroot & Hen & _).
  fold before in Hst, Hroot, Hen. cbn in Hst, Hroot, Hen.
  assert (Hall : allFeeds (feedsModel before) = allFeeds (feedsModel s))
    by now apply allFeeds_sameTree.
  assert (Hdef : exists f', items (feedsModel before) !! feed = Some f'
                            /\ autoUpdateType f' = DefaultAutoUpdate).
  { specialize (Hst feed). rewrite Hlook in Hst.
    destruct (items (feedsModel before) !! feed) as [f'|]; inversion Hst as [? ? Hxy|]; subst.
    exists f'. split; [reflexivity|]. destruct Hxy as (_ & _ & _ & _ & _ & Hty & _).
    congruence. }
  subst after. unfold executeNextAutoUpdate in *. cbn [negb] in *. rewrite Hen in *.
  set (remaining := if dec32 (m_globalAutoUpdateRemainingInterval before) <? 0
                    then m_globalAutoUpdateInitialInterval before
                    else dec32 (m_globalAutoUpdateRemainingInterval before)) in *.
  unfold feedsForScheduledUpdate, scheduleLoop in *.
  pose proof (scheduleLoop_default (true && (remaining =? 0)) feed (allFeeds (feedsModel before))
                (items (feedsModel before)) [] Hdef) as Hmem.
  destruct (foldl _ _ _) as [h' out]. cbn in Hcount, Hmem |- *.
  rewrite Hall in Hmem.
  assert (Hin : feed ∈ out <-> remaining = n - k mod (n + 1) /\ k mod (n + 1) = n).
  { rewrite Hmem, Hcount. rewrite Z.eqb_eq. split.
    - intros [Hnil|[Hz _]]; [inversion Hnil|]. fold k in Hz. fold k. lia.
    - intros [_ Hk]. right. fold k. split; [lia|assumption]. }
  split.
  - intros Hk. assert (Hf : feed ∈ out) by (apply Hin; split; [exact Hcount|exact Hk]).
    destruct out as [|x out]; [inversion Hf|]. eexists. split; [reflexivity|exact Hf].
  - intros Hk. assert (Hf : feed ∉ out) by (rewrite Hin; tauto).
    destruct out as [|x out]; [now left|]. right. eexists. split; [reflexivity|exact Hf].
Qed.

Lemma setAutoUpdateRemainingInterval_same (f : RootItem) :
  setAutoUpdateRemainingInterval (autoUpdateRemainingInterval f) f = f.
Proof. now destruct f. Qed.

(** One tick on which the lock was obtained, seen from a feed with an
    interval of its own. *)
Lemma executeNextAutoUpdate_specific (s : AutoUpdate) (feed : addr) (f : RootItem) :
  NoDup (allFeeds (feedsModel s)) ->
  feed ∈ allFeeds (feedsModel s) ->
  items (feedsModel s) !! feed = Some f ->
  autoUpdateType f = SpecificAutoUpdate ->
  let after := executeNextAutoUpdate true s in
  items (feedsModel after) !! feed = Some (afterPass f)
  /\ (dec32 (autoUpdateRemainingInterval f) <= 0 ->
      exists feeds, feedsUpdateRequested after = feedsUpdateRequested s ++ [feeds]
                    /\ feed ∈ feeds)
  /\ (0 < dec32 (autoUpdateRemainingInterval f) ->
      feedsUpdateRequested after = feedsUpdateRequested s
      \/ exists feeds, feedsUpdateRequested after = feedsUpdateRequested s ++ [feeds]
                       /\ feed ∉ feeds).
Proof.
  intros Hnd Hfeed Hlook Ht after. subst after.
  unfold executeNextAutoUpdate, feedsForScheduledUpdate, scheduleLoop. cbn [negb].
  match goal with |- context [foldl (scheduleStep ?now) ?st ?l] =>
    pose proof (fun h' out' => scheduleLoop_inv now l (items (feedsModel s)) [] h' out' Hnd)
      as Hloop;
    destruct (foldl (scheduleStep now) st l) as [h' out] eqn:Hrun;
    set (auto_update_now := now) in * end.
  destruct (Hloop h' out eq_refl) as (Hout & Hin & _).
  specialize (Hin feed Hfeed). rewrite Hlook in Hin.
  assert (Hmem : feed ∈ out <-> dec32 (autoUpdateRemainingInterval f) <= 0).
  { rewrite Hout. cbn [app]. rewrite list_elem_of_filter. unfold dueNow.
    rewrite Hlook, Ht, Z.leb_le. tauto. }
  cbn [feedsModel feedsUpdateRequested items setItems fst snd].
  split; [exact Hin|]. split.
  - intros Hd. apply Hmem in Hd. destruct out as [|x out]; [inversion Hd|].
    eexists. split; [reflexivity|exact Hd].
  - intros Hd. assert (Hn : feed ∉ out) by (rewrite Hmem; lia).
    destruct out as [|x out]; [now left|]. right. eexists. split; [reflexivity|exact Hn].
Qed.

Lemma ticks_specific_countdown (s : AutoUpdate) (locks : list bool) (feed : addr)
    (f : RootItem) (i : Z) :
  NoDup (allFeeds (feedsModel s)) ->
  feed ∈ allFeeds (feedsModel s) ->
  items (feedsModel s) !! feed = Some f ->
  autoUpdateType f = SpecificAutoUpdate ->
  autoUpdateInitialInterval f = i ->
  autoUpdateRemainingInterval f = i ->
  1 <= i < 2 ^ 31 ->
  items (feedsModel (ticks locks s)) !! feed
  = Some (setAutoUpdateRemainingInterval (i - obtained locks mod i) f).
Proof.
  intros Hnd Hfeed Hlook Ht Hinit Hrem Hi.
  induction locks as [|l locks IH] using rev_ind.
  - cbn [ticks foldl]. rewrite Hlook. f_equal.
    replace (i - obtained [] mod i) with (autoUpdateRemainingInterval f).
    + symmetry. apply setAutoUpdateRemainingInterval_same.
    + rewrite Hrem. unfold obtained. cbn. rewrite Z.mod_0_l by lia. lia.
  - rewrite ticks_snoc, obtained_snoc. destruct l.
    + destruct (ticks_sameTree locks s) as (Hst & Hroot & _).
      pose proof (allFeeds_sameTree _ _ Hst Hroot) as Hall.
      destruct (executeNextAutoUpdate_specific (ticks locks s) feed _
                  ltac:(now rewrite Hall) ltac:(now rewrite Hall) IH Ht) as (Hafter & _).
      rewrite Hafter. f_equal. unfold afterPass, setAutoUpdateRemainingInterval.
      cbn. rewrite Ht, Hinit.
      pose proof (obtained_nonneg locks) as Hk.
      pose proof (Z.mod_pos_bound (obtained locks) i ltac:(lia)) as Hb.
      rewrite dec32_no_overflow by lia. rewrite succ_mod by lia.
      destruct (decide (obtained locks mod i = i - 1)) as [He|Hne].
      * rewrite (proj2 (Z.leb_le _ _)) by lia. f_equal. lia.
      * rewrite (proj2 (Z.leb_gt _ _)) by lia. f_equal. lia.
    + cbn [executeNextAutoUpdate negb]. rewrite IH. now rewrite Z.add_0_r.
Qed.

(** X2.  A feed with an interval of its own is counted down by every tick
    on which the update lock was obtained, whatever the global settings are:
    starting with its remaining interval equal to its initial interval [i],
    it has [i - k mod i] ticks left after [k] such ticks, and it is named by
    the request of the [k]-th such tick exactly when [k] is a multiple of
    [i].  Its cycle takes [i] ticks. *)
Theorem specific_interval_takes_its_ticks (s : AutoUpdate) (locks : list bool)
    (feed : addr) (f : RootItem) (i : Z) :
  NoDup (allFeeds (feedsModel s)) ->
  feed ∈ allFeeds (feedsModel s) ->
  items (feedsModel s) !! feed = Some f ->
  autoUpdateType f = SpecificAutoUpdate ->
  autoUpdateInitialInterval f = i ->
  autoUpdateRemainingInterval f = i ->
  1 <= i < 2 ^ 31 ->
  let before := ticks locks s in
  let after := executeNextAutoUpdate true before in
  let k := obtained locks + 1 in
  items (feedsModel after) !! feed = Some (setAutoUpdateRemainingInterval (i - k mod i) f)
  /\ (k mod i = 0 ->
      exists feeds, feedsUpdateRequested after = feedsUpdateRequested before ++ [feeds]
                    /\ feed ∈ feeds)
  /\ (k mod i <> 0 ->
      feedsUpdateRequested after = feedsUpdateRequested before
      \/ exists feeds, feedsUpdateRequested after = feedsUpdateRequested before ++ [feeds]
                       /\ feed ∉ feeds).
Proof.
  intros Hnd Hfeed Hlook Ht Hinit Hrem Hi before after k.
  pose proof (ticks_specific_countdown s (locks ++ [true]) feed f i
                Hnd Hfeed Hlook Ht Hinit Hrem Hi) as Hafter.
  rewrite ticks_snoc, obtained_snoc in Hafter. split; [exact Hafter|].
  pose proof (ticks_specific_countdown s locks feed f i
                Hnd Hfeed Hlook Ht Hinit Hrem Hi) as Hbefore.
  destruct (ticks_sameTree locks s) as (Hst & Hroot & _).
  pose proof (allFeeds_sameTree _ _ Hst Hroot) as Hall.
  destruct (executeNextAutoUpdate_specific before feed _
              ltac:(subst before; now rewrite Hall) ltac:(subst before; now rewrite Hall)
              Hbefore Ht) as (_ & Hdue & Hnot).
  cbn [autoUpdateRemainingInterval setAutoUpdateRemainingInterval] in Hdue, Hnot.
  pose proof (obtained_nonneg locks) as Hk.
  pose proof (Z.mod_pos_bound (obtained locks) i ltac:(lia)) as Hb.
  rewrite dec32_no_overflow in Hdue, Hnot by lia.
  subst k. rewrite succ_mod by lia.
  destruct (decide (obtained locks mod i = i - 1)) as [He|Hne].
  - split; [intros _; apply Hdue; lia|intros Hk0; now contradiction Hk0].
  - split; [intros Hk0; lia|intros _; apply Hnot; lia].
Qed.

End AutoUpdatePeriods.

(** The sample tree with a global interval of two ticks: the lock is busy on
    the second tick, and the feed "News" on the global interval is requested
    by the third. *)
Lemma global_interval_takes_one_tick_more_witness :
  let s := @mkAutoUpdate scriptedStore (sampleModel []) false 0 0 false [] in
  let before := ticks [true; false] (updateAutoUpdateStatus 2 true s) in
  let after := executeNextAutoUpdate true before in
  m_globalAutoUpdateRemainingInterval after = 0
  /\ exists feeds, feedsUpdateRequested after = feedsUpdateRequested before ++ [feeds]
                   /\ (5%positive : addr) ∈ feeds.
Proof.
  intros s before after.
  destruct (global_interval_takes_one_tick_more (H := scriptedStore) s 2 [true; false]
              5%positive (feedNode 21 "News" (Some 1%positive) DefaultAutoUpdate 0 0))
    as (Hcount & Hdue & _).
  - lia.
  - by_computation.
  - reflexivity.
  - reflexivity.
  - split; [exact Hcount|]. apply Hdue. reflexivity.
Defined.

(** The feed "Blog" of the sample tree, with an interval of three ticks, is
    requested by the third tick and starts over. *)
Lemma specific_interval_takes_its_ticks_witness :
  let s := @mkAutoUpdate scriptedStore (sampleModel []) false 0 0 false [] in
  let before := ticks [true; true] s in
  let after := executeNextAutoUpdate true before in
  items (feedsModel after) !! 4%positive = Some blogFeed
  /\ exists feeds, feedsUpdateRequested after = feedsUpdateRequested before ++ [feeds]
                   /\ (4%positive : addr) ∈ feeds.
Proof.
  intros s before after.
  destruct (specific_interval_takes_its_ticks (H := scriptedStore) s [true; true]
              4%positive blogFeed 3)
    as (Hleft & Hdue & _).
  - by_computation.
  - by_computation.
  - reflexivity.
  - reflexivity.
  - reflexivity.
  - reflexivity.
  - lia.
  - split; [exact Hleft|]. apply Hdue. reflexivity.
Defined.

(** ** Categories below an item *)

Lemma Below_nil (h : Heap) (x : addr) : ~ Below h [] x.
Proof. induction 1 as [x Hx|]; [inversion Hx|assumption]. Qed.

Lemma Below_mono (h : Heap) (top top' : list addr) (x : addr) :
  (forall y, y ∈ top -> Below h top' y) -> Below h top x -> Below h top' x.
Proof.
  intros Hsub. induction 1 as [x Hx|p pi x _ IH Hp Hk Hx]; [auto|].
  eapply below_category; eassumption.
Qed.

(** What is below a work list is its head, or below the work list that the
    loop goes on with. *)
Lemma Below_step (h : Heap) (item : addr) (rest : list addr) (x : addr) :
  Below h (item :: rest) x ->
  x = item
  \/ Below h (match h !! item with
              | Some it => if decide (kind it = Cattegory) then rest ++ childItems it
                           else rest
              | None => rest
              end) x.
Proof.
  induction 1 as [x Hx|p pi x _ IH Hp Hk Hx].
  - apply elem_of_cons in Hx as [->|Hx]; [now left|]. right.
    apply below_top. destruct (h !! item) as [it|]; [|assumption].
    destruct (decide _); [apply elem_of_app; now left|assumption].
  - right. destruct IH as [->|IH].
    + rewrite Hp. rewrite decide_True by assumption.
      apply below_top, elem_of_app. now right.
    + eapply below_category; eassumption.
Qed.

(** The invariant of the loop of categoriesForItem started on [top]. *)
Lemma categoriesLoop_inv (h : Heap) (top : list addr) :
  forall fuel parents categories result,
    categoriesLoop fuel parents categories h = Returns result ->
    (forall x, x ∈ parents -> Below h top x) ->
    (forall k c, categories !! k = Some c ->
       exists it, h !! c = Some it /\ kind it = Cattegory /\ id it = k /\ Below h top c) ->
    (forall x it, Below h top x -> h !! x = Some it -> kind it = Cattegory ->
       is_Some (categories !! id it) \/ Below h parents x) ->
    (forall k c, result !! k = Some c ->
       exists it, h !! c = Some it /\ kind it = Cattegory /\ id it = k /\ Below h top c)
    /\ (forall x it, Below h top x -> h !! x = Some it -> kind it = Cattegory ->
          is_Some (result !! id it))
    /\ (forall k, is_Some (categories !! k) -> result !! k = categories !! k).
Proof.
  induction fuel as [|n IH]; intros parents categories result Hrun Hpar Hsound Hcompl.
  - destruct parents; [|discriminate]. cbn in Hrun. inversion Hrun; subst result.
    split; [exact Hsound|]. split; [|reflexivity].
    intros x it Hx Hit Hk. destruct (Hcompl x it Hx Hit Hk) as [?|Hb]; [assumption|].
    now apply Below_nil in Hb.
  - destruct parents as [|item rest].
    { cbn in Hrun. inversion Hrun; subst result.
      split; [exact Hsound|]. split; [|reflexivity].
      intros x it Hx Hit Hk. destruct (Hcompl x it Hx Hit Hk) as [?|Hb]; [assumption|].
      now apply Below_nil in Hb. }
    cbn [categoriesLoop] in Hrun. unfold mbind, Outcome_bind, deref in Hrun.
    destruct (h !! item) as [it|] eqn:Hitem; [|discriminate].
    assert (Hbitem : Below h top item) by (apply Hpar; now left).
    destruct (decide (kind it = Cattegory)) as [Hcat|Hcat].
    + set (categories' := match categories !! id it with
                          | Some _ => categories
                          | None => <[id it := item]> categories
                          end) in *.
      assert (Hkeep : forall k, is_Some (categories !! k) -> categories' !! k = categories !! k).
      { intros k Hk. unfold categories'. destruct (categories !! id it) eqn:Hid; [reflexivity|].
        rewrite lookup_insert_ne; [reflexivity|]. intros <-. rewrite Hid in Hk.
        now destruct Hk. }
      assert (Hhas : is_Some (categories' !! id it)).
      { unfold categories'. destruct (categories !! id it) eqn:Hid; [rewrite Hid; eauto|].
        rewrite lookup_insert_eq. eauto. }
      destruct (IH _ _ _ Hrun) as (Hs & Hc & Hk).
      * intros x Hx. apply elem_of_app in Hx as [Hx|Hx]; [apply Hpar; now right|].
        eapply below_category; eassumption.
      * intros k c Hkc. unfold categories' in Hkc.
        destruct (categories !! id it) eqn:Hid; [now apply Hsound|].
        destruct (decide (k = id it)) as [->|Hne].
        -- rewrite lookup_insert_eq in Hkc. inversion Hkc; subst c. eauto.
        -- rewrite lookup_insert_ne in Hkc by congruence. now apply Hsound.
      * intros x xi Hx Hxi Hxk.
        destruct (Hcompl x xi Hx Hxi Hxk) as [Hin|Hb].
        { left. rewrite Hkeep by assumption. assumption. }
        apply Below_step in Hb as [->|Hb].
        { left. rewrite Hitem in Hxi. inversion Hxi; subst xi. exact Hhas. }
        right. rewrite Hitem in Hb. now rewrite decide_True in Hb by assumption.
      * split; [exact Hs|]. split; [exact Hc|].
        intros k Hkc. rewrite Hk by (rewrite Hkeep; assumption). now apply Hkeep.
    + destruct (IH _ _ _ Hrun) as (Hs & Hc & Hk).
      * intros x Hx. apply Hpar. now right.
      * exact Hsound.
      * intros x xi Hx Hxi Hxk.
        destruct (Hcompl x xi Hx Hxi Hxk) as [Hin|Hb]; [now left|].
        apply Below_step in Hb as [->|Hb].
        { rewrite Hitem in Hxi. inversion Hxi; subst xi. contradiction. }
        right. rewrite Hitem in Hb. now rewrite decide_False in Hb by assumption.
      * auto.
Qed.

(** X7.  What categoriesForItem returns: every entry leads from an id to a
    live category of that id that is below the root item given (a child of
    it, or a child of a category below it), and the id of every category
    below that item has an entry. *)
Theorem categoriesForItem_entries (fuel : nat) (h : Heap) (root : addr) (r : RootItem)
    (categories : gmap Z positive) :
  h !! root = Some r ->
  categoriesForItem fuel h root = Returns categories ->
  (forall k c, categories !! k = Some c ->
     exists it, h !! c = Some it /\ kind it = Cattegory /\ id it = k
                /\ Below h (childItems r) c)
  /\ (forall c it, Below h (childItems r) c -> h !! c = Some it -> kind it = Cattegory ->
        is_Some (categories !! id it)).
Proof.
  intros Hr Hrun. unfold categoriesForItem in Hrun. unfold_outcome. rewrite Hr in Hrun.
  destruct (categoriesLoop_inv h (childItems r) fuel (childItems r) ∅ categories Hrun)
    as (Hs & Hc & _).
  - intros x Hx. now apply below_top.
  - intros k c Hkc. now rewrite lookup_empty in Hkc.
  - intros x it Hx _ _. now right.
  - split; assumption.
Qed.

Lemma ranked_child (rank : addr -> nat) (h : Heap) (a c : addr) (it : RootItem) :
  ranked rank h -> h !! a = Some it -> c ∈ childItems it ->
  is_Some (h !! c) /\ (rank c < rank a)%nat.
Proof.
  intros Hr Ha Hc. specialize (Hr a it Ha). cbn in Hr.
  rewrite Forall_forall in Hr. now apply Hr.
Qed.

(** Following the categories deeper than the rank of an item adds no
    visits. *)
Lemma visits_stable (rank : addr -> nat) (h : Heap) :
  ranked rank h ->
  forall n n' a, (rank a <= n)%nat -> (rank a <= n')%nat -> visits n h a = visits n' h a.
Proof.
  intros Hr. induction n as [|n IH]; intros n' a Hn Hn'.
  - destruct n' as [|n']; [reflexivity|]. cbn.
    destruct (h !! a) as [it|] eqn:Ha; [|reflexivity].
    destruct (decide _); [|reflexivity].
    destruct (childItems it) as [|c l] eqn:Hl; [reflexivity|].
    destruct (ranked_child rank h a c it Hr Ha) as [_ Hlt]; [rewrite Hl; now left|lia].
  - destruct n' as [|n'].
    + cbn. destruct (h !! a) as [it|] eqn:Ha; [|reflexivity].
      destruct (decide _); [|reflexivity].
      destruct (childItems it) as [|c l] eqn:Hl; [reflexivity|].
      destruct (ranked_child rank h a c it Hr Ha) as [_ Hlt]; [rewrite Hl; now left|lia].
    + cbn. destruct (h !! a) as [it|] eqn:Ha; [|reflexivity].
      destruct (decide _); [|reflexivity]. f_equal.
      assert (Hch : forall c, c ∈ childItems it -> visits n h c = visits n' h c).
      { intros c Hc. destruct (ranked_child rank h a c it Hr Ha Hc) as [_ Hlt].
        apply IH; lia. }
      induction (childItems it) as [|c l IHl]; [reflexivity|]. cbn.
      rewrite Hch by now left. rewrite IHl; [reflexivity|].
      intros c' Hc'. apply Hch. now right.
Qed.

Lemma visits_pos n h a : (1 <= visits n h a)%nat.
Proof.
  destruct n; cbn; [lia|]. destruct (h !! a); [|lia]. destruct (decide _); lia.
Qed.

Lemma foldr_visits_app n h l1 l2 :
  foldr (fun c k => (visits n h c + k)%nat) O (l1 ++ l2)
  = (foldr (fun c k => (visits n h c + k)%nat) O l1
     + foldr (fun c k => (visits n h c + k)%nat) O l2)%nat.
Proof. induction l1 as [|x l1 IH]; cbn; [reflexivity|]. rewrite IH. lia. Qed.

Lemma categoriesLoop_returns (rank : addr -> nat) (h : Heap) (bound : nat) :
  ranked rank h ->
  forall fuel parents categories,
    (forall x, x ∈ parents -> is_Some (h !! x) /\ (rank x <= bound)%nat) ->
    (foldr (fun c k => (visits bound h c + k)%nat) O parents <= fuel)%nat ->
    exists result, categoriesLoop fuel parents categories h = Returns result.
Proof.
  intros Hr. induction fuel as [|n IH]; intros parents categories Hlive Hfuel.
  - destruct parents as [|item rest]; [cbn; eauto|].
    cbn in Hfuel. pose proof (visits_pos bound h item). lia.
  - destruct parents as [|item rest]; [cbn; eauto|].
    cbn [categoriesLoop]. unfold mbind, Outcome_bind, deref.
    destruct (Hlive item ltac:(now left)) as [[it Hitem] Hrank]. rewrite Hitem.
    cbn [foldr] in Hfuel.
    destruct (decide (kind it = Cattegory)) as [Hcat|Hcat].
    + apply IH.
      * intros x Hx. apply elem_of_app in Hx as [Hx|Hx]; [apply Hlive; now right|].
        destruct (ranked_child rank h item x it Hr Hitem Hx) as [Hl Hlt]. split; [exact Hl|lia].
      * rewrite foldr_visits_app.
        assert (Hitem_visits :
                  visits bound h item
                  = S (foldr (fun c k => (visits bound h c + k)%nat) O (childItems it))).
        { rewrite (visits_stable rank h Hr bound (S bound) item) by lia.
          cbn [visits]. rewrite Hitem. now rewrite decide_True by assumption. }
        lia.
    + apply IH.
      * intros x Hx. apply Hlive. now right.
      * pose proof (visits_pos bound h item). lia.
Qed.

(** X8.  categoriesForItem returns on every heap whose child links form no
    cycle and lead to live items: there is an amount of fuel from which on
    its loop comes to its end. *)
Theorem categoriesForItem_returns (rank : addr -> nat) (h : Heap) (root : addr)
    (r : RootItem) :
  ranked rank h ->
  h !! root = Some r ->
  exists enough,
    forall fuel, (enough <= fuel)%nat ->
      exists categories, categoriesForItem fuel h root = Returns categories.
Proof.
  intros Hr Hroot.
  exists (foldr (fun c k => (visits (rank root) h c + k)%nat) O (childItems r)).
  intros fuel Hfuel. unfold categoriesForItem. unfold_outcome. rewrite Hroot.
  apply (categoriesLoop_returns rank h (rank root) Hr); [|exact Hfuel].
  intros x Hx. destruct (ranked_child rank h root x r Hr Hroot Hx) as [Hl Hlt].
  split; [exact Hl|lia].
Qed.

(** ** Attaching the feeds *)




Lemma categoriesForItem_entries_witness :
  exists categories,
    categoriesForItem 10 sampleItems 1%positive = Returns categories
    /\ forall c it, Below sampleItems [3; 5; 6; 2]%positive c -> sampleItems !! c = Some it ->
                    kind it = Cattegory -> is_Some (categories !! id it).
Proof.
  eexists. split; [vm_compute; reflexivity|].
  exact (proj2 (categoriesForItem_entries 10 sampleItems 1%positive
                  (rootNode [3; 5; 6; 2]%positive) _
                  ltac:(vm_compute; reflexivity) ltac:(vm_compute; reflexivity))).
Defined.

Lemma sampleItems_ranked : ranked sampleRank sampleItems.
Proof. unfold ranked. by_computation. Qed.

Lemma categoriesForItem_returns_witness :
  exists enough,
    forall fuel, (enough <= fuel)%nat ->
      exists categories, categoriesForItem fuel sampleItems 1%positive = Returns categories.
Proof.
  exact (categoriesForItem_returns sampleRank sampleItems 1%positive
           (rootNode [3; 5; 6; 2]%positive) sampleItems_ranked
           ltac:(vm_compute; reflexivity)).
Defined.


(** ** The conversation of a bulk update with the database *)

Section BulkUpdateRuns.
Context `{SqlDriver}.

Lemma logged_calls (c : bool -> DbCall) (r : bool * Connection) (s : Session) :
  calls (logged c r s).2 = calls s ++ [c (logged c r s).1].
Proof. reflexivity. Qed.

(** X10.  Whatever the database answers, markFeedsRead and
    markFeedsDeleted talk to it in one of six ways, and their result follows
    from the answers: the statement names the ids of the feeds, separated by
    commas (none for an empty list of feeds), and binds the flag given;
    nothing is asked after a transaction that did not start; a statement
    that cannot be prepared is followed by a rollback and the result false;
    a statement that was prepared is executed and then committed, also when
    its execution failed and was rolled back; the result is true when the
    commit succeeded, and the answer of the rollback that follows it when it
    did not. *)
Theorem markFeeds_conversation (feeds : list RootItem) (flag : Z) (read_only : bool)
    (s : Session) :
  (exists run,
     calls (markFeedsRead feeds flag s).2 = calls s ++ run
     /\ BulkUpdateRun
          ("UPDATE Messages SET is_read = :read WHERE feed IN ("
           +:+ join ", " (map (fun feed => pretty (id feed)) feeds)
           +:+ ") AND is_deleted = 0;")
          [(":read", flag)] run (markFeedsRead feeds flag s).1)
  /\ (exists run,
        calls (markFeedsDeleted feeds flag read_only s).2 = calls s ++ run
        /\ BulkUpdateRun
             ("UPDATE Messages SET is_deleted = :deleted WHERE feed IN ("
              +:+ join ", " (map (fun feed => pretty (id feed)) feeds)
              +:+ (if read_only then ") AND is_deleted = 0 AND is_read = 1;"
                   else ") AND is_deleted = 0;"))
             [(":deleted", flag)] run (markFeedsDeleted feeds flag read_only s).1).
Proof.
  split.
  - unfold markFeedsRead, textualFeedIds.
    unfold db_transaction, db_prepare, db_exec, db_commit, db_rollback, logged.
    cbn [fst snd connection calls].
    destruct (transaction (connection s)) as [[] c1]; cbn [fst snd negb].
    2:{ eexists. split; [reflexivity|constructor]. }
    destruct (prepare c1 _) as [[] c2]; cbn [fst snd negb connection calls].
    2:{ destruct (rollback c2) as [rb c3]. cbn [fst snd calls].
        eexists. split; [rewrite <- !app_assoc; reflexivity|constructor]. }
    destruct (exec c2 _) as [[] c3]; cbn [fst snd negb connection calls].
    + destruct (commit c3) as [[] c4]; cbn [fst snd connection calls].
      * eexists. split; [rewrite <- !app_assoc; reflexivity|constructor].
      * destruct (rollback c4) as [rb c5]. cbn [fst snd calls].
        eexists. split; [rewrite <- !app_assoc; reflexivity|constructor].
    + destruct (rollback c3) as [rb c4]; cbn [fst snd connection calls].
      destruct (commit c4) as [[] c5]; cbn [fst snd connection calls].
      * eexists. split; [rewrite <- !app_assoc; reflexivity|constructor].
      * destruct (rollback c5) as [rb2 c6]. cbn [fst snd calls].
        eexists. split; [rewrite <- !app_assoc; reflexivity|constructor].
  - unfold markFeedsDeleted, textualFeedIds.
    unfold db_transaction, db_prepare, db_exec, db_commit, db_rollback, logged.
    cbn [fst snd connection calls].
    destruct (transaction (connection s)) as [[] c1]; cbn [fst snd negb].
    2:{ eexists. split; [reflexivity|constructor]. }
    destruct read_only.
    + destruct (prepare c1 _) as [[] c2]; cbn [fst snd negb connection calls].
      2:{ destruct (rollback c2) as [rb c3]. cbn [fst snd calls].
          eexists. split; [rewrite <- !app_assoc; reflexivity|constructor]. }
      destruct (exec c2 _) as [[] c3]; cbn [fst snd negb connection calls].
      * destruct (commit c3) as [[] c4]; cbn [fst snd connection calls].
        -- eexists. split; [rewrite <- !app_assoc; reflexivity|constructor].
        -- destruct (rollback c4) as [rb c5]. cbn [fst snd calls].
           eexists. split; [rewrite <- !app_assoc; reflexivity|constructor].
      * destruct (rollback c3) as [rb c4]; cbn [fst snd connection calls].
        destruct (commit c4) as [[] c5]; cbn [fst snd connection calls].
        -- eexists. split; [rewrite <- !app_assoc; reflexivity|constructor].
        -- destruct (rollback c5) as [rb2 c6]. cbn [fst snd calls].
           eexists. split; [rewrite <- !app_assoc; reflexivity|constructor].
    + destruct (prepare c1 _) as [[] c2]; cbn [fst snd negb connection calls].
      2:{ destruct (rollback c2) as [rb c3]. cbn [fst snd calls].
          eexists. split; [rewrite <- !app_assoc; reflexivity|constructor]. }
      destruct (exec c2 _) as [[] c3]; cbn [fst snd negb connection calls].
      * destruct (commit c3) as [[] c4]; cbn [fst snd connection calls].
        -- eexists. split; [rewrite <- !app_assoc; reflexivity|constructor].
        -- destruct (rollback c4) as [rb c5]. cbn [fst snd calls].
           eexists. split; [rewrite <- !app_assoc; reflexivity|constructor].
      * destruct (rollback c3) as [rb c4]; cbn [fst snd connection calls].
        destruct (commit c4) as [[] c5]; cbn [fst snd connection calls].
        -- eexists. split; [rewrite <- !app_assoc; reflexivity|constructor].
        -- destruct (rollback c5) as [rb2 c6]. cbn [fst snd calls].
           eexists. split; [rewrite <- !app_assoc; reflexivity|constructor].
Qed.

End BulkUpdateRuns.

(** ** Indexes of the items linked to the root *)

Section TreeIndexRoundTrip.
Context `{Persistence}.

(** X3.  indexForItem and itemForIndex are inverse to each other on the
    items linked to the root: the index computed for such an item leads back
    to the item; it is the invalid index for the root itself and otherwise
    names the position of the item among the children of its parent, in
    column 0; and its row count is the number of children of the item. *)
Theorem indexForItem_itemForIndex (m : FeedsModel) (path : list addr) (item : addr) :
  Linked (items m) (m_rootItem m) path item ->
  exists index it,
    indexForItem m (Some item) = Returns index
    /\ itemForIndex m (forgetColumn index) = item
    /\ items m !! item = Some it
    /\ feedsRowCount m index = Returns (Z.of_nat (length (childItems it)))
    /\ (item = m_rootItem m -> index = InvalidModelIndex)
    /\ (item <> m_rootItem m ->
        exists p pi, parent it = Some p /\ items m !! p = Some pi
                     /\ item ∈ childItems pi
                     /\ index = createIndex (indexOf item (childItems pi)) 0 item).
Proof.
  intros Hl.
  destruct (indexForItem_Linked m path item Hl) as (index & Hrun & Hitem & Hroot & Hcell).
  destruct (Linked_cases _ _ _ _ Hl)
    as [(_ & Heq & r & Hr & Hk)
       |(Hne & it & p & pi & Ha & Hkind & Hpar & Hp & Hin & _)].
  - exists index, r. rewrite Heq in *.
    split; [exact Hrun|]. split; [exact Hitem|]. split; [exact Hr|].
    rewrite (Hroot eq_refl). split.
    + unfold feedsRowCount. cbn. unfold_outcome. now rewrite Hr.
    + split; [reflexivity|]. intros Hc. now contradiction Hc.
  - exists index, it. split; [exact Hrun|]. split; [exact Hitem|].
    split; [exact Ha|]. rewrite (Hcell it p pi Ha Hpar Hp Hkind). split.
    + unfold feedsRowCount. cbn. unfold_outcome. now rewrite Ha.
    + split; [intros Hc; now contradiction Hne|].
      intros _. exists p, pi. auto.
Qed.

(** X4.  The index of the parent: for an item linked to the root and other
    than the root, FeedsModel::parent applied to the index of the item gives
    the index that indexForItem computes for the parent of the item. *)
Theorem parent_of_indexForItem (m : FeedsModel) (path : list addr) (item : addr)
    (it : RootItem) :
  Linked (items m) (m_rootItem m) path item ->
  item <> m_rootItem m ->
  items m !! item = Some it ->
  exists index parent_index,
    indexForItem m (Some item) = Returns index
    /\ parentIndex m (forgetColumn index) = Returns parent_index
    /\ indexForItem m (parent it) = Returns parent_index.
Proof.
  intros Hl Hne Hit.
  destruct (Linked_cases _ _ _ _ Hl)
    as [(_ & Hroot & _)
       |(_ & it' & p & pi & Ha & Hkind & Hpar & Hp & Hin & path' & Hpath & Hl')];
    [contradiction|].
  rewrite Hit in Ha. inversion Ha; subst it'. clear Ha.
  destruct (indexForItem_Linked m path item Hl) as (index & Hrun & _ & _ & Hcell).
  rewrite (Hcell it p pi Hit Hpar Hp Hkind) in Hrun.
  destruct (indexForItem_Linked m path' p Hl') as (pindex & Hprun & _ & Hproot & Hpcell).
  exists (createIndex (indexOf item (childItems pi)) 0 item), pindex.
  split; [exact Hrun|]. rewrite Hpar. split; [|exact Hprun].
  unfold parentIndex. cbn [forgetColumn itemForIndex]. unfold_outcome.
  rewrite Hit, Hpar.
  destruct (Linked_cases _ _ _ _ Hl')
    as [(_ & Hroot & _)
       |(Hpne & pit & pp & ppi & Hpa & Hpkind & Hppar & Hpp & _)].
  - rewrite decide_True by assumption. now rewrite (Hproot Hroot).
  - rewrite decide_False by assumption. rewrite Hpa. unfold row. unfold_outcome.
    rewrite Hppar, Hpp. now rewrite (Hpcell pit pp ppi Hpa Hppar Hpp Hpkind).
Qed.

End TreeIndexRoundTrip.

(** ** Moving a node *)

Lemma elem_of_removeOne (c x : addr) (l : list addr) :
  x ∈ l -> x <> c -> x ∈ removeOne c l.
Proof.
  induction l as [|y l IH]; intros Hin Hne; [inversion Hin|].
  cbn [removeOne]. apply elem_of_cons in Hin as [->|Hin].
  - rewrite decide_False by congruence. now left.
  - destruct (decide (y = c)); [exact Hin|]. right. now apply IH.
Qed.

(** An item stays linked to the root when a node that is not on its path is
    taken out of a child list. *)
Lemma Linked_removed (h h1 : Heap) (root o node : addr) (path : list addr) (a : addr) :
  (forall x, h1 !! x = removed o node x <$> (h !! x)) ->
  Linked h root path a -> node ∉ path -> Linked h1 root path a.
Proof.
  intros Hl1. induction 1 as [r Hr Hk|path p pi a it Hl IH Hp Ha Hkind Hpar Hin];
    intros Hnot.
  - eapply linked_root; [rewrite Hl1, Hr; reflexivity|].
    unfold removed. now destruct (decide (root = o)).
  - apply not_elem_of_app in Hnot as [Hnot Hna].
    apply not_elem_of_cons in Hna as [Hna _].
    eapply linked_child.
    + now apply IH.
    + rewrite Hl1, Hp. reflexivity.
    + rewrite Hl1, Ha. reflexivity.
    + unfold removed. now destruct (decide (a = o)).
    + unfold removed. now destruct (decide (a = o)).
    + unfold removed. destruct (decide (p = o)); [|exact Hin].
      cbn. apply elem_of_removeOne; [exact Hin|congruence].
Qed.

Section Reassign.
Context `{Persistence}.

(** X5.  reassignNodeToNewParent does nothing, and tells the views nothing,
    when the node already is under the new parent.  Otherwise, when the
    parent of the node and the new parent are linked to the root and the
    node is not on the way down to the new parent, it returns: the node is
    taken out of the child list of its parent and put at the end of that of
    the new parent, to which it then points back; the views are told of the
    removal at the position the node had, and then of the insertion at the
    end of the new parent, each between its two signals; the store is not
    asked. *)
Theorem reassignNodeToNewParent_moves (node new_parent o : addr) (m : FeedsModel)
    (it oi npi : RootItem) (opath npath : list addr) :
  items m !! node = Some it -> parent it = Some o ->
  items m !! o = Some oi -> items m !! new_parent = Some npi ->
  Linked (items m) (m_rootItem m) opath o ->
  Linked (items m) (m_rootItem m) npath new_parent ->
  node ∉ npath ->
  (o = new_parent -> reassignNodeToNewParent node new_parent m = Returns m)
  /\ (o <> new_parent ->
      exists m' h1,
        reassignNodeToNewParent node new_parent m = Returns m'
        /\ store m' = store m
        /\ m_rootItem m' = m_rootItem m /\ m_recycleBin m' = m_recycleBin m
        /\ (forall a, h1 !! a = removed o node a <$> (items m !! a))
        /\ (forall a, items m' !! a = appended new_parent node a <$> (h1 !! a))
        /\ signals m'
           = signals m
             ++ [(BeginRemoveRows o (indexOf node (childItems oi))
                                  (indexOf node (childItems oi)), items m);
                 (EndRemoveRows, h1);
                 (BeginInsertRows new_parent (Z.of_nat (length (childItems npi)))
                                  (Z.of_nat (length (childItems npi))), h1);
                 (EndInsertRows, items m')]
        /\ (node <> o -> node <> new_parent ->
            exists it' oi' npi',
              items m' !! node = Some it' /\ parent it' = Some new_parent
              /\ childItems it' = childItems it
              /\ items m' !! o = Some oi'
              /\ childItems oi' = removeOne node (childItems oi)
              /\ items m' !! new_parent = Some npi'
              /\ childItems npi' = childItems npi ++ [node]
              /\ forall a, a <> node -> a <> o -> a <> new_parent ->
                           items m' !! a = items m !! a)).
Proof.
  intros Hnode Hpar Ho Hnp Hlo Hln Hnot. split.
  - intros ->. unfold reassignNodeToNewParent. unfold_outcome. rewrite Hnode.
    now rewrite decide_True by assumption.
  - intros Hne.
    destruct (indexForItem_Linked m opath o Hlo) as (oindex & Horun & Hoitem & _).
    assert (Hrm : removeChild o node (items m)
                  = Returns (<[o := setChildItems (removeOne node (childItems oi)) oi]>
                               (items m))).
    { unfold removeChild. unfold_outcome. now rewrite Ho. }
    set (h1 := <[o := setChildItems (removeOne node (childItems oi)) oi]> (items m)) in *.
    pose proof (removeChild_lookup o node (items m) h1 Hrm) as Hl1.
    set (m1 := emit EndRemoveRows
                 (setItems h1
                    (emit (BeginRemoveRows (itemForIndex m (forgetColumn oindex))
                             (indexOf node (childItems oi))
                             (indexOf node (childItems oi))) m))).
    assert (Hln1 : Linked (items m1) (m_rootItem m1) npath new_parent).
    { apply (Linked_removed (items m) h1 (m_rootItem m) o node npath new_parent Hl1 Hln Hnot). }
    destruct (indexForItem_Linked m1 npath new_parent Hln1) as (nindex & Hnrun & Hnitem & _).
    destruct (appendChild_Returns new_parent node h1) as [h2 Happ].
    { unfold h1. rewrite lookup_insert_ne by congruence. eauto. }
    { unfold h1. destruct (decide (o = node)) as [->|Hon].
      - rewrite lookup_insert_eq. eauto.
      - rewrite lookup_insert_ne by assumption. eauto. }
    pose proof (appendChild_lookup new_parent node h1 h2 Happ) as Hl2.
    assert (Hrun : reassignNodeToNewParent node new_parent m
                   = Returns (emit EndInsertRows
                                (setItems h2
                                   (emit (BeginInsertRows
                                            (itemForIndex m1 (forgetColumn nindex))
                                            (Z.of_nat (length (childItems npi)))
                                            (Z.of_nat (length (childItems npi)))) m1)))).
    { unfold reassignNodeToNewParent.
      unfold mbind at 1. unfold Outcome_bind at 1. unfold deref at 1. rewrite Hnode.
      rewrite decide_False by (rewrite Hpar; congruence). rewrite Hpar.
      unfold mbind at 1. unfold Outcome_bind at 1. unfold deref at 1. rewrite Ho.
      unfold mbind at 1. unfold Outcome_bind at 1. unfold deref at 1. rewrite Hnp.
      rewrite Horun. cbn [mbind Outcome_bind]. cbn [items emit]. rewrite Hrm.
      cbn [mbind Outcome_bind]. fold m1. rewrite Hnrun. cbn [mbind Outcome_bind].
      cbn [items emit setItems m1]. fold h1. rewrite Happ. reflexivity. }
    eexists _, h1. split; [exact Hrun|].
    split; [reflexivity|]. split; [reflexivity|]. split; [reflexivity|].
    split; [exact Hl1|]. split; [exact Hl2|].
    split.
    { cbn [signals emit setItems items m1]. rewrite <- !app_assoc.
      rewrite Hoitem, Hnitem. reflexivity. }
    intros Hno Hnn. cbn [items emit setItems].
    exists (setParent (Some new_parent) it),
           (setChildItems (removeOne node (childItems oi)) oi),
           (setChildItems (childItems npi ++ [node]) npi).
    assert (Hat : forall a x, items m !! a = Some x ->
                    h2 !! a = Some (appended new_parent node a (removed o node a x))).
    { intros a x Hx. rewrite Hl2, Hl1, Hx. reflexivity. }
    split.
    { rewrite (Hat node it Hnode). unfold appended, removed.
      repeat case_decide; congruence. }
    split; [reflexivity|]. split; [reflexivity|]. split.
    { rewrite (Hat o oi Ho). unfold appended, removed.
      repeat case_decide; congruence. }
    split; [reflexivity|]. split.
    { rewrite (Hat new_parent npi Hnp). unfold appended, removed.
      repeat case_decide; congruence. }
    split; [reflexivity|].
    intros a Ha1 Ha2 Ha3. rewrite Hl2, Hl1.
    destruct (items m !! a) as [x|]; [|reflexivity]. cbn. unfold appended, removed.
    repeat case_decide; congruence.
Qed.

Lemma chainToRoot_cycle (h : Heap) (a b : addr) (x y : RootItem) :
  h !! a = Some x -> h !! b = Some y ->
  kind x <> Root -> kind y <> Root ->
  parent x = Some b -> parent y = Some a ->
  forall fuel chain, chainToRoot fuel h a chain = Timeout
                     /\ chainToRoot fuel h b chain = Timeout.
Proof.
  intros Ha Hb Hkx Hky Hpx Hpy. induction fuel as [|n IH]; intros chain; [auto|].
  cbn. unfold_outcome. rewrite Ha, Hb.
  rewrite !decide_False by assumption. rewrite Hpx, Hpy.
  split; apply IH.
Qed.

(** X6.  reassignNodeToNewParent does not look at where the new parent
    hangs.  When the new parent is a child of the node that is moved, a call
    that returns leaves the two items pointing back to each other: from then
    on the walk of indexForItem from either of them up to the root does not
    end, whatever number of steps it is granted. *)
Theorem reassignNodeToNewParent_under_own_child (node c o : addr) (m m' : FeedsModel)
    (it ci : RootItem) :
  items m !! node = Some it -> parent it = Some o ->
  items m !! c = Some ci -> parent ci = Some node ->
  o <> c -> kind it <> Root -> kind ci <> Root ->
  reassignNodeToNewParent node c m = Returns m' ->
  exists it' ci',
    items m' !! node = Some it' /\ parent it' = Some c
    /\ items m' !! c = Some ci' /\ parent ci' = Some node
    /\ indexForItem m' (Some node) = Timeout
    /\ indexForItem m' (Some c) = Timeout
    /\ forall fuel, indexForItemWithin fuel m' (Some node) = Timeout
                    /\ indexForItemWithin fuel m' (Some c) = Timeout.
Proof.
  intros Hnode Hpar Hc Hcpar Hoc Hkit Hkci Hrun.
  assert (Hcn : c <> node).
  { intros ->. rewrite Hnode in Hc. inversion Hc; subst ci. congruence. }
  assert (Hsteps : exists h1, removeChild o node (items m) = Returns h1
                              /\ appendChild c node h1 = Returns (items m')).
  { revert Hrun. unfold reassignNodeToNewParent. unfold_outcome. rewrite Hnode.
    rewrite decide_False by (rewrite Hpar; congruence). rewrite Hpar.
    destruct (items m !! o) as [oi|]; [|discriminate]. rewrite Hc.
    destruct (indexForItem m (Some o)) as [oindex| | |]; try discriminate.
    cbn [items emit]. unfold removeChild. unfold_outcome.
    destruct (items m !! o) as [oi'|]; [|discriminate]. cbn [items emit setItems].
    match goal with
    | |- context [indexForItem ?m1 (Some c)] =>
        destruct (indexForItem m1 (Some c)) as [nindex| | |]; try discriminate
    end.
    cbn [items emit setItems].
    match goal with
    | |- context [appendChild c node ?h1] =>
        destruct (appendChild c node h1) as [h2| | |] eqn:Happ; try discriminate;
        intros [= <-]; exists h1; split; [reflexivity|exact Happ]
    end. }
  destruct Hsteps as (h1 & Hrm & Happ).
  pose proof (removeChild_lookup o node (items m) h1 Hrm) as Hl1.
  pose proof (appendChild_lookup c node h1 (items m') Happ) as Hl2.
  exists (appended c node node (removed o node node it)),
         (appended c node c (removed o node c ci)).
  assert (Hn' : items m' !! node = Some (appended c node node (removed o node node it))).
  { rewrite Hl2, Hl1, Hnode. reflexivity. }
  assert (Hc' : items m' !! c = Some (appended c node c (removed o node c ci))).
  { rewrite Hl2, Hl1, Hc. reflexivity. }
  assert (Hpn : parent (appended c node node (removed o node node it)) = Some c).
  { unfold appended, removed. repeat case_decide; try congruence; reflexivity. }
  assert (Hpc : parent (appended c node c (removed o node c ci)) = Some node).
  { unfold appended, removed. repeat case_decide; try congruence; exact Hcpar. }
  assert (Hkn : kind (appended c node node (removed o node node it)) <> Root).
  { unfold appended, removed. repeat case_decide; exact Hkit. }
  assert (Hkc : kind (appended c node c (removed o node c ci)) <> Root).
  { unfold appended, removed. repeat case_decide; exact Hkci. }
  split; [exact Hn'|]. split; [exact Hpn|]. split; [exact Hc'|]. split; [exact Hpc|].
  pose proof (chainToRoot_cycle (items m') node c _ _ Hn' Hc' Hkn Hkc Hpn Hpc) as Hloop.
  assert (Hall : forall fuel, indexForItemWithin fuel m' (Some node) = Timeout
                              /\ indexForItemWithin fuel m' (Some c) = Timeout).
  { intros fuel. destruct fuel as [|n]; [auto|]. cbn [indexForItemWithin]. unfold_outcome.
    rewrite Hn', Hc'. rewrite !decide_False by assumption.
    rewrite (proj1 (Hloop n [])), (proj2 (Hloop n [])). auto. }
  split; [apply Hall|]. split; [apply Hall|]. exact Hall.
Qed.

End Reassign.

(** The feed "Blog" of the sample tree hangs under the category "Tech",
    which hangs under the root. *)
Lemma sample_Linked answers :
  Linked (items (sampleModel answers)) (m_rootItem (sampleModel answers))
         [3; 4]%positive 4%positive.
Proof.
  change [3; 4]%positive with ([3%positive] ++ [4%positive]).
  eapply linked_child with (path := [3%positive]) (p := 3%positive).
  - apply sample_category_Linked; vm_compute; reflexivity.
  - vm_compute; reflexivity.
  - vm_compute; reflexivity.
  - discriminate.
  - reflexivity.
  - by_computation.
Qed.

Lemma indexForItem_itemForIndex_witness :
  exists index,
    indexForItem (sampleModel []) (Some 4%positive) = Returns index
    /\ itemForIndex (sampleModel []) (forgetColumn index) = 4%positive
    /\ index = createIndex 0 0 4%positive.
Proof.
  destruct (indexForItem_itemForIndex (H := scriptedStore) (sampleModel [])
              [3; 4]%positive 4%positive (sample_Linked []))
    as (index & it & Hrun & Hitem & Hit & _ & _ & Hcell).
  exists index. split; [exact Hrun|]. split; [exact Hitem|].
  destruct (Hcell ltac:(discriminate)) as (p & pi & Hpar & Hp & _ & ->).
  assert (Hit' : items (sampleModel []) !! 4%positive = Some blogFeed)
    by (vm_compute; reflexivity).
  rewrite Hit' in Hit. inversion Hit; subst it. cbn in Hpar. inversion Hpar; subst p.
  assert (Hp' : items (sampleModel []) !! 3%positive
                = Some (categoryNode 10 "Tech" [4%positive] (Some 1%positive)))
    by (vm_compute; reflexivity).
  rewrite Hp' in Hp. inversion Hp; subst pi. reflexivity.
Defined.

Lemma parent_of_indexForItem_witness :
  exists index parent_index,
    indexForItem (sampleModel []) (Some 4%positive) = Returns index
    /\ parentIndex (sampleModel []) (forgetColumn index) = Returns parent_index
    /\ indexForItem (sampleModel []) (Some 3%positive) = Returns parent_index.
Proof.
  exact (parent_of_indexForItem (H := scriptedStore) (sampleModel [])
           [3; 4]%positive 4%positive blogFeed (sample_Linked []) ltac:(discriminate)
           ltac:(vm_compute; reflexivity)).
Defined.

(** The feed "Quiet" of the sample tree is moved from the root to the
    category "Tech"; the store, which has no answer left, is not asked. *)
Lemma reassignNodeToNewParent_moves_witness :
  exists m' it',
    reassignNodeToNewParent 6%positive 3%positive (sampleModel []) = Returns m'
    /\ store m' = []
    /\ items m' !! 6%positive = Some it' /\ parent it' = Some 3%positive.
Proof.
  destruct (reassignNodeToNewParent_moves (H := scriptedStore) 6%positive 3%positive
              1%positive (sampleModel [])
              (feedNode 22 "Quiet" (Some 1%positive) DontAutoUpdate 0 0)
              (rootNode [3; 5; 6; 2]%positive)
              (categoryNode 10 "Tech" [4%positive] (Some 1%positive))
              [] [3%positive])
    as [_ Hmove]; try (vm_compute; reflexivity).
  - eapply linked_root; [vm_compute; reflexivity|reflexivity].
  - apply sample_category_Linked; vm_compute; reflexivity.
  - by_computation.
  - destruct (Hmove ltac:(discriminate))
      as (m' & h1 & Hrun & Hstore & _ & _ & _ & _ & _ & Hnodes).
    destruct (Hnodes ltac:(discriminate) ltac:(discriminate))
      as (it' & _ & _ & Hit' & Hpar' & _).
    exists m', it'. auto.
Defined.

(** The category "Tech" of the sample tree moved under its own feed
    "Blog". *)
Lemma reassignNodeToNewParent_under_own_child_witness :
  exists m',
    reassignNodeToNewParent 3%positive 4%positive (sampleModel []) = Returns m'
    /\ indexForItem m' (Some 4%positive) = Timeout.
Proof.
  set (m' := returned (sampleModel [])
               (reassignNodeToNewParent 3%positive 4%positive (sampleModel []))).
  assert (Hrun : reassignNodeToNewParent 3%positive 4%positive (sampleModel [])
                 = Returns m') by (vm_compute; reflexivity).
  exists m'. split; [exact Hrun|].
  destruct (reassignNodeToNewParent_under_own_child (H := scriptedStore)
              3%positive 4%positive 1%positive (sampleModel []) m'
              (categoryNode 10 "Tech" [4%positive] (Some 1%positive)) blogFeed
              ltac:(vm_compute; reflexivity) ltac:(reflexivity)
              ltac:(vm_compute; reflexivity) ltac:(reflexivity)
              ltac:(discriminate) ltac:(discriminate) ltac:(discriminate) Hrun)
    as (it' & ci' & _ & _ & _ & _ & _ & Hloop & _).
  exact Hloop.
Defined.

(** ** A change of the read status that the database refused *)
Section Retry.
Context `{MessageServices}.

Lemma toInt_IntValue (z : Z) : toInt (IntValue z) = z.
Proof. reflexivity. Qed.

(** X11.  setMessageRead trusts the cache.  When the service accepts a
    change of the read status and the database then fails to record it, the
    call answers false, yet the new status stays in the cache; the same call
    made again finds the status already set and answers true at once,
    without asking the service or the database. *)
Theorem setMessageRead_not_retried (row_index read : Z) (m : MessagesModel)
    (item : RootItem) :
  cacheShaped m ->
  0 <= row_index < rowCount m ->
  m_selectedItem m = Some item ->
  toInt (editData m (Cell row_index MSG_DB_READ_INDEX)) <> read ->
  let call := SetMessagesRead [messageAt m row_index] read in
  let q := MarkMessagesReadUnread [pretty (m_id (messageAt m row_index))] read in
  (onBefore (m_db m) item call).1 = true ->
  (runQuery (onBefore (m_db m) item call).2 q).1 = false ->
  exists m1,
    setMessageRead row_index read m = Returns (false, m1)
    /\ events m1
       = events m ++ [Before call true;
                      CacheWrite (Cell row_index MSG_DB_READ_INDEX) (IntValue read);
                      Query q false]
    /\ setMessageRead row_index read m1 = Returns (true, m1).
Proof.
  intros Hshape Hrow Hitem Hdiff call q Hbefore Hquery.
  assert (Hcol : 0 <= MSG_DB_READ_INDEX < columnCount) by (vm_compute; split; congruence).
  assert (Hidx : index m row_index MSG_DB_READ_INDEX = Cell row_index MSG_DB_READ_INDEX)
    by now apply index_valid.
  unfold setMessageRead at 1. rewrite Hidx.
  rewrite (proj2 (Z.eqb_neq _ _) Hdiff).
  unfold callBefore, selectedItem. rewrite Hitem. cbn [mbind Outcome_bind].
  fold call. destruct (onBefore (m_db m) item call) as [accepted w1] eqn:Hb.
  cbn [fst snd] in Hbefore, Hquery. subst accepted.
  cbn [mret Outcome_ret mbind Outcome_bind negb].
  set (m0 := logEvent (Before call true) (setWorld w1 m)).
  assert (Hidx0 : index m0 row_index MSG_DB_READ_INDEX = Cell row_index MSG_DB_READ_INDEX)
    by exact Hidx.
  rewrite Hidx0. unfold query.
  change (m_db (setData (Cell row_index MSG_DB_READ_INDEX) (IntValue read) m0)) with w1.
  fold q. destruct (runQuery w1 q) as [ok w2] eqn:Hq. cbn [fst] in Hquery. subst ok.
  eexists. split; [reflexivity|]. split.
  { subst m0. cbn [events logEvent setWorld setData setCache]. rewrite <- !app_assoc.
    reflexivity. }
  unfold setMessageRead.
  match goal with |- context [index ?m1 row_index MSG_DB_READ_INDEX] =>
    assert (Hidx1 : index m1 row_index MSG_DB_READ_INDEX
                    = Cell row_index MSG_DB_READ_INDEX) by exact Hidx;
    assert (Hread : editData m1 (Cell row_index MSG_DB_READ_INDEX) = IntValue read)
  end.
  { rewrite (editData_same_cache (setData (Cell row_index MSG_DB_READ_INDEX)
                                          (IntValue read) m0) _) by reflexivity.
    rewrite editData_setData; [|exact Hshape|exact Hcol|exact Hcol].
    now rewrite decide_True by auto. }
  rewrite Hidx1, Hread, toInt_IntValue, Z.eqb_refl. reflexivity.
Qed.

End Retry.

Lemma setMessageRead_not_retried_witness :
  let m := sampleMessages blogFeed true false true in
  exists m1,
    setMessageRead 0 Read m = Returns (false, m1)
    /\ setMessageRead 0 Read m1 = Returns (true, m1).
Proof.
  intros m.
  destruct (setMessageRead_not_retried (H := scriptedServices) 0 Read m blogFeed)
    as (m1 & Hfirst & _ & Hsecond).
  - intros row rec Hrow. vm_compute in Hrow. discriminate.
  - vm_compute. split; congruence.
  - reflexivity.
  - vm_compute. congruence.
  - reflexivity.
  - reflexivity.
  - exists m1. split; assumption.
Defined.


(** ** What the batch operations hand on *)

Section BatchArguments.
Context `{MessageServices}.

Lemma switchImportanceStep_states (messages : list MessageIndex) :
  forall b : Batch,
    map fst (message_states b) = msgs b ->
    map fst (message_states (foldl switchImportanceStep b messages))
    = msgs (foldl switchImportanceStep b messages).
Proof.
  induction messages as [|idx rest IH]; intros b Hb; [exact Hb|].
  cbn [foldl]. apply IH. unfold switchImportanceStep. cbn [message_states msgs].
  rewrite map_app, Hb. reflexivity.
Qed.

(** X12.  The batch operations name the rows of the list, and nothing else,
    to the service and to the database.  On rows that are rows of the table,
    setBatchMessagesRead, setBatchMessagesRestored and
    switchBatchMessageImportance are the shared pipeline (layout reload,
    before hook, query, after hook) run with a message for each index of the
    list, carrying the id of its row, with the ids of these rows as texts in
    the order of the list, and on the model in which the cells of these rows
    have been written. *)
Theorem batch_operations_name_the_rows (messages : list MessageIndex) (read : Z)
    (m : MessagesModel) :
  cacheShaped m -> validRows m messages ->
  (exists message_list,
      messagesOf m messages message_list
      /\ setBatchMessagesRead messages read m
         = finishBatch (SetMessagesRead message_list read)
                       (fun _ => MarkMessagesReadUnread (selectedIds m messages) read)
                       (writeCells (IntValue read)
                          (map (fun idx => (index_row idx, MSG_DB_READ_INDEX)) messages) m))
  /\ (exists message_list,
        messagesOf m messages message_list
        /\ setBatchMessagesRestored messages m
           = finishBatch (MessagesRestoredFromBin message_list)
                         (fun _ => DeleteOrRestoreMessagesToFromBin
                                     (selectedIds m messages) false)
                         (writeCells (IntValue 0)
                            (flat_map (fun idx => [(index_row idx, MSG_DB_PDELETED_INDEX);
                                                   (index_row idx, MSG_DB_DELETED_INDEX)])
                                      messages) m))
  /\ (exists states,
        messagesOf m messages (map fst states)
        /\ switchBatchMessageImportance messages m
           = finishBatch (SwitchMessageImportance states)
                         (fun _ => SwitchMessagesImportance (selectedIds m messages))
                         (batch_model (foldl switchImportanceStep (startBatch m) messages))).
Proof.
  intros Hshape Hvalid. split; [|split].
  - destruct (batch_loop_ids (readStep read) m (fun _ _ => eq_refl) (fun _ _ => eq_refl)
                (readStep_keepsIds read m) messages (startBatch m) Hvalid
                (keepsIds_refl m Hshape))
      as (_ & Hids & message_list & Hmsgs & Hof).
    cbn [startBatch message_ids msgs app] in Hids, Hmsgs.
    exists message_list. split; [exact Hof|].
    unfold setBatchMessagesRead. rewrite Hids, Hmsgs, readStep_loop. reflexivity.
  - destruct (batch_loop_ids restoreStep m (fun _ _ => eq_refl) (fun _ _ => eq_refl)
                (restoreStep_keepsIds m) messages (startBatch m) Hvalid
                (keepsIds_refl m Hshape))
      as (_ & Hids & message_list & Hmsgs & Hof).
    cbn [startBatch message_ids msgs app] in Hids, Hmsgs.
    exists message_list. split; [exact Hof|].
    unfold setBatchMessagesRestored. rewrite Hids, Hmsgs, restoreStep_loop. reflexivity.
  - destruct (batch_loop_ids switchImportanceStep m (fun _ _ => eq_refl)
                (fun _ _ => eq_refl) (switchImportanceStep_keepsIds m) messages
                (startBatch m) Hvalid (keepsIds_refl m Hshape))
      as (_ & Hids & message_list & Hmsgs & Hof).
    cbn [startBatch message_ids msgs app] in Hids, Hmsgs.
    exists (message_states (foldl switchImportanceStep (startBatch m) messages)).
    split.
    + rewrite (switchImportanceStep_states messages (startBatch m) eq_refl), Hmsgs.
      exact Hof.
    + unfold switchBatchMessageImportance. now rewrite Hids.
Qed.

End BatchArguments.

(** Both messages of the sample table are marked as read: the database is
    handed the ids 5 and 6. *)
Lemma batch_operations_name_the_rows_witness :
  let m := sampleMessages blogFeed true true true in
  exists message_list,
    map (@m_id scriptedServices) message_list = [5; 6]
    /\ setBatchMessagesRead [Cell 0 5; Cell 1 5] Read m
       = finishBatch (SetMessagesRead message_list Read)
                     (fun _ => MarkMessagesReadUnread ["5"; "6"] Read)
                     (writeCells (IntValue Read)
                        [(0, MSG_DB_READ_INDEX); (1, MSG_DB_READ_INDEX)] m).
Proof.
  intros m.
  assert (Hshape : cacheShaped m).
  { intros row rec Hrow. vm_compute in Hrow. discriminate. }
  assert (Hvalid : validRows m [Cell 0 5; Cell 1 5]).
  { intros idx Hidx. apply elem_of_cons in Hidx as [->|Hidx];
      [|apply list_elem_of_singleton in Hidx as ->]; vm_compute; split; congruence. }
  destruct (batch_operations_name_the_rows (H := scriptedServices) [Cell 0 5; Cell 1 5]
              Read m Hshape Hvalid) as ((message_list & Hof & Hrun) & _).
  exists message_list. split; [|exact Hrun].
  unfold messagesOf in Hof. clear -Hof.
  inversion Hof as [|i1 x1 l1 r1 Hx1 Hrest1]; subst.
  inversion Hrest1 as [|i2 x2 l2 r2 Hx2 Hrest2]; subst.
  inversion Hrest2; subst. cbn [map]. rewrite Hx1, Hx2. vm_compute. reflexivity.
Defined.
